(** * simple-jsx-parser: a shallow embedding of the JSX-to-call transform

    The development follows the two source files of the repository:
    [html-parser.js] (node classes, [kMarkupPattern], [parse],
    [handleJSXTag], [parseProps]) and the transform module ([JSX_STRING],
    [JSX_INTERPOLATION], [translate], [stringify], [parseText],
    [parseJSX]).

    Modelling choices.
    - A JavaScript string is a list of code units; only code units below
      256 are represented ([ascii]).
    - Regular expressions are data ([regex]) run by a backtracking matcher
      written in continuation-passing style, the way ECMAScript specifies
      them; the patterns of the source are translated piece by piece.
    - The [lastIndex] of the module-level [/g] pattern objects is explicit
      state, threaded through [parse] and [parseJSX].
    - Nodes built by [parse] live in a store of objects addressed by
      reference, because [appendChild] mutates objects that are reachable
      both from the tree and from the open-tag stack.
    - [console.log] calls in [translate] are not modelled. *)

From Stdlib Require Import Ascii String List Arith ZArith Lia Bool.
Import ListNotations.

Local Open Scope list_scope.

(* ================================================================== *)
(** ** JavaScript strings *)
(* ================================================================== *)

Module JS.

Definition jsstring := list ascii.

(** String literals of the source are written [str "..."]. *)
Definition str (s : string) : jsstring := list_ascii_of_string s.

Definition dquote : ascii := "034"%char.
Definition squote : ascii := "039"%char.
Definition backtick : ascii := "096"%char.

Definition code (c : ascii) : nat := nat_of_ascii c.

(** [a <= b] on one-character strings compares code units. *)
Definition char_le (a b : ascii) : bool := code a <=? code b.

Definition string_eqb (a b : jsstring) : bool :=
  if list_eq_dec ascii_dec a b then true else false.

(** WhiteSpace and LineTerminator code units below 256: TAB, LF, VT, FF,
    CR, SP and NBSP.  This is the set of [\s] and of [trim]. *)
Definition isWhiteSpace (c : ascii) : bool :=
  ((9 <=? code c) && (code c <=? 13)) || (code c =? 32) || (code c =? 160).

Fixpoint trimStart (s : jsstring) : jsstring :=
  match s with
  | [] => []
  | c :: s' => if isWhiteSpace c then trimStart s' else s
  end.

Definition trimEnd (s : jsstring) : jsstring := rev (trimStart (rev s)).

Definition trim (s : jsstring) : jsstring := trimEnd (trimStart s).

(** Relative index of [slice]: negative indices count from the end, and
    everything is clamped to [0, len]. *)
Definition relIndex (len : nat) (i : Z) : nat :=
  if (i <? 0)%Z then Z.to_nat (Z.max 0 (Z.of_nat len + i))
  else Nat.min (Z.to_nat i) len.

Definition slice (s : jsstring) (start end_ : Z) : jsstring :=
  let from := relIndex (length s) start in
  let to := relIndex (length s) end_ in
  firstn (to - from) (skipn from s).

(** [s.slice(start)] *)
Definition sliceFrom (s : jsstring) (start : Z) : jsstring :=
  skipn (relIndex (length s) start) s.

(** [s.substring(a, b)] for non-negative arguments. *)
Definition substring (s : jsstring) (a b : nat) : jsstring :=
  let a' := Nat.min a (length s) in
  let b' := Nat.min b (length s) in
  firstn (Nat.max a' b' - Nat.min a' b') (skipn (Nat.min a' b') s).

Fixpoint isPrefix (p s : jsstring) : bool :=
  match p, s with
  | [], _ => true
  | a :: p', b :: s' => Ascii.eqb a b && isPrefix p' s'
  | _ :: _, [] => false
  end.

Definition startsWith (s p : jsstring) : bool := isPrefix p s.

Definition endsWith (s p : jsstring) : bool := isPrefix (rev p) (rev s).

(** Position of the first occurrence of [p] in [s], counted from [pos]. *)
Fixpoint findFrom (p s : jsstring) (pos : nat) : option nat :=
  if isPrefix p s then Some pos
  else match s with
       | [] => None
       | _ :: s' => findFrom p s' (S pos)
       end.

Definition indexOf (s p : jsstring) : Z :=
  match findFrom p s 0 with
  | Some i => Z.of_nat i
  | None => (-1)%Z
  end.

Definition includes (s p : jsstring) : bool :=
  match findFrom p s 0 with
  | Some _ => true
  | None => false
  end.

(** [parts.join(sep)] on an array of strings. *)
Fixpoint join (sep : jsstring) (parts : list jsstring) : jsstring :=
  match parts with
  | [] => []
  | [p] => p
  | p :: rest => p ++ sep ++ join sep rest
  end.

(** The errors the code can raise: the explicit [throw Error(...)] of
    [parse], and the [TypeError] of a property access on [undefined] or
    [null]. *)
Inductive JSError := Error (message : jsstring) | TypeError.

(** The outcome of a call: a value or a thrown error. *)
Inductive completion (A : Type) :=
| Normal (a : A)
| Throw (e : JSError).
Arguments Normal {A} a.
Arguments Throw {A} e.

Definition bind {A B : Type} (c : completion A) (f : A -> completion B)
  : completion B :=
  match c with
  | Normal a => f a
  | Throw e => Throw e
  end.

End JS.

Import JS.

Notation "x <- c ;; k" := (JS.bind c (fun x => k))
  (at level 61, c at next level, right associativity).

(* ================================================================== *)
(** ** Regular expressions *)
(* ================================================================== *)

Module RegExp.

(** Members of a character class. *)
Inductive ClassAtom :=
| CChar (c : ascii)             (* a literal character *)
| CRange (lo hi : ascii)        (* lo-hi *)
| CSpace                        (* \s *)
| CNotSpace.                    (* \S *)

Inductive regex :=
| Empty
| Char (c : ascii)
| Class (negated : bool) (atoms : list ClassAtom)
| Seq (r1 r2 : regex)
| Alt (r1 r2 : regex)
| Star (greedy : bool) (r : regex)      (* r* and r*? *)
| Opt (greedy : bool) (r : regex)       (* r? and r?? *)
| Group (n : nat) (r : regex)           (* the n-th capturing group *)
| Backref (n : nat)                     (* \n *)
| AssertStart                           (* ^ without the m flag *)
| AssertEnd.                            (* $ without the m flag *)

(** [r+] and [r+?]: one mandatory iteration, then a star. *)
Definition Plus (greedy : bool) (r : regex) : regex := Seq r (Star greedy r).

Fixpoint seq (rs : list regex) : regex :=
  match rs with
  | [] => Empty
  | [r] => r
  | r :: rs' => Seq r (seq rs')
  end.

Definition atomMatches (a : ClassAtom) (c : ascii) : bool :=
  match a with
  | CChar c' => Ascii.eqb c c'
  | CRange lo hi => char_le lo c && char_le c hi
  | CSpace => isWhiteSpace c
  | CNotSpace => negb (isWhiteSpace c)
  end.

Definition classMatches (negated : bool) (atoms : list ClassAtom) (c : ascii)
  : bool :=
  xorb negated (existsb (fun a => atomMatches a c) atoms).

(** Captures: the substring last matched by each group that took part. *)
Definition captures := list (nat * jsstring).

Fixpoint capture (n : nat) (caps : captures) : option jsstring :=
  match caps with
  | [] => None
  | (n', s) :: caps' => if n =? n' then Some s else capture n caps'
  end.

Fixpoint groupsOf (r : regex) : list nat :=
  match r with
  | Seq r1 r2 | Alt r1 r2 => groupsOf r1 ++ groupsOf r2
  | Star _ r1 | Opt _ r1 => groupsOf r1
  | Group n r1 => n :: groupsOf r1
  | _ => []
  end.

(** Entering an iteration of a quantifier forgets what the groups inside
    it captured in the previous iteration. *)
Definition clearCaptures (gs : list nat) (caps : captures) : captures :=
  filter (fun '(n, _) => negb (existsb (Nat.eqb n) gs)) caps.

(** A matcher works on the current position, the input from that position
    on, and the captures; its continuation decides whether the rest of
    the pattern matches, and the result is the end position of the whole
    match with the final captures. *)
Definition MatchResult := option (nat * captures).
Definition Continuation := nat -> jsstring -> captures -> MatchResult.

Definition orElse (a : MatchResult) (b : unit -> MatchResult) : MatchResult :=
  match a with
  | Some x => Some x
  | None => b tt
  end.

Definition Matcher := nat -> jsstring -> captures -> Continuation -> MatchResult.

(** The loop of [r*] over the matcher [m] of [r].  An iteration must
    consume input, so [n], the length of the input still unread when the
    loop is entered, bounds the number of iterations. *)
Fixpoint RepeatMatcher (m : Matcher) (greedy : bool) (inner : list nat)
    (n : nat) (pos : nat) (rest : jsstring) (caps : captures)
    (k : Continuation) {struct n} : MatchResult :=
  match n with
  | 0 => k pos rest caps
  | S n' =>
      let iterate := fun _ : unit =>
        m pos rest (clearCaptures inner caps)
          (fun pos' rest' caps' =>
             if pos <? pos'
             then RepeatMatcher m greedy inner n' pos' rest' caps' k
             else None) in
      if greedy
      then orElse (iterate tt) (fun _ => k pos rest caps)
      else orElse (k pos rest caps) iterate
  end.

Fixpoint matcher (r : regex) {struct r} : Matcher :=
  match r with
  | Empty => fun pos rest caps k => k pos rest caps
  | Char c => fun pos rest caps k =>
      match rest with
      | c' :: rest' => if Ascii.eqb c' c then k (S pos) rest' caps else None
      | [] => None
      end
  | Class negated atoms => fun pos rest caps k =>
      match rest with
      | c' :: rest' =>
          if classMatches negated atoms c' then k (S pos) rest' caps else None
      | [] => None
      end
  | Seq r1 r2 => fun pos rest caps k =>
      matcher r1 pos rest caps
        (fun pos' rest' caps' => matcher r2 pos' rest' caps' k)
  | Alt r1 r2 => fun pos rest caps k =>
      orElse (matcher r1 pos rest caps k)
             (fun _ => matcher r2 pos rest caps k)
  | Star greedy r1 => fun pos rest caps k =>
      RepeatMatcher (matcher r1) greedy (groupsOf r1) (length rest)
        pos rest caps k
  | Opt greedy r1 => fun pos rest caps k =>
      let once := fun _ : unit =>
        matcher r1 pos rest (clearCaptures (groupsOf r1) caps)
          (fun pos' rest' caps' =>
             if pos <? pos' then k pos' rest' caps' else None) in
      if greedy
      then orElse (once tt) (fun _ => k pos rest caps)
      else orElse (k pos rest caps) once
  | Group n r1 => fun pos rest caps k =>
      matcher r1 pos rest caps
        (fun pos' rest' caps' =>
           k pos' rest' ((n, firstn (pos' - pos) rest) :: caps'))
  | Backref n => fun pos rest caps k =>
      match capture n caps with
      | None => k pos rest caps
      | Some s =>
          if isPrefix s rest
          then k (pos + length s) (skipn (length s) rest) caps
          else None
      end
  | AssertStart => fun pos rest caps k =>
      if pos =? 0 then k pos rest caps else None
  | AssertEnd => fun pos rest caps k =>
      match rest with [] => k pos rest caps | _ => None end
  end.

(** The match object of [exec]: [index], [match[0]] and the captures;
    [endIndex] is what a global pattern stores in [lastIndex]. *)
Record Match := mkMatch {
  index : nat;
  matched : jsstring;
  groups : captures;
  endIndex : nat
}.

Definition matchAt (r : regex) (pos : nat) (rest : jsstring) : option Match :=
  match matcher r pos rest [] (fun e _ caps => Some (e, caps)) with
  | Some (e, caps) => Some (mkMatch pos (firstn (e - pos) rest) caps e)
  | None => None
  end.

(** Leftmost match at or after [pos]; [rest] is the input from [pos] on. *)
Fixpoint search (r : regex) (pos : nat) (rest : jsstring) : option Match :=
  match matchAt r pos rest with
  | Some m => Some m
  | None =>
      match rest with
      | [] => None
      | _ :: rest' => search r (S pos) rest'
      end
  end.

(** [re.exec(s)] for a pattern with the [g] flag: the search starts at
    [lastIndex]; the result comes with the new [lastIndex], which is the
    end of the match, or 0 when there is none. *)
Definition exec (r : regex) (lastIndex : nat) (s : jsstring)
  : option Match * nat :=
  if length s <? lastIndex then (None, 0)
  else match search r lastIndex (skipn lastIndex s) with
       | Some m => (Some m, endIndex m)
       | None => (None, 0)
       end.

(** [re.test(s)] / a non-null [s.match(re)] for a pattern without [g]. *)
Definition test (r : regex) (s : jsstring) : bool :=
  match search r 0 s with Some _ => true | None => false end.

(** All matches of a global pattern, scanning from 0, as
    [String.prototype.match] and [String.prototype.replace] collect them;
    after an empty match the scan advances by one.  At most
    [length s + 1] matches exist. *)
Fixpoint execAll (fuel : nat) (r : regex) (lastIndex : nat) (s : jsstring)
  : list Match :=
  match fuel with
  | 0 => []
  | S fuel' =>
      match exec r lastIndex s with
      | (Some m, e) =>
          m :: execAll fuel' r (if e =? index m then S e else e) s
      | (None, _) => []
      end
  end.

Definition allMatches (r : regex) (s : jsstring) : list Match :=
  execAll (S (length s)) r 0 s.

(** [s.match(re)] for a pattern with the [g] flag: the array of matched
    substrings, or [null] when there is none. *)
Definition matchGlobal (r : regex) (s : jsstring) : option (list jsstring) :=
  match allMatches r s with
  | [] => None
  | ms => Some (map matched ms)
  end.

(** GetSubstitution for a match without capture groups: [$$], [$&],
    [$`] and [$'] are expanded, every other character is copied. *)
Fixpoint getSubstitution (matched before after template : jsstring)
  : jsstring :=
  match template with
  | "$"%char :: "$"%char :: t =>
      "$"%char :: getSubstitution matched before after t
  | "$"%char :: "&"%char :: t =>
      matched ++ getSubstitution matched before after t
  | "$"%char :: "`"%char :: t =>
      before ++ getSubstitution matched before after t
  | "$"%char :: "'"%char :: t =>
      after ++ getSubstitution matched before after t
  | c :: t => c :: getSubstitution matched before after t
  | [] => []
  end.

(** [s.replace(re, template)] for a global pattern without groups. *)
Fixpoint replaceMatches (s : jsstring) (cursor : nat) (ms : list Match)
    (template : jsstring) : jsstring :=
  match ms with
  | [] => skipn cursor s
  | m :: ms' =>
      firstn (index m - cursor) (skipn cursor s)
      ++ getSubstitution (matched m) (firstn (index m) s)
           (skipn (endIndex m) s) template
      ++ replaceMatches s (endIndex m) ms' template
  end.

Definition replaceGlobal (r : regex) (s template : jsstring) : jsstring :=
  replaceMatches s 0 (allMatches r s) template.

(** [s.replace(pattern, template)] for a string pattern: the first
    occurrence only. *)
Definition replaceString (s pattern template : jsstring) : jsstring :=
  match findFrom pattern s 0 with
  | None => s
  | Some i =>
      firstn i s
      ++ getSubstitution pattern (firstn i s) (skipn (i + length pattern) s)
           template
      ++ skipn (i + length pattern) s
  end.

(** [s.split(re)] for a pattern that never matches the empty string. *)
Fixpoint splitLoop (fuel : nat) (r : regex) (s : jsstring) (p q : nat)
  : list jsstring :=
  match fuel with
  | 0 => [substring s p (length s)]
  | S fuel' =>
      if length s <=? q then [substring s p (length s)]
      else match matchAt r q (skipn q s) with
           | Some m =>
               if endIndex m =? p then splitLoop fuel' r s p (S q)
               else substring s p q
                    :: splitLoop fuel' r s (endIndex m) (endIndex m)
           | None => splitLoop fuel' r s p (S q)
           end
  end.

Definition split (r : regex) (s : jsstring) : list jsstring :=
  match s with
  | [] => match matchAt r 0 [] with Some _ => [] | None => [[]] end
  | _ => splitLoop (length s) r s 0 0
  end.

End RegExp.

Import RegExp.

(* ================================================================== *)
(** ** Plain objects used as maps *)
(* ================================================================== *)

Module Obj.

(** An object whose properties all hold strings, as [parseProps] builds
    it: the own properties in creation order. *)
Definition JSObject := list (jsstring * jsstring).

Fixpoint get (o : JSObject) (key : jsstring) : option jsstring :=
  match o with
  | [] => None
  | (k, v) :: o' => if string_eqb k key then Some v else get o' key
  end.

(** Writing an existing property keeps its place; a new one goes last. *)
Fixpoint setOwn (o : JSObject) (key value : jsstring) : JSObject :=
  match o with
  | [] => [(key, value)]
  | (k, v) :: o' =>
      if string_eqb k key then (k, value) :: o'
      else (k, v) :: setOwn o' key value
  end.

(** [o[key] = value].  The one key that does not create a property is
    [__proto__]: the inherited setter ignores a string. *)
Definition set (o : JSObject) (key value : jsstring) : JSObject :=
  if string_eqb key (str "__proto__") then o else setOwn o key value.

Definition isDigit (c : ascii) : bool :=
  char_le "0"%char c && char_le c "9"%char.

Fixpoint decimal (acc : N) (s : jsstring) : N :=
  match s with
  | [] => acc
  | c :: s' => decimal (10 * acc + N.of_nat (code c - code "0"%char))%N s'
  end.

(** A key is an array index when it is the canonical decimal form of an
    integer below 2^32 - 1. *)
Definition arrayIndex (key : jsstring) : option N :=
  match key with
  | [] => None
  | c :: rest =>
      if forallb isDigit key
         && (negb (Ascii.eqb c "0"%char) || (length rest =? 0))
         && (length key <=? 10)
         && (decimal 0 key <? 4294967295)%N
      then Some (decimal 0 key)
      else None
  end.

Fixpoint insertByIndex (e : N * (jsstring * jsstring))
    (l : list (N * (jsstring * jsstring))) : list (N * (jsstring * jsstring)) :=
  match l with
  | [] => [e]
  | e' :: l' =>
      if (fst e <=? fst e')%N then e :: l else e' :: insertByIndex e l'
  end.

Fixpoint indexProperties (o : JSObject) : list (N * (jsstring * jsstring)) :=
  match o with
  | [] => []
  | (k, v) :: o' =>
      match arrayIndex k with
      | Some n => insertByIndex (n, (k, v)) (indexProperties o')
      | None => indexProperties o'
      end
  end.

(** The order in which [for (key in o)] visits the own properties:
    array indices in ascending order, then the other keys in creation
    order. *)
Definition entries (o : JSObject) : list (jsstring * jsstring) :=
  map snd (indexProperties o)
  ++ filter (fun '(k, _) =>
               match arrayIndex k with Some _ => false | None => true end) o.

End Obj.

Import Obj.

(* ================================================================== *)
(** ** html-parser.js *)
(* ================================================================== *)

Definition lower : ClassAtom := CRange "a"%char "z"%char.
Definition upper : ClassAtom := CRange "A"%char "Z"%char.
Definition digit : ClassAtom := CRange "0"%char "9"%char.

(** [\s] outside a class. *)
Definition space : regex := Class false [CSpace].

(** [/\s+/], used by [split] in the constructor and by [replace] in
    [parseText]. *)
Definition whitespaceRun : regex := Plus true space.

(** The node classes.  [Node] gives every node its [childNodes];
    [TextNode] adds [text]; [HTMLElement] adds [tagName], [rawAttrs],
    [attrs], [classNames] and, when the attributes have one, [id]. *)
Inductive NodeKind :=
| TextKind (text : jsstring)
| ElementKind (tagName : option jsstring) (rawAttrs : jsstring)
    (attrs : JSObject) (id : option jsstring) (classNames : list jsstring).

(** What [new HTMLElement(tagName, keyAttrs, rawAttrs)] stores; a [null]
    tag name and a missing [rawAttrs] are [None]. *)
Definition newHTMLElement (tagName : option jsstring) (keyAttrs : JSObject)
    (rawAttrs : option jsstring) : NodeKind :=
  ElementKind tagName
    (match rawAttrs with Some r => r | None => [] end)
    keyAttrs
    (match get keyAttrs (str "id") with
     | Some (c :: v) => Some (c :: v)
     | _ => None
     end)
    (match get keyAttrs (str "class") with
     | Some (c :: v) => split whitespaceRun (c :: v)
     | _ => []
     end).

(** A node value, as [translate] walks it. *)
#[local] Unset Elimination Schemes.
Inductive Node :=
| mkNode (kind : NodeKind) (childNodes : list Node).
#[local] Set Elimination Schemes.

(** [new TextNode(value)] has no children. *)
Definition TextNode (value : jsstring) : Node := mkNode (TextKind value) [].

(** An element with the given tag, attributes and children. *)
Definition HTMLElement (tagName : jsstring) (attrs : JSObject)
    (childNodes : list Node) : Node :=
  mkNode (newHTMLElement (Some tagName) attrs None) childNodes.

(** *** The getters of the node classes *)

(** A literal run of characters in a pattern. *)
Definition literal (s : string) : regex := seq (map Char (str s)).

(** The pattern of [isWhitespace]: from the start to the end, any
    number of white space characters and of the six characters
    [&nbsp;], captured as group 1. *)
Definition whitespaceOnly : regex :=
  seq [AssertStart; Star true (Group 1 (Alt space (literal "&nbsp;")));
       AssertEnd].

(** [get isWhitespace()] of a text node with the text [text]. *)
Definition isWhitespace (text : jsstring) : bool := test whitespaceOnly text.

(** The two variables that [write] and [dfs] share in [structure]. *)
Record Outline := mkOutline {
  res : list jsstring;
  indention : nat
}.

(** [s.repeat(n)] *)
Definition repeatString (s : jsstring) (n : nat) : jsstring :=
  concat (repeat s n).

Definition write (text : jsstring) (o : Outline) : Outline :=
  mkOutline (res o ++ [repeatString (str "  ") (indention o) ++ text])
    (indention o).

(** The line of an element: [root.tagName + idStr + classStr]; a [null]
    tag name is written [null]. *)
Definition elementLine (tagName : option jsstring) (id : option jsstring)
    (classNames : list jsstring) : jsstring :=
  let idStr :=
    match id with
    | Some (c :: v) => str "#" ++ c :: v
    | _ => []
    end in
  let classStr :=
    match classNames with
    | [] => []
    | _ => str "." ++ join (str ".") classNames
    end in
  match tagName with Some t => t | None => str "null" end ++ idStr ++ classStr.

(** [dfs(root)] for an element; [indention--] undoes the [indention++]
    before the loop, so the counter is never decremented at 0.  A text
    node, on which [dfs] is not called, leaves the state as it is. *)
Fixpoint dfs (root : Node) (o : Outline) : Outline :=
  match root with
  | mkNode (ElementKind tagName _ _ id classNames) childNodes =>
      let o := write (elementLine tagName id classNames) o in
      let o := mkOutline (res o) (S (indention o)) in
      let o :=
        (fix loop (nodes : list Node) (o : Outline) : Outline :=
           match nodes with
           | [] => o
           | node :: rest =>
               loop rest
                 match node with
                 | mkNode (ElementKind _ _ _ _ _) _ => dfs node o
                 | mkNode (TextKind text) _ =>
                     if negb (isWhitespace text) then write (str "#text") o
                     else o
                 end
           end) childNodes o in
      mkOutline (res o) (Nat.pred (indention o))
  | mkNode (TextKind _) _ => o
  end.

(** What the loop of [dfs] does with one child. *)
Definition dfsChild (node : Node) (o : Outline) : Outline :=
  match node with
  | mkNode (ElementKind _ _ _ _ _) _ => dfs node o
  | mkNode (TextKind text) _ =>
      if negb (isWhitespace text) then write (str "#text") o else o
  end.

(** The lines that [structure] joins: [res] after [dfs(this)]. *)
Definition structureLines (this : Node) : list jsstring :=
  res (dfs this (mkOutline [] 0)).

(** [get structure()] of an element. *)
Definition structure (this : Node) : jsstring :=
  join [ascii_of_nat 10] (structureLines this).

(** *** The object store of [parse] *)

Definition ref := nat.

Record NodeObj := mkNodeObj {
  kind : NodeKind;
  childNodes : list ref;
  parentNode : option ref
}.

Definition Store := list NodeObj.

Fixpoint update (s : Store) (r : ref) (f : NodeObj -> NodeObj) : Store :=
  match s, r with
  | [], _ => []
  | o :: s', 0 => f o :: s'
  | o :: s', S r' => o :: update s' r' f
  end.

(** [new TextNode(..)] / [new HTMLElement(..)]: a fresh object without
    children. *)
Definition alloc (s : Store) (k : NodeKind) : Store * ref :=
  (s ++ [mkNodeObj k [] None], length s).

(** [this.appendChild(node)] *)
Definition appendChild (s : Store) (this node : ref) : Store :=
  let s1 := update s node
              (fun o => mkNodeObj (kind o) (childNodes o) (Some this)) in
  update s1 this
    (fun o => mkNodeObj (kind o) (childNodes o ++ [node]) (parentNode o)).

(** [String(o.tagName)], the way [includes] converts its argument. *)
Definition tagNameString (s : Store) (r : ref) : jsstring :=
  match nth_error s r with
  | Some (mkNodeObj (ElementKind (Some t) _ _ _ _) _ _) => t
  | Some (mkNodeObj (ElementKind None _ _ _ _) _ _) => str "null"
  | _ => str "undefined"
  end.

(** [kMarkupPattern].  The value of an attribute: a string in double
    quotes, a string in single quotes, or an expression in braces with
    braces nested inside up to two levels deep. *)
Definition attributeValue : regex :=
  Alt (seq [Char dquote; Star true (Class true [CChar dquote]); Char dquote])
 (Alt (seq [Char squote; Star true (Class true [CChar squote]); Char squote])
      (seq [Char "{"%char;
            Star true
              (Alt (Class true [CChar "{"%char; CChar "}"%char])
                   (seq [Char "{"%char;
                         Star true
                           (Alt (Class true [CChar "{"%char; CChar "}"%char])
                                (seq [Char "{"%char;
                                      Star true (Class true [CChar "{"%char;
                                                             CChar "}"%char]);
                                      Char "}"%char]));
                         Char "}"%char]));
            Char "}"%char])).

(** A tag: [<] or [</], a name of letters and digits that starts with a
    letter, any number of attributes (white space, a name, and
    optionally [=] and a value), optional white space, and [>] or
    [/>]. *)
Definition kMarkupPattern : regex :=
  seq [Char "<"%char; Opt true (Char "/"%char);
       Class false [upper; lower];
       Star true (Class false [upper; lower; digit]);
       Star true
         (Group 1
            (seq [Plus true space;
                  Plus true (Class true [CChar "="%char; CChar "<"%char;
                                         CChar ">"%char; CChar "/"%char;
                                         CSpace]);
                  Opt true (seq [Star true space; Char "="%char;
                                 Star true space; attributeValue])]));
       Star true space; Opt true (Char "/"%char); Char ">"%char].

(** *** parseProps *)

Record PropsState := mkPropsState {
  attrs : JSObject;
  currentKey : jsstring;
  currentValue : jsstring;
  inQuotes : bool;
  quoteType : jsstring;
  inBraces : bool;
  isParsingValue : bool
}.

Definition propsInit : PropsState :=
  mkPropsState [] [] [] false [] false false.

Definition nonEmpty (s : jsstring) : bool :=
  match s with [] => false | _ => true end.

(** The assignment shared by the end of a pair and the end of the
    string: trim the value, drop the first and last character of a value
    that starts with a brace, and store it under the trimmed key. *)
Definition storePair (o : JSObject) (key value : jsstring) : JSObject :=
  let value := trim value in
  let value :=
    match value with
    | "{"%char :: _ => slice value 1 (-1)
    | _ => value
    end in
  Obj.set o (trim key) (trim value).

(** One iteration of the scanning loop. *)
Definition propsStep (st : PropsState) (char : ascii) : PropsState :=
  let '(mkPropsState attrs currentKey currentValue inQuotes quoteType
          inBraces isParsingValue) := st in
  if inQuotes then
    if string_eqb [char] quoteType
    then mkPropsState attrs currentKey (currentValue ++ [char]) false
           quoteType inBraces isParsingValue
    else mkPropsState attrs currentKey (currentValue ++ [char]) inQuotes
           quoteType inBraces isParsingValue
  else if inBraces then
    if Ascii.eqb char "}"%char
    then mkPropsState attrs currentKey (currentValue ++ [char]) inQuotes
           quoteType false isParsingValue
    else mkPropsState attrs currentKey (currentValue ++ [char]) inQuotes
           quoteType inBraces isParsingValue
  else if Ascii.eqb char "="%char then
    mkPropsState attrs currentKey currentValue inQuotes quoteType inBraces true
  else if Ascii.eqb char dquote || Ascii.eqb char squote then
    mkPropsState attrs currentKey (currentValue ++ [char]) true [char]
      inBraces isParsingValue
  else if Ascii.eqb char "{"%char then
    mkPropsState attrs currentKey (currentValue ++ [char]) inQuotes quoteType
      true isParsingValue
  else if Ascii.eqb char " "%char && isParsingValue
          && nonEmpty (trim currentValue) then
    mkPropsState (storePair attrs currentKey currentValue) [] [] inQuotes
      quoteType inBraces false
  else if isParsingValue then
    mkPropsState attrs currentKey (currentValue ++ [char]) inQuotes quoteType
      inBraces isParsingValue
  else
    mkPropsState attrs (currentKey ++ [char]) currentValue inQuotes quoteType
      inBraces isParsingValue.

Definition propsScan (propsString : jsstring) (st : PropsState) : PropsState :=
  fold_left propsStep propsString st.

(** The last pair is stored when both its key and its value are
    non-empty after trimming. *)
Definition propsFinish (st : PropsState) : JSObject :=
  if nonEmpty (trim (currentKey st)) && nonEmpty (trim (currentValue st))
  then storePair (attrs st) (currentKey st) (currentValue st)
  else attrs st.

Definition parseProps (propsString : jsstring) : JSObject :=
  propsFinish (propsScan propsString propsInit).

(** *** handleJSXTag *)

Record JSXInfo := mkJSXInfo {
  tagName : jsstring;
  props : jsstring;
  isSelfClosed : bool;
  closed : bool
}.

Definition handleJSXTag (input : jsstring) : JSXInfo :=
  let trimmed := trim input in
  if startsWith trimmed (str "</") then
    let endTag := trim (slice trimmed 2 (indexOf trimmed (str ">"))) in
    mkJSXInfo endTag [] false true
  else
    let isSelfClosed := endsWith trimmed (str "/>") in
    let innerContent :=
      trim (slice trimmed 1 (if isSelfClosed then (-2) else (-1))) in
    let spaceIndex := indexOf innerContent (str " ") in
    if (spaceIndex =? -1)%Z then
      mkJSXInfo innerContent [] isSelfClosed false
    else
      mkJSXInfo (slice innerContent 0 spaceIndex)
        (trim (sliceFrom innerContent (spaceIndex + 1)))
        isSelfClosed false.

(** *** parse *)

(** The local variables of [parse], the objects they refer to, and the
    [lastIndex] of [kMarkupPattern]. *)
Record ParseState := mkParseState {
  store : Store;
  currentParent : option ref;     (* [None] is [undefined] *)
  stack : list ref;
  lastTextPos : Z;
  lastIndex : nat
}.

(** [stack.back]: an array has no property of that name, so the
    expression is [undefined] whatever the stack holds. *)
Definition back (stack : list ref) : option ref := None.

(** The element on top of the open-tag stack. *)
Definition top (stack : list ref) : option ref := last (map Some stack) None.

Definition unbalanced : JSError :=
  Error (str "Input string label can't be closed").

(** The text between the previous tag and this one, if any, becomes a
    child of the current parent. *)
Definition parseTextBefore (data : jsstring) (m : Match) (st : ParseState)
  : completion ParseState :=
  if (-1 <? lastTextPos st)%Z
     && (lastTextPos st + Z.of_nat (length (matched m))
         <? Z.of_nat (lastIndex st))%Z
  then
    let text := substring data (Z.to_nat (lastTextPos st))
                  (lastIndex st - length (matched m)) in
    match currentParent st with
    | None => Throw TypeError
    | Some parent =>
        let '(s, node) := alloc (store st) (TextKind text) in
        Normal (mkParseState (appendChild s parent node) (currentParent st)
                  (stack st) (lastTextPos st) (lastIndex st))
    end
  else Normal st.

(** The body of the loop for one match; [lastIndex st] is already the
    end of the match. *)
Definition parseToken (data : jsstring) (m : Match) (st : ParseState)
  : completion ParseState :=
  let totalExp := matched m in
  let jsxInfo := handleJSXTag totalExp in
  st <- parseTextBefore data m st ;;
  let lastTextPos := Z.of_nat (lastIndex st) in
  if closed jsxInfo then
    match currentParent st with
    | None => Throw TypeError
    | Some parent =>
        if includes (matched m) (tagNameString (store st) parent) then
          let stack := removelast (stack st) in
          Normal (mkParseState (store st) (back stack) stack lastTextPos
                    (lastIndex st))
        else Throw unbalanced
    end
  else
    let attrs := parseProps (props jsxInfo) in
    let '(s, thisHTMLElement) :=
      alloc (store st)
        (newHTMLElement (Some (tagName jsxInfo)) attrs
           (Some (props jsxInfo))) in
    match currentParent st with
    | None => Throw TypeError
    | Some parent =>
        let s := appendChild s parent thisHTMLElement in
        if negb (isSelfClosed jsxInfo) then
          Normal (mkParseState s (Some thisHTMLElement)
                    (stack st ++ [thisHTMLElement]) lastTextPos (lastIndex st))
        else
          Normal (mkParseState s (currentParent st) (stack st) lastTextPos
                    (lastIndex st))
    end.

Definition withLastIndex (st : ParseState) (i : nat) : ParseState :=
  mkParseState (store st) (currentParent st) (stack st) (lastTextPos st) i.

(** The [for] loop.  The result is the state at the end, or the error
    thrown, together with the [lastIndex] that [kMarkupPattern] keeps:
    0 after the last [exec] found nothing, the end of the offending match
    after an error.  [None] only when the iteration bound is used up. *)
Fixpoint parseLoop (fuel : nat) (data : jsstring) (st : ParseState)
  : option (completion ParseState * nat) :=
  match fuel with
  | 0 => None
  | S fuel' =>
      match exec kMarkupPattern (lastIndex st) data with
      | (None, i) => Some (Normal (withLastIndex st i), i)
      | (Some m, i) =>
          match parseToken data m (withLastIndex st i) with
          | Normal st' => parseLoop fuel' data st'
          | Throw e => Some (Throw e, i)
          end
      end
  end.

(** The state [parse] starts from: the root element, which is also the
    current parent and the only entry of the stack. *)
Definition parseInit (lastIndex : nat) : ParseState :=
  let '(s, root) := alloc [] (newHTMLElement None [] None) in
  mkParseState s (Some root) [root] (-1) lastIndex.

(** The run of the loop on [data], started with [kMarkupPattern.lastIndex]
    as the previous call left it.  Every match is at least one character
    long, so [length data + 1] iterations are enough. *)
Definition parseRun (lastIndex : nat) (data : jsstring)
  : option (completion ParseState * nat) :=
  parseLoop (S (length data)) data (parseInit lastIndex).

(** [parse(data)]: the store and the root in it. *)
Definition parse (lastIndex : nat) (data : jsstring)
  : option (completion (Store * ref) * nat) :=
  match parseRun lastIndex data with
  | Some (Normal st, i) => Some (Normal (store st, 0), i)
  | Some (Throw e, i) => Some (Throw e, i)
  | None => None
  end.

(** The node value that a reference stands for: the object with its
    children read out of the store.  Children are allocated after their
    parent, so a depth of [length s] reaches every node. *)
Fixpoint traverse {A B : Type} (f : A -> option B) (l : list A)
  : option (list B) :=
  match l with
  | [] => Some []
  | a :: l' =>
      match f a, traverse f l' with
      | Some b, Some bs => Some (b :: bs)
      | _, _ => None
      end
  end.

Fixpoint nodeAt (depth : nat) (s : Store) (r : ref) : option Node :=
  match depth with
  | 0 => None
  | S depth' =>
      match nth_error s r with
      | None => None
      | Some o =>
          match traverse (nodeAt depth' s) (childNodes o) with
          | Some children => Some (mkNode (kind o) children)
          | None => None
          end
      end
  end.

(* ================================================================== *)
(** ** The transform module *)
(* ================================================================== *)

(** The two capturing groups of [JSX_STRING]: a letter, then anything
    but white space, [/] and [>]. *)
Definition tagNamePattern : regex :=
  seq [Class false [lower; upper];
       Star true (Class true [CSpace; CChar "/"%char; CChar ">"%char])].

(** The optional non-capturing group that follows: a white space
    character and as few characters other than [>] as possible. *)
Definition attributesPattern : regex :=
  Opt true (seq [space; Star false (Class true [CChar ">"%char])]).

(** [JSX_STRING]: an opening tag, as few characters as possible, and
    the closing tag of the same name; or a self-closing tag. *)
Definition JSX_STRING : regex :=
  Alt (seq [Char "<"%char; Group 1 tagNamePattern; attributesPattern;
            Char ">"%char; Star false (Class false [CSpace; CNotSpace]);
            Char "<"%char; Char "/"%char; Backref 1; Char ">"%char])
      (seq [Char "<"%char; Group 2 tagNamePattern; attributesPattern;
            Char "/"%char; Char ">"%char]).

(** [JSX_INTERPOLATION]: one or more letters and digits between
    braces, captured as group 1. *)
Definition JSX_INTERPOLATION : regex :=
  seq [Char "{"%char; Group 1 (Plus true (Class false [lower; upper; digit]));
       Char "}"%char].

(** The pattern of the shortcut in [parseText]: the whole text is an
    opening brace, one or more characters other than a closing brace,
    and a closing brace. *)
Definition singleInterpolation : regex :=
  seq [AssertStart; Char "{"%char; Plus true (Class true [CChar "}"%char]);
       Char "}"%char; AssertEnd].

(** *** stringify *)

Definition stringify (props : JSObject) : jsstring :=
  let result := map (fun '(key, element) => key ++ str ":" ++ element)
                    (entries props) in
  str "{" ++ join (str ",") result ++ str "}".

(** *** parseText *)

Definition quoted (text : jsstring) : jsstring :=
  [backtick] ++ text ++ [backtick].

(** The body of the [while] loop, for one match of [JSX_INTERPOLATION]:
    the state is [parts] and the local [lastIndex]. *)
Definition interpolationStep (rawText : jsstring)
    (st : list jsstring * nat) (interpolation : Match)
  : list jsstring * nat :=
  let '(parts, lastIndex) := st in
  let match_ := matched interpolation in
  let variable :=
    match capture 1 (groups interpolation) with Some v => v | None => [] end in
  let position := index interpolation in
  let beforeText :=
    trim (slice rawText (Z.of_nat lastIndex) (Z.of_nat position)) in
  let parts := if nonEmpty beforeText then parts ++ [quoted beforeText]
               else parts in
  let parts := parts ++ [variable] in
  (parts, position + length match_).

(** [parseText(rawText)].  [match] restarts [JSX_INTERPOLATION] at 0, and
    the loop runs [exec] until it finds nothing, which leaves [lastIndex]
    at 0 again: the loop visits the matches of [allMatches] in order, and
    the pattern object carries nothing from one call to the next. *)
Definition parseText (rawText : jsstring) : jsstring :=
  let rawText := trim (replaceGlobal whitespaceRun rawText (str " ")) in
  match matchGlobal JSX_INTERPOLATION rawText with
  | Some _ =>
      if test singleInterpolation rawText then slice rawText 1 (-1)
      else
        let '(parts, lastIndex) :=
          fold_left (interpolationStep rawText)
            (allMatches JSX_INTERPOLATION rawText) ([], 0) in
        let remainingText := trim (sliceFrom rawText (Z.of_nat lastIndex)) in
        let parts := if nonEmpty remainingText
                     then parts ++ [quoted remainingText] else parts in
        join (str ",") parts
  | None => quoted rawText
  end.

(** *** translate *)

(** ["a" <= str[0] && str[0] <= "z"]; a comparison with [undefined] is
    false. *)
Definition isLowerCase (s : jsstring) : bool :=
  match s with
  | c :: _ => char_le "a"%char c && char_le c "z"%char
  | [] => false
  end.

(** [.filter((node) => node != null)] *)
Fixpoint nonNull (results : list (option jsstring)) : list jsstring :=
  match results with
  | [] => []
  | Some s :: rest => s :: nonNull rest
  | None :: rest => nonNull rest
  end.

(** The call expression for an element.  An array in a template literal
    is converted with [join(",")]. *)
Definition createElement (tagName : jsstring) (tmp : jsstring)
    (children : list jsstring) : jsstring :=
  str "MiniReact.createElement("
  ++ (if isLowerCase tagName then [dquote] ++ tagName ++ [dquote] else tagName)
  ++ str "," ++ tmp ++ str "," ++ join (str ",") children ++ str ")".

(** [translate(root)] for a node; the result is a string or [null]. *)
Fixpoint translate (root : Node) : completion (option jsstring) :=
  match root with
  | mkNode kind childNodes =>
      children <-
        (fix translateAll (nodes : list Node)
           : completion (list (option jsstring)) :=
           match nodes with
           | [] => Normal []
           | node :: rest =>
               t <- translate node ;;
               ts <- translateAll rest ;;
               Normal (t :: ts)
           end) childNodes ;;
      let children := nonNull children in
      match kind with
      | TextKind text =>
          if nonEmpty (trim text) then Normal (Some (parseText text))
          else Normal None
      | ElementKind tagName _ props _ _ =>
          let tmp := stringify props in
          match tagName with
          | None => Throw TypeError
          | Some tagName => Normal (Some (createElement tagName tmp children))
          end
      end
  end.

(** [root.childNodes.map((node) => translate(node))] *)
Fixpoint translateAll (nodes : list Node)
  : completion (list (option jsstring)) :=
  match nodes with
  | [] => Normal []
  | node :: rest =>
      t <- translate node ;;
      ts <- translateAll rest ;;
      Normal (t :: ts)
  end.

(** *** parseJSX *)

(** The [lastIndex] of the two pattern objects that outlive a call. *)
Record Patterns := mkPatterns {
  JSX_STRING_lastIndex : nat;
  kMarkupPattern_lastIndex : nat
}.

(** A freshly loaded module. *)
Definition loaded : Patterns := mkPatterns 0 0.

(** [String(translated)] *)
Definition toString (v : option jsstring) : jsstring :=
  match v with Some s => s | None => str "null" end.

(** The body of the [while] loop for one match of [JSX_STRING]. *)
Definition parseJSXStep (str_ : jsstring) (m : Match) (kLastIndex : nat)
  : option (completion jsstring * nat) :=
  let HTML := matched m in
  match parse kLastIndex HTML with
  | None => None
  | Some (Throw e, k) => Some (Throw e, k)
  | Some (Normal (s, root), k) =>
      match nth_error s root with
      | None => None
      | Some rootObj =>
          match childNodes rootObj with
          | [] => Some (Throw TypeError, k)     (* translate(undefined) *)
          | child :: _ =>
              match nodeAt (length s) s child with
              | None => None
              | Some node =>
                  match translate node with
                  | Throw e => Some (Throw e, k)
                  | Normal translated =>
                      Some (Normal (replaceString str_ HTML
                                      (toString translated)), k)
                  end
              end
          end
      end
  end.

(** [parseJSX(str)], run on the pattern objects as the previous calls
    left them; the result comes with the pattern objects as this call
    leaves them.  [None] when [fuel] iterations of the loop are not
    enough. *)
Fixpoint parseJSX (fuel : nat) (p : Patterns) (str_ : jsstring)
  : option (completion jsstring * Patterns) :=
  match fuel with
  | 0 => None
  | S fuel' =>
      match exec JSX_STRING (JSX_STRING_lastIndex p) str_ with
      | (None, i) => Some (Normal str_, mkPatterns i (kMarkupPattern_lastIndex p))
      | (Some m, i) =>
          match parseJSXStep str_ m (kMarkupPattern_lastIndex p) with
          | None => None
          | Some (Throw e, k) => Some (Throw e, mkPatterns i k)
          | Some (Normal str', k) => parseJSX fuel' (mkPatterns i k) str'
          end
      end
  end.

(* ================================================================== *)
(** ** Vocabulary of the statements *)
(* ================================================================== *)

(** *** Matching *)

(** The continuation [k] accepts with result [res] at some state that
    lies at or after [pos] in the same input. *)
Definition reaches (k : Continuation) (pos : nat) (rest : jsstring)
    (res : nat * captures) : Prop :=
  exists pos' rest' caps',
    k pos' rest' caps' = Some res
    /\ pos <= pos' /\ pos' + length rest' = pos + length rest.

Definition advancing (m : Matcher) : Prop :=
  forall pos rest caps k res,
    m pos rest caps k = Some res -> reaches k pos rest res.

(** What a greedy star over a character class does on a run of matching
    characters: it tries the continuation after the whole run first,
    then after one character less, down to the start of the run. *)
Fixpoint backtrack (k : Continuation) (caps : captures) (pos : nat)
    (run rest : jsstring) : MatchResult :=
  match run with
  | [] => k pos rest caps
  | c :: run' =>
      orElse (backtrack k caps (S pos) run' rest)
             (fun _ => k pos (c :: run' ++ rest) caps)
  end.

(** The first character of [rest], if any, is outside the class. *)
Definition stopsAt (negated : bool) (atoms : list ClassAtom)
    (rest : jsstring) : Prop :=
  match rest with
  | [] => True
  | c :: _ => classMatches negated atoms c = false
  end.

(** The children of every object of the store were allocated after it
    and are in the store. *)
Definition wfStore (s : Store) : Prop :=
  forall r o, nth_error s r = Some o ->
              Forall (fun c => r < c /\ c < length s) (childNodes o).

(** What [parse] keeps true of its state: the store is well-formed and
    holds the root, and the current parent, when there is one, is in the
    store. *)
Definition wfParseState (st : ParseState) : Prop :=
  wfStore (store st)
  /\ 0 < length (store st)
  /\ match currentParent st with
     | Some p => p < length (store st)
     | None => True
     end.

(** *** Attribute lists *)



























(** *** Text with interpolation markers *)

(** The class of [JSX_INTERPOLATION]: [a-zA-Z0-9]. *)
Definition alnum (c : ascii) : bool := classMatches false [lower; upper; digit] c.

(** [{identifier}] *)
Definition marker (identifier : jsstring) : jsstring :=
  "{"%char :: identifier ++ ["}"%char].

Definition wfIdentifier (identifier : jsstring) : bool :=
  nonEmpty identifier && forallb alnum identifier.

(** Literal text between markers: any text without an opening brace. *)
Definition braceFree (literal : jsstring) : bool :=
  forallb (fun c => negb (Ascii.eqb c "{"%char)) literal.

(** A text after its first literal: markers, each followed by a
    literal. *)
Fixpoint renderSegments (segments : list (jsstring * jsstring)) : jsstring :=
  match segments with
  | [] => []
  | (identifier, literal) :: rest =>
      marker identifier ++ literal ++ renderSegments rest
  end.

Definition wfSegment (s : jsstring * jsstring) : bool :=
  wfIdentifier (fst s) && braceFree (snd s).

(** The rest of a marker after its first letter or digit: letters and
    digits up to a closing brace. *)
Fixpoint closesMarker (s : jsstring) : bool :=
  match s with
  | [] => false
  | c :: s' => if alnum c then closesMarker s' else Ascii.eqb c "}"%char
  end.

(** The text starts with a marker. *)
Definition markerAt (s : jsstring) : bool :=
  match s with
  | c :: d :: s' => Ascii.eqb c "{"%char && alnum d && closesMarker s'
  | _ => false
  end.

(** Literal text between markers: any text in which no marker starts.
    It may hold braces. *)
Fixpoint markerFree (literal : jsstring) : bool :=
  match literal with
  | [] => true
  | _ :: literal' => negb (markerAt literal) && markerFree literal'
  end.

Definition wfFragment (s : jsstring * jsstring) : bool :=
  wfIdentifier (fst s) && markerFree (snd s).



(** The fragment of a literal: the trimmed text between backticks, or
    nothing when only white space is left. *)
Definition literalPart (literal : jsstring) : list jsstring :=
  if nonEmpty (trim literal) then [quoted (trim literal)] else [].

Fixpoint segmentParts (segments : list (jsstring * jsstring))
  : list jsstring :=
  match segments with
  | [] => []
  | (identifier, literal) :: rest =>
      identifier :: literalPart literal ++ segmentParts rest
  end.

(** The matches of [JSX_INTERPOLATION] in a text, the first marker at
    [offset]. *)
Fixpoint markerMatches (offset : nat) (segments : list (jsstring * jsstring))
  : list Match :=
  match segments with
  | [] => []
  | (identifier, literal) :: rest =>
      mkMatch offset (marker identifier) [(1, identifier)]
        (offset + length identifier + 2)
      :: markerMatches (offset + length identifier + 2 + length literal) rest
  end.

(** The end of [parseText]: the text after the last match. *)
Definition finishParts (rawText : jsstring) (st : list jsstring * nat)
  : list jsstring :=
  let '(parts, lastIndex) := st in
  let remainingText := trim (sliceFrom rawText (Z.of_nat lastIndex)) in
  if nonEmpty remainingText then parts ++ [quoted remainingText] else parts.

(** *** The tree that [parse] builds *)

(** Every node that an object lists as a child names that object as its
    parent. *)
Definition parentAgree (s : Store) : Prop :=
  forall p o c, nth_error s p = Some o -> In c (childNodes o) ->
    exists oc, nth_error s c = Some oc /\ parentNode oc = Some p.

(** The root has no parent. *)
Definition rootFree (s : Store) : Prop :=
  forall o, nth_error s 0 = Some o -> parentNode o = None.

(** Every object other than the root is a text node or an element with
    a tag name. *)
Definition namedStore (s : Store) : Prop :=
  forall r o, nth_error s r = Some o -> r <> 0 ->
    match kind o with
    | ElementKind None _ _ _ _ => False
    | _ => True
    end.

(** [s'] holds the objects of [s] unchanged, except that the object at
    [parent] may have more children at the end of its list. *)
Definition grows (parent : option ref) (s s' : Store) : Prop :=
  forall r o, nth_error s r = Some o ->
    exists o', nth_error s' r = Some o'
      /\ kind o' = kind o /\ parentNode o' = parentNode o
      /\ exists added, childNodes o' = childNodes o ++ added
                       /\ (parent <> Some r -> added = []).

(** The text holds no [c]. *)
Definition lacks (c : ascii) (s : jsstring) : bool :=
  forallb (fun c' => negb (Ascii.eqb c' c)) s.

(** A character that the scanner of [parseProps] adds to a key. *)
Definition keyChar (c : ascii) : bool :=
  negb (Ascii.eqb c "="%char) && negb (Ascii.eqb c dquote)
  && negb (Ascii.eqb c squote) && negb (Ascii.eqb c "{"%char).

(** A string that [trim] leaves as it is. *)
Definition trimmed (s : jsstring) : Prop := trim s = s.

(** What [parse] keeps true of its store, beyond [wfParseState]. *)
Definition treeState (st : ParseState) : Prop :=
  wfParseState st /\ parentAgree (store st) /\ rootFree (store st)
  /\ namedStore (store st).

(** Every object other than the root names a parent, and that parent
    lists it among its children. *)
Definition attached (s : Store) : Prop :=
  forall c oc, nth_error s c = Some oc -> c <> 0 ->
    exists p op, parentNode oc = Some p /\ nth_error s p = Some op
                 /\ In c (childNodes op).

(** No object lists a child twice. *)
Definition listedOnce (s : Store) : Prop :=
  forall r o, nth_error s r = Some o -> NoDup (childNodes o).

(** The object reached from [r] by following [parentNode] until an object
    without parent, in at most [steps] steps. *)
Fixpoint rootOf (s : Store) (steps : nat) (r : ref) : option ref :=
  match steps with
  | 0 => None
  | S steps' =>
      match nth_error s r with
      | None => None
      | Some o =>
          match parentNode o with
          | None => Some r
          | Some p => rootOf s steps' p
          end
      end
  end.

(** The state of [parse] holds a tree in which every object hangs. *)
Definition linkedState (st : ParseState) : Prop :=
  treeState st /\ attached (store st) /\ listedOnce (store st).

(** What the scanner keeps true of the object it builds and of the key
    it is reading. *)
Definition okPair (kv : jsstring * jsstring) : Prop :=
  trimmed (fst kv) /\ trimmed (snd kv) /\ forallb keyChar (fst kv) = true.

Definition propsInv (st : PropsState) : Prop :=
  NoDup (map fst (attrs st)) /\ Forall okPair (attrs st)
  /\ forallb keyChar (currentKey st) = true.

(** The end of an opening tag. *)
Definition tagEnd (isSelfClosed : bool) : jsstring :=
  if isSelfClosed then str "/>" else str ">".

(** A tag name that [handleJSXTag] reads back: no white space in it,
    and no slash in front. *)
Definition wfTagName (n : jsstring) : bool :=
  match n with
  | [] => false
  | c :: _ => negb (Ascii.eqb c "/"%char)
  end && forallb (fun c => negb (isWhiteSpace c)) n.

(** A text made of white space characters and of the six characters
    [&nbsp;] only. *)
Fixpoint blank (s : jsstring) : bool :=
  match s with
  | [] => true
  | c :: s' =>
      if isWhiteSpace c then blank s'
      else
        match s' with
        | _ :: _ :: _ :: _ :: _ :: s'' =>
            isPrefix (str "&nbsp;") s && blank s''
        | _ => false
        end
  end.

(** The lines that one child adds to the outline of its parent. *)
Definition childLines (node : Node) : list jsstring :=
  match node with
  | mkNode (ElementKind _ _ _ _ _) _ => structureLines node
  | mkNode (TextKind text) _ =>
      if negb (isWhitespace text) then [str "#text"] else []
  end.

(** [dfs] and the step of its loop only add lines, put [indention] back,
    and at indentation [n] write the lines of indentation 0 behind [n]
    more units of two spaces. *)
Definition shifts (f : Outline -> Outline) : Prop :=
  forall o,
    f o = mkOutline
            (res o ++ map (app (repeatString (str "  ") (indention o)))
                        (res (f (mkOutline [] 0))))
            (indention o).

(** Every run of white space characters replaced by one space;
    [inRun] says that the character before was white space. *)
Fixpoint collapse (inRun : bool) (s : jsstring) : jsstring :=
  match s with
  | [] => []
  | c :: s' =>
      if isWhiteSpace c
      then if inRun then collapse true s' else " "%char :: collapse true s'
      else c :: collapse false s'
  end.

(** A text without white space. *)
Definition solid (s : jsstring) : bool :=
  forallb (fun c => negb (isWhiteSpace c)) s.

(** The continuation [k] accepts with result [res] after [n] more
    characters of [rest]. *)
Definition arrives (k : Continuation) (pos : nat) (rest : jsstring)
    (res : nat * captures) : Prop :=
  exists n caps',
    n <= length rest /\ k (pos + n) (skipn n rest) caps' = Some res.

Definition consuming (m : Matcher) : Prop :=
  forall pos rest caps k res,
    m pos rest caps k = Some res -> arrives k pos rest res.

(** A class name: not empty, and without white space. *)
Definition wfClassName (n : jsstring) : bool := nonEmpty n && solid n.

(** The name of an element that both [JSX_STRING] and [kMarkupPattern]
    read in full: a letter, then letters and digits. *)
Definition wfElementName (n : jsstring) : bool :=
  match n with
  | [] => false
  | c :: n' => classMatches false [upper; lower] c && forallb alnum n'
  end.

(** [<n/>] *)
Definition selfClosingTag (n : jsstring) : jsstring :=
  str "<" ++ n ++ str "/>".

(** [<n>text</n>] *)
Definition openTag (n : jsstring) : jsstring := str "<" ++ n ++ str ">".
Definition closeTag (n : jsstring) : jsstring := str "</" ++ n ++ str ">".
Definition textElement (n text : jsstring) : jsstring :=
  openTag n ++ text ++ closeTag n.

(* ================================================================== *)
(** ** Strings: trimming and slicing *)
(* ================================================================== *)

Section StringFacts.

Lemma trimStart_whitespace (s : jsstring) :
  forallb isWhiteSpace s = true -> trimStart s = [].
Proof.
  induction s as [|c s IH]; simpl; [reflexivity|].
  intros H. apply andb_prop in H as [Hc Hs]. rewrite Hc. auto.
Qed.

Lemma trimStart_nil_inv (s : jsstring) :
  trimStart s = [] -> forallb isWhiteSpace s = true.
Proof.
  induction s as [|c s IH]; simpl; [reflexivity|].
  destruct (isWhiteSpace c); [auto | discriminate].
Qed.

Lemma trimStart_head (c : ascii) (s : jsstring) :
  isWhiteSpace c = false -> trimStart (c :: s) = c :: s.
Proof. intros H. simpl. now rewrite H. Qed.

Lemma forallb_rev {A} (f : A -> bool) (l : list A) :
  forallb f (rev l) = forallb f l.
Proof.
  induction l as [|a l IH]; simpl; [reflexivity|].
  rewrite forallb_app, IH. simpl. rewrite andb_true_r. apply andb_comm.
Qed.

Lemma trim_whitespace (s : jsstring) :
  forallb isWhiteSpace s = true -> trim s = [].
Proof.
  intros H. unfold trim, trimEnd.
  rewrite (trimStart_whitespace s H). reflexivity.
Qed.

Lemma trim_nil_inv (s : jsstring) :
  trim s = [] -> forallb isWhiteSpace s = true.
Proof.
  unfold trim, trimEnd. intros H.
  assert (H1 : trimStart (rev (trimStart s)) = []).
  { destruct (trimStart (rev (trimStart s))) as [|a l]; [reflexivity|].
    apply (f_equal (@length ascii)) in H.
    rewrite length_rev in H. discriminate. }
  apply trimStart_nil_inv in H1. rewrite forallb_rev in H1.
  assert (H2 : trimStart s = []).
  { clear H. induction s as [|c s IH]; simpl in *; [reflexivity|].
    destruct (isWhiteSpace c) eqn:E; [auto|].
    simpl in H1. rewrite E in H1. discriminate. }
  now apply trimStart_nil_inv.
Qed.

(** A string that neither starts nor ends with white space is its own
    trimmed form. *)
Lemma trim_fixed (c d : ascii) (s : jsstring) :
  isWhiteSpace c = false -> isWhiteSpace d = false ->
  trim (c :: s ++ [d]) = c :: s ++ [d].
Proof.
  intros Hc Hd. unfold trim, trimEnd.
  rewrite (trimStart_head c _ Hc).
  assert (E : rev (c :: s ++ [d]) = d :: rev (c :: s)).
  { change (c :: s ++ [d]) with ((c :: s) ++ [d]).
    rewrite rev_app_distr. reflexivity. }
  rewrite E, (trimStart_head d _ Hd), <- E. apply rev_involutive.
Qed.

Lemma trim_single (c : ascii) :
  isWhiteSpace c = false -> trim [c] = [c].
Proof. intros H. unfold trim, trimEnd. simpl. rewrite H. simpl. now rewrite H. Qed.

(** The same, for a string given by its first and last characters. *)
Lemma trim_ends (s : jsstring) :
  match s with [] => False | c :: _ => isWhiteSpace c = false end ->
  isWhiteSpace (last s " "%char) = false ->
  trim s = s.
Proof.
  destruct s as [|c s]; [intros []|]. intros Hc Hl.
  destruct (exists_last (l := c :: s) ltac:(discriminate)) as [s' [d E]].
  destruct s' as [|c' s'].
  - simpl in E. injection E as -> ->. now apply trim_single.
  - simpl in E. injection E as <- ->.
    rewrite app_comm_cons, last_last in Hl. now apply trim_fixed.
Qed.

Lemma relIndex_nat (len i : nat) : i <= len -> relIndex len (Z.of_nat i) = i.
Proof.
  intros H. unfold relIndex.
  destruct (Z.ltb_spec (Z.of_nat i) 0); [lia|].
  rewrite Nat2Z.id. lia.
Qed.

Lemma relIndex_last (len : nat) : relIndex len (-1) = len - 1.
Proof. unfold relIndex. simpl. lia. Qed.

(** [slice] between two positions of a concatenation. *)
Lemma slice_middle (p m t : jsstring) :
  slice (p ++ m ++ t) (Z.of_nat (length p)) (Z.of_nat (length p + length m)) = m.
Proof.
  unfold slice. rewrite !relIndex_nat by (rewrite !length_app; lia).
  rewrite skipn_app, skipn_all, Nat.sub_diag. simpl.
  replace (length p + length m - length p) with (length m + 0) by lia.
  rewrite firstn_app_2. simpl. apply app_nil_r.
Qed.

Lemma sliceFrom_suffix (p t : jsstring) :
  sliceFrom (p ++ t) (Z.of_nat (length p)) = t.
Proof.
  unfold sliceFrom. rewrite relIndex_nat by (rewrite length_app; lia).
  rewrite skipn_app, skipn_all, Nat.sub_diag. reflexivity.
Qed.

(** Dropping the first and the last character. *)
Lemma slice_inner (c d : ascii) (s : jsstring) :
  slice (c :: s ++ [d]) 1 (-1) = s.
Proof.
  unfold slice. rewrite relIndex_last.
  change 1%Z with (Z.of_nat 1).
  rewrite relIndex_nat by (simpl; lia).
  simpl. rewrite length_app. simpl.
  replace (length s + 1 - 0 - 1) with (length s + 0) by lia.
  rewrite firstn_app_2. simpl. apply app_nil_r.
Qed.

End StringFacts.

(* ================================================================== *)
(** ** The matcher: positions and iteration bounds *)
(* ================================================================== *)

Section MatcherFacts.

Lemma reaches_here k pos rest caps res :
  k pos rest caps = Some res -> reaches k pos rest res.
Proof. intros H. exists pos, rest, caps. auto. Qed.

Lemma reaches_trans k pos rest pos' rest' res :
  pos <= pos' -> pos' + length rest' = pos + length rest ->
  reaches k pos' rest' res -> reaches k pos rest res.
Proof.
  intros Hle Hlen (p & r & c & Hk & Hp & Hr).
  exists p, r, c. repeat split; [assumption | lia | lia].
Qed.

Lemma orElse_Some a b res :
  orElse a b = Some res -> a = Some res \/ (a = None /\ b tt = Some res).
Proof. destruct a; simpl; intros H; [left | right]; auto. Qed.

Lemma isPrefix_length (p s : jsstring) :
  isPrefix p s = true -> length p <= length s.
Proof.
  revert s. induction p as [|a p IH]; intros [|b s]; simpl; try lia.
  intros H. apply andb_prop in H as [_ H]. apply IH in H. lia.
Qed.

Lemma RepeatMatcher_advancing m greedy inner n :
  advancing m -> advancing (RepeatMatcher m greedy inner n).
Proof.
  intros Hm. induction n as [|n IH]; intros pos rest caps k res; simpl.
  - apply reaches_here.
  - assert (Hiter :
      m pos rest (clearCaptures inner caps)
        (fun pos' rest' caps' =>
           if pos <? pos' then RepeatMatcher m greedy inner n pos' rest' caps' k
           else None) = Some res -> reaches k pos rest res).
    { intros H. apply Hm in H as (p & r & c & Hk & Hp & Hr).
      destruct (pos <? p); [|discriminate].
      apply IH in Hk. eapply reaches_trans; eauto. }
    destruct greedy; intros H; apply orElse_Some in H as [H | [_ H]];
      eauto using reaches_here.
Qed.

Lemma matcher_advancing (r : regex) : advancing (matcher r).
Proof.
  induction r as [ | c | negated atoms | r1 IH1 r2 IH2 | r1 IH1 r2 IH2
                 | greedy r1 IH1 | greedy r1 IH1 | n r1 IH1 | n | | ];
    intros pos rest caps k res; simpl.
  - apply reaches_here.
  - destruct rest as [|c' rest']; [discriminate|].
    destruct (Ascii.eqb c' c); [|discriminate].
    intros H. exists (S pos), rest', caps. simpl. repeat split; auto; lia.
  - destruct rest as [|c' rest']; [discriminate|].
    destruct (classMatches negated atoms c'); [|discriminate].
    intros H. exists (S pos), rest', caps. simpl. repeat split; auto; lia.
  - intros H. apply IH1 in H as (p & r & c & Hk & Hp & Hr).
    apply IH2 in Hk. eapply reaches_trans; eauto.
  - intros H. apply orElse_Some in H as [H | [_ H]]; eauto.
  - apply RepeatMatcher_advancing, IH1.
  - assert (Honce :
      matcher r1 pos rest (clearCaptures (groupsOf r1) caps)
        (fun pos' rest' caps' => if pos <? pos' then k pos' rest' caps' else None)
      = Some res -> reaches k pos rest res).
    { intros H. apply IH1 in H as (p & r & c & Hk & Hp & Hr).
      destruct (pos <? p); [|discriminate]. exists p, r, c. auto. }
    destruct greedy; intros H; apply orElse_Some in H as [H | [_ H]];
      eauto using reaches_here.
  - intros H. apply IH1 in H as (p & r & c & Hk & Hp & Hr).
    exists p, r, ((n, firstn (p - pos) rest) :: c). auto.
  - destruct (capture n caps) as [s|]; [|apply reaches_here].
    destruct (isPrefix s rest) eqn:E; [|discriminate].
    intros H. apply isPrefix_length in E.
    exists (pos + length s), (skipn (length s) rest), caps.
    rewrite length_skipn. repeat split; auto; lia.
  - destruct (pos =? 0); [apply reaches_here | discriminate].
  - destruct rest; [apply reaches_here | discriminate].
Qed.

Lemma matchAt_bounds r pos rest m :
  matchAt r pos rest = Some m ->
  index m = pos /\ pos <= endIndex m /\ endIndex m <= pos + length rest.
Proof.
  unfold matchAt.
  destruct (matcher r pos rest [] _) as [[e caps]|] eqn:E; [|discriminate].
  intros H. injection H as <-. simpl.
  apply matcher_advancing in E as (p & r' & c & Hk & Hp & Hr).
  injection Hk as -> ->. repeat split; lia.
Qed.

Lemma search_bounds r pos rest m :
  search r pos rest = Some m ->
  pos <= index m /\ index m <= endIndex m /\ endIndex m <= pos + length rest.
Proof.
  revert pos. induction rest as [|c rest IH]; intros pos; simpl.
  - destruct (matchAt r pos []) eqn:E; [|discriminate].
    intros H. injection H as ->. apply matchAt_bounds in E. simpl in E. lia.
  - destruct (matchAt r pos (c :: rest)) eqn:E.
    + intros H. injection H as ->. apply matchAt_bounds in E. simpl in E. lia.
    + intros H. apply IH in H. lia.
Qed.

Lemma exec_bounds r lastIndex s m e :
  exec r lastIndex s = (Some m, e) ->
  e = endIndex m /\ lastIndex <= index m /\ index m <= e /\ e <= length s.
Proof.
  unfold exec. destruct (Nat.ltb_spec (length s) lastIndex) as [|Hle]; [discriminate|].
  destruct (search r lastIndex (skipn lastIndex s)) eqn:E; [|discriminate].
  intros H. injection H as -> <-. apply search_bounds in E.
  rewrite length_skipn in E. lia.
Qed.

Lemma exec_none r lastIndex s e : exec r lastIndex s = (None, e) -> e = 0.
Proof.
  unfold exec. destruct (length s <? lastIndex); [congruence|].
  destruct (search r lastIndex (skipn lastIndex s)); congruence.
Qed.

Lemma exec_past_end r lastIndex s :
  length s < lastIndex -> exec r lastIndex s = (None, 0).
Proof.
  intros H. unfold exec. destruct (Nat.ltb_spec (length s) lastIndex); [reflexivity | lia].
Qed.

(** [execAll] does not depend on its bound once the bound covers the
    positions that are left: the list of [allMatches] is complete. *)
Lemma execAll_enough r s fuel1 : forall fuel2 lastIndex,
  length s + 1 - lastIndex <= fuel1 ->
  length s + 1 - lastIndex <= fuel2 ->
  execAll fuel1 r lastIndex s = execAll fuel2 r lastIndex s.
Proof.
  induction fuel1 as [|fuel1 IH]; intros fuel2 lastIndex H1 H2.
  - destruct fuel2 as [|fuel2]; [reflexivity|]. simpl.
    rewrite exec_past_end by lia. reflexivity.
  - destruct fuel2 as [|fuel2]; simpl.
    + rewrite exec_past_end by lia. reflexivity.
    + destruct (exec r lastIndex s) as [[m|] e] eqn:E; [|reflexivity].
      apply exec_bounds in E as (-> & Hi & Hie & He).
      f_equal. apply IH; destruct (Nat.eqb_spec (endIndex m) (index m)); lia.
Qed.

Lemma allMatches_complete r s fuel :
  length s < fuel -> execAll fuel r 0 s = allMatches r s.
Proof. intros H. apply execAll_enough; lia. Qed.

(** A pattern that starts with a literal character matches at least one
    character. *)
Lemma matchAt_nonempty c r pos rest m :
  matchAt (Seq (Char c) r) pos rest = Some m -> index m < endIndex m.
Proof.
  unfold matchAt. simpl.
  destruct rest as [|c' rest']; [discriminate|].
  destruct (Ascii.eqb c' c); [|discriminate].
  destruct (matcher r (S pos) rest' [] _) as [[e caps]|] eqn:E; [|discriminate].
  intros H. injection H as <-. simpl.
  apply matcher_advancing in E as (p & r' & c0 & Hk & Hp & Hr).
  injection Hk as -> ->. lia.
Qed.

Lemma search_nonempty c r pos rest m :
  search (Seq (Char c) r) pos rest = Some m -> index m < endIndex m.
Proof.
  revert pos. induction rest as [|c' rest IH]; intros pos; cbn [search].
  - destruct (matchAt (Seq (Char c) r) pos []) eqn:E; [|discriminate].
    intros H. injection H as ->. eapply matchAt_nonempty; eauto.
  - destruct (matchAt (Seq (Char c) r) pos (c' :: rest)) eqn:E.
    + intros H. injection H as ->. eapply matchAt_nonempty; eauto.
    + apply IH.
Qed.

End MatcherFacts.

(* ================================================================== *)
(** ** The tree builder *)
(* ================================================================== *)

Section TreeBuilder.

Lemma kMarkupPattern_head :
  exists r, kMarkupPattern = Seq (Char "<"%char) r.
Proof. eexists. reflexivity. Qed.

Lemma parseTextBefore_fields data m st st' :
  parseTextBefore data m st = Normal st' ->
  currentParent st' = currentParent st /\ stack st' = stack st
  /\ lastIndex st' = lastIndex st.
Proof.
  unfold parseTextBefore.
  destruct (_ && _); [|intros H; injection H as <-; auto].
  destruct (currentParent st); [|discriminate].
  intros H. injection H as <-. auto.
Qed.

Lemma parseToken_lastIndex data m st st' :
  parseToken data m st = Normal st' -> lastIndex st' = lastIndex st.
Proof.
  unfold parseToken.
  destruct (parseTextBefore data m st) as [st1|] eqn:E; simpl; [|discriminate].
  apply parseTextBefore_fields in E as (_ & _ & <-).
  destruct (closed _).
  - destruct (currentParent st1); [|discriminate].
    destruct (includes _ _); [|discriminate].
    intros H. now injection H as <-.
  - destruct (currentParent st1); [|discriminate].
    destruct (negb _); intros H; now injection H as <-.
Qed.

(** The loop of [parse] ends within its bound: the model of [parse]
    always gives a completion. *)
Lemma parseLoop_total data : forall fuel st,
  length data - lastIndex st < fuel ->
  exists res, parseLoop fuel data st = Some res.
Proof.
  induction fuel as [|fuel IH]; intros st Hfuel; [lia|]. cbn [parseLoop].
  destruct (exec kMarkupPattern (lastIndex st) data) as [[m|] i] eqn:E;
    [|eauto].
  destruct (parseToken data m (withLastIndex st i)) as [st'|e] eqn:T; [|eauto].
  apply parseToken_lastIndex in T. simpl in T.
  apply IH. rewrite T.
  pose proof E as B. apply exec_bounds in B as (-> & Hi & Hie & He).
  assert (index m < endIndex m).
  { unfold exec in E. destruct (length data <? lastIndex st); [discriminate|].
    destruct kMarkupPattern_head as [r Hr]. rewrite Hr in E.
    destruct (search _ _ _) eqn:S; [|discriminate].
    injection E as ->. eapply search_nonempty; eauto. }
  lia.
Qed.

Theorem parse_total (lastIndex : nat) (data : jsstring) :
  exists res, parse lastIndex data = Some res.
Proof.
  unfold parse, parseRun.
  destruct (parseLoop_total data (S (length data)) (parseInit lastIndex))
    as [[[st|e] i] ->]; [lia | eauto | eauto].
Qed.

(** When the loop ends without an error, [kMarkupPattern.lastIndex] is
    back at 0. *)
Lemma parseLoop_normal data : forall fuel st st' i,
  parseLoop fuel data st = Some (Normal st', i) -> i = 0.
Proof.
  induction fuel as [|fuel IH]; intros st st' i; cbn [parseLoop]; [discriminate|].
  destruct (exec kMarkupPattern (lastIndex st) data) as [[m|] j] eqn:E.
  - destruct (parseToken data m (withLastIndex st j)); [apply IH | discriminate].
  - intros H. injection H as _ <-. eapply exec_none; eauto.
Qed.

Lemma top_push (stack : list ref) (r : ref) : top (stack ++ [r]) = Some r.
Proof. unfold top. rewrite map_app. simpl. apply last_last. Qed.

(** An opening tag makes the new element the current parent and the top
    of the stack. *)
Lemma parseToken_open data m st st' :
  closed (handleJSXTag (matched m)) = false ->
  isSelfClosed (handleJSXTag (matched m)) = false ->
  parseToken data m st = Normal st' ->
  currentParent st' = top (stack st').
Proof.
  unfold parseToken. intros -> ->.
  destruct (parseTextBefore data m st) as [st1|]; simpl; [|discriminate].
  destruct (currentParent st1); [|discriminate].
  intros H. injection H as <-. simpl. now rewrite top_push.
Qed.

(** A self-closing tag leaves the current parent and the stack alone. *)
Lemma parseToken_selfClosed data m st st' :
  closed (handleJSXTag (matched m)) = false ->
  isSelfClosed (handleJSXTag (matched m)) = true ->
  parseToken data m st = Normal st' ->
  currentParent st' = currentParent st /\ stack st' = stack st.
Proof.
  unfold parseToken. intros -> ->.
  destruct (parseTextBefore data m st) as [st1|] eqn:E; simpl; [|discriminate].
  apply parseTextBefore_fields in E as (<- & <- & _).
  destruct (currentParent st1); [|discriminate].
  intros H. injection H as <-. auto.
Qed.

(** A closing tag that is accepted pops the stack and leaves the current
    parent [undefined]. *)
Lemma parseToken_closed data m st st' :
  closed (handleJSXTag (matched m)) = true ->
  parseToken data m st = Normal st' ->
  currentParent st' = None /\ stack st' = removelast (stack st).
Proof.
  unfold parseToken. intros ->.
  destruct (parseTextBefore data m st) as [st1|] eqn:E; simpl; [|discriminate].
  apply parseTextBefore_fields in E as (_ & <- & _).
  destruct (currentParent st1); [|discriminate].
  destruct (includes _ _); [|discriminate].
  intros H. injection H as <-. auto.
Qed.

Lemma update_kind (s : Store) (r : ref) (f : NodeObj -> NodeObj) (i : nat) :
  (forall o, kind (f o) = kind o) ->
  option_map kind (nth_error (update s r f) i) = option_map kind (nth_error s i).
Proof.
  intros Hf. revert r i.
  induction s as [|o s IH]; intros r i; [now destruct r|].
  destruct r as [|r], i as [|i]; simpl; auto. now rewrite Hf.
Qed.

Lemma tagNameString_kind (s s' : Store) (r : ref) :
  option_map kind (nth_error s' r) = option_map kind (nth_error s r) ->
  tagNameString s' r = tagNameString s r.
Proof.
  unfold tagNameString.
  destruct (nth_error s' r) as [[k' c' p']|], (nth_error s r) as [[k c p]|];
    simpl; intros H; try discriminate; [|reflexivity].
  now injection H as ->.
Qed.

(** Appending a text node does not change the tag name that a reference
    shows. *)
Lemma tagNameString_appendText (s : Store) (text : jsstring) (this r : ref) :
  tagNameString
    (appendChild (fst (alloc s (TextKind text))) this
       (snd (alloc s (TextKind text)))) r
  = tagNameString s r.
Proof.
  unfold appendChild, alloc. simpl fst. simpl snd.
  match goal with |- tagNameString ?S r = _ => set (s' := S) end.
  assert (E : option_map kind (nth_error s' r)
              = option_map kind
                  (nth_error (s ++ [mkNodeObj (TextKind text) [] None]) r)).
  { unfold s'. rewrite !update_kind; auto. }
  clearbody s'.
  destruct (Nat.lt_ge_cases r (length s)) as [Hlt|Hge].
  - rewrite nth_error_app1 in E by assumption.
    now apply tagNameString_kind.
  - rewrite nth_error_app2 in E by assumption.
    unfold tagNameString.
    rewrite (proj2 (nth_error_None s r) Hge).
    destruct (r - length s) as [|d]; simpl in E.
    + destruct (nth_error s' r) as [[k c p]|]; [|reflexivity].
      simpl in E. now injection E as ->.
    + destruct d; simpl in E;
        (destruct (nth_error s' r) as [[k c p]|]; [discriminate | reflexivity]).
Qed.

(** The guard of a closing tag: with an element as current parent, the
    error is raised exactly when the text of the closing tag does not
    contain the tag name of the current parent. *)
Lemma parseToken_closed_guard data m st parent :
  closed (handleJSXTag (matched m)) = true ->
  currentParent st = Some parent ->
  (includes (matched m) (tagNameString (store st) parent) = false ->
   parseToken data m st = Throw unbalanced)
  /\ (includes (matched m) (tagNameString (store st) parent) = true ->
      exists st', parseToken data m st = Normal st').
Proof.
  intros Hc Hp. unfold parseToken. rewrite Hc.
  unfold parseTextBefore. rewrite Hp.
  destruct (_ && _); cbn [bind alloc store currentParent lastIndex stack].
  - pose proof (tagNameString_appendText (store st)
      (substring data (Z.to_nat (lastTextPos st))
         (lastIndex st - length (matched m))) parent parent) as T.
    cbn [alloc fst snd] in T. rewrite T.
    destruct (includes _ _); split; intros; try discriminate; eauto.
  - rewrite Hp.
    destruct (includes _ _); split; intros; try discriminate; eauto.
Qed.

Lemma update_length (s : Store) (r : ref) (f : NodeObj -> NodeObj) :
  length (update s r f) = length s.
Proof.
  revert r. induction s as [|o s IH]; intros [|r]; simpl; auto.
Qed.

Lemma update_nth (s : Store) (r : ref) (f : NodeObj -> NodeObj) (i : nat) :
  nth_error (update s r f) i
  = if i =? r then option_map f (nth_error s i) else nth_error s i.
Proof.
  revert r i. induction s as [|o s IH]; intros r i.
  - destruct r, i; simpl; try reflexivity; now destruct (i =? r).
  - destruct r as [|r], i as [|i]; simpl; auto.
Qed.

(** Allocating a node and appending it to an object of the store keeps
    the store well-formed. *)
Lemma appendChild_alloc_wf (s : Store) (k : NodeKind) (parent : ref) :
  wfStore s -> parent < length s ->
  wfStore (appendChild (fst (alloc s k)) parent (snd (alloc s k)))
  /\ length (appendChild (fst (alloc s k)) parent (snd (alloc s k)))
     = S (length s).
Proof.
  intros Hwf Hp. unfold alloc, appendChild. cbn [fst snd]. split.
  - intros r o. rewrite !update_length, !update_nth, length_app. cbn [length].
    destruct (Nat.eqb_spec r parent) as [->|Hrp].
    + destruct (Nat.eqb_spec parent (length s)) as [E|_]; [lia|].
      rewrite nth_error_app1 by assumption.
      destruct (nth_error s parent) as [o'|] eqn:E; [|discriminate].
      cbn [option_map]. intros H. injection H as <-. cbn [childNodes].
      apply Forall_app. split.
      * apply Hwf in E. eapply Forall_impl; [|exact E]. cbn beta. lia.
      * repeat constructor; lia.
    + destruct (Nat.eqb_spec r (length s)) as [->|Hrn].
      * rewrite nth_error_app2, Nat.sub_diag by lia. cbn.
        intros H. injection H as <-. constructor.
      * intros H.
        assert (Hr : r < length s).
        { assert (L : nth_error (s ++ [mkNodeObj k [] None]) r <> None)
            by congruence.
          apply nth_error_Some in L. rewrite length_app in L.
          cbn [length] in L. lia. }
        rewrite nth_error_app1 in H by assumption.
        apply Hwf in H. eapply Forall_impl; [|exact H]. cbn beta. lia.
  - rewrite !update_length, length_app. cbn [length]. lia.
Qed.

(** [appendChild] puts the node after the children that the object
    already has. *)
Lemma appendChild_last (s : Store) (this node : ref) (o : NodeObj) :
  nth_error s this = Some o -> this <> node ->
  option_map childNodes (nth_error (appendChild s this node) this)
  = Some (childNodes o ++ [node]).
Proof.
  intros H Hne. unfold appendChild. rewrite !update_nth, Nat.eqb_refl.
  destruct (Nat.eqb_spec this node) as [E|_]; [now elim Hne|].
  rewrite H. reflexivity.
Qed.

Lemma parseInit_wf (lastIndex : nat) : wfParseState (parseInit lastIndex).
Proof.
  unfold wfParseState, parseInit. cbn. repeat split; try lia.
  intros [|[|r]] o H; cbn in H; try discriminate.
  injection H as <-. constructor.
Qed.

Lemma parseTextBefore_wf data m st st' :
  wfParseState st -> parseTextBefore data m st = Normal st' -> wfParseState st'.
Proof.
  intros (Hwf & Hlen & Hcp). unfold parseTextBefore.
  destruct (_ && _); [|intros H; injection H as <-; now repeat split].
  destruct (currentParent st) as [parent|] eqn:E; [|discriminate].
  match goal with |- context [alloc ?S ?K] =>
    destruct (appendChild_alloc_wf S K parent Hwf Hcp) as [W L] end.
  unfold alloc in *. cbn [fst snd] in *.
  intros H. injection H as <-. unfold wfParseState. cbn [store currentParent].
  rewrite ?E, L. repeat split; [exact W | lia | lia].
Qed.

Lemma parseToken_wf data m st st' :
  wfParseState st -> parseToken data m st = Normal st' -> wfParseState st'.
Proof.
  intros Hst. unfold parseToken.
  destruct (parseTextBefore data m st) as [st1|] eqn:E; cbn [bind];
    [|discriminate].
  apply (parseTextBefore_wf _ _ _ _ Hst) in E.
  destruct E as (Hwf & Hlen & Hcp).
  destruct (closed _).
  - destruct (currentParent st1); [|discriminate].
    destruct (includes _ _); [|discriminate].
    intros H. injection H as <-. now repeat split.
  - destruct (currentParent st1) as [parent|] eqn:P.
    + match goal with |- context [alloc ?S ?K] =>
        destruct (appendChild_alloc_wf S K parent Hwf Hcp) as [W L] end.
      unfold alloc in *. cbn [fst snd] in *.
      destruct (negb _); intros H; injection H as <-;
        unfold wfParseState; cbn [store currentParent];
        rewrite ?P, L; repeat split; try exact W; lia.
    + unfold alloc. discriminate.
Qed.

Lemma parseLoop_wf data : forall fuel st st' i,
  wfParseState st ->
  parseLoop fuel data st = Some (Normal st', i) -> wfParseState st'.
Proof.
  induction fuel as [|fuel IH]; intros st st' i Hst; cbn [parseLoop];
    [discriminate|].
  destruct (exec kMarkupPattern (lastIndex st) data) as [[m|] j].
  - destruct (parseToken data m (withLastIndex st j)) as [st1|] eqn:T;
      [|discriminate].
    apply IH. eapply parseToken_wf; [|exact T]. exact Hst.
  - intros H. injection H as <- _. exact Hst.
Qed.

Lemma traverse_total {A B} (f : A -> option B) (l : list A) :
  Forall (fun a => exists b, f a = Some b) l -> exists bs, traverse f l = Some bs.
Proof.
  induction 1 as [|a l [b Hb] _ [bs IH]]; simpl; [eauto|].
  rewrite Hb, IH. eauto.
Qed.

(** In a well-formed store every reference stands for a node value. *)
Lemma nodeAt_total (s : Store) : wfStore s ->
  forall depth r, r < length s -> length s - r <= depth ->
                  exists node, nodeAt depth s r = Some node.
Proof.
  intros Hwf. induction depth as [|depth IH]; intros r Hr Hd; [lia|].
  cbn [nodeAt].
  destruct (nth_error s r) as [o|] eqn:E;
    [|apply nth_error_None in E; lia].
  destruct (traverse_total (nodeAt depth s) (childNodes o)) as [children ->];
    [|eauto].
  apply Hwf in E. eapply Forall_impl; [|exact E].
  cbn beta. intros c [H1 H2]. apply IH; lia.
Qed.

End TreeBuilder.

(* ================================================================== *)
(** ** Claims about the tree builder *)
(* ================================================================== *)

(** C1.  The claim is that after every token processed without an error
    the current parent is the element on top of the open-tag stack, and
    in particular that a matching closing tag makes the new top of the
    stack the current parent.  The code assigns [stack.back], which is
    [undefined]: after the two tokens of [<div></div>] the stack holds
    the root, its top is the root, and the current parent is
    [undefined]. *)
Theorem close_tag_current_parent_undefined :
  exists st,
    parseRun 0 (str "<div></div>") = Some (Normal st, 0)
    /\ stack st = [0]
    /\ top (stack st) = Some 0
    /\ currentParent st = None.
Proof. eexists. repeat split; vm_compute; reflexivity. Qed.

(** C2.  The claim is that a closing tag raises the parse error exactly
    when its name differs from the tag name of the current parent.  In
    [<ab><b></ab>] the closing tag is named [ab] and the current parent
    [b]; the code tests that the text [</ab>] contains [b], raises
    nothing, and the transform returns a call for the unbalanced
    input. *)
Theorem close_tag_with_other_name_accepted :
  tagName (handleJSXTag (str "</ab>")) = str "ab"
  /\ includes (str "</ab>") (str "b") = true
  /\ forall fuel,
       parseJSX (S (S fuel)) loaded (str "<ab><b></ab>")
       = Some (Normal (str "MiniReact.createElement(" ++ [dquote] ++ str "ab"
                       ++ [dquote] ++ str ",{},MiniReact.createElement("
                       ++ [dquote] ++ str "b" ++ [dquote] ++ str ",{},))"),
               loaded).
Proof. repeat split; intros; vm_compute; reflexivity. Qed.

(** The unbalanced input of the specification does raise the error. *)
Lemma unbalanced_input_raises :
  parse 0 (str "<div><span></div>") = Some (Throw unbalanced, 17).
Proof. vm_compute. reflexivity. Qed.

(** A balanced nested input raises a [TypeError] at its last closing
    tag, because the current parent is [undefined] by then. *)
Lemma balanced_nested_input_raises :
  parse 0 (str "<a><b></b></a>") = Some (Throw TypeError, 14).
Proof. vm_compute. reflexivity. Qed.

(* ================================================================== *)
(** ** The translator *)
(* ================================================================== *)

Section Translator.

Lemma translate_unfold (kind : NodeKind) (childNodes : list Node) :
  translate (mkNode kind childNodes) =
  (children <- translateAll childNodes ;;
   match kind with
   | TextKind text =>
       if nonEmpty (trim text) then Normal (Some (parseText text))
       else Normal None
   | ElementKind tagName _ props _ _ =>
       match tagName with
       | None => Throw TypeError
       | Some tagName =>
           Normal (Some (createElement tagName (stringify props)
                           (nonNull children)))
       end
   end).
Proof. reflexivity. Qed.

Lemma translateAll_app (before after : list Node) :
  translateAll (before ++ after) =
  (rb <- translateAll before ;; ra <- translateAll after ;; Normal (rb ++ ra)).
Proof.
  induction before as [|node before IH]; simpl.
  - now destruct (translateAll after).
  - destruct (translate node); simpl; [|reflexivity].
    rewrite IH. destruct (translateAll before); simpl; [|reflexivity].
    now destruct (translateAll after).
Qed.

Lemma nonNull_app (a b : list (option jsstring)) :
  nonNull (a ++ b) = nonNull a ++ nonNull b.
Proof.
  induction a as [|[s|] a IH]; simpl; [reflexivity | now rewrite IH | exact IH].
Qed.

Lemma translate_whitespace (text : jsstring) :
  forallb isWhiteSpace text = true -> translate (TextNode text) = Normal None.
Proof.
  intros H. unfold TextNode. rewrite translate_unfold. simpl.
  now rewrite (trim_whitespace text H).
Qed.

End Translator.

(** C7.  A text node that holds white space only translates to [null],
    and a parent translates as if the node were not among its
    children. *)
Theorem whitespace_text_contributes_nothing (text : jsstring) :
  forallb isWhiteSpace text = true ->
  translate (TextNode text) = Normal None
  /\ forall kind before after,
       translate (mkNode kind (before ++ TextNode text :: after))
       = translate (mkNode kind (before ++ after)).
Proof.
  intros H. split; [now apply translate_whitespace|].
  intros kind before after. rewrite !translate_unfold, !translateAll_app.
  cbn [translateAll]. rewrite (translate_whitespace text H).
  destruct (translateAll before) as [rb|]; simpl; [|reflexivity].
  destruct (translateAll after) as [ra|]; simpl; [|reflexivity].
  now rewrite !nonNull_app.
Qed.

Lemma whitespace_text_contributes_nothing_witness :
  translate (TextNode (str "  "))  = Normal None
  /\ forall kind before after,
       translate (mkNode kind (before ++ TextNode (str "  ") :: after))
       = translate (mkNode kind (before ++ after)).
Proof.
  apply (whitespace_text_contributes_nothing (str "  ")). reflexivity.
Defined.

(** C3, as the code has it.  An element translates to
    [MiniReact.createElement(<tag>,<attrs>,<children>)]: the tag is
    quoted when its first character is a lower-case letter, and the
    children are the non-null translations of the child nodes joined by
    commas, without brackets; with no children that text is empty.  For
    [<Foo bar="1" />] the transform gives
    [MiniReact.createElement(Foo,{bar:"1"},)]. *)
Theorem element_translation_form :
  (forall tagName rawAttrs attrs id classNames childNodes results,
     translateAll childNodes = Normal results ->
     translate (mkNode (ElementKind (Some tagName) rawAttrs attrs id classNames)
                  childNodes)
     = Normal (Some (str "MiniReact.createElement("
                     ++ (if isLowerCase tagName
                         then [dquote] ++ tagName ++ [dquote] else tagName)
                     ++ str "," ++ stringify attrs ++ str ","
                     ++ join (str ",") (nonNull results) ++ str ")")))
  /\ (forall tagName rawAttrs attrs id classNames,
        translate (mkNode (ElementKind (Some tagName) rawAttrs attrs id
                             classNames) [])
        = Normal (Some (str "MiniReact.createElement("
                        ++ (if isLowerCase tagName
                            then [dquote] ++ tagName ++ [dquote] else tagName)
                        ++ str "," ++ stringify attrs ++ str ",)")))
  /\ (forall fuel,
        parseJSX (S (S fuel)) loaded
          (str "<Foo bar=" ++ [dquote] ++ str "1" ++ [dquote] ++ str " />")
        = Some (Normal (str "MiniReact.createElement(Foo,{bar:" ++ [dquote]
                        ++ str "1" ++ [dquote] ++ str "},)"), loaded)).
Proof.
  split; [|split].
  - intros tagName rawAttrs attrs id classNames childNodes results H.
    rewrite translate_unfold, H. reflexivity.
  - intros. rewrite translate_unfold. reflexivity.
  - intros fuel. vm_compute. reflexivity.
Qed.

Lemma element_translation_form_witness :
  translate (HTMLElement (str "br") [] [])
  = Normal (Some (str "MiniReact.createElement(" ++ [dquote] ++ str "br"
                  ++ [dquote] ++ str ",{},)")).
Proof.
  exact (proj1 element_translation_form (str "br") [] [] None [] [] []
           eq_refl).
Defined.

(** C3, as the specification states it, fails on its own example: the
    result has the [MiniReact.] prefix and no brackets. *)
Lemma self_closing_counterexample :
  parseJSX 2 loaded
    (str "<Foo bar=" ++ [dquote] ++ str "1" ++ [dquote] ++ str " />")
  = Some (Normal (str "MiniReact.createElement(Foo,{bar:" ++ [dquote]
                  ++ str "1" ++ [dquote] ++ str "},)"), loaded)
  /\ str "MiniReact.createElement(Foo,{bar:" ++ [dquote] ++ str "1"
       ++ [dquote] ++ str "},)"
     <> str "createElement(Foo,{bar:" ++ [dquote] ++ str "1" ++ [dquote]
          ++ str "},[])".
Proof. split; [vm_compute; reflexivity | discriminate]. Qed.

(** C4.  The claim is that the children of an element are written in
    source order, and that [<div><span>a</span><span>b</span></div>]
    gives a children expression with the [a] span before the [b] span.
    The code raises a [TypeError] on that input and gives no expression:
    the closing tag [</span>] assigns [stack.back], which is [undefined],
    to the current parent, and the second [<span>] then calls
    [appendChild] on [undefined].  After [<div><span>a</span>] the stack
    holds the root and the [div], with the [div] on top, and the current
    parent is [undefined];
    the tree builder raises at the second [<span>], where
    [kMarkupPattern.lastIndex] is 25, and the transform passes the error
    on, with [JSX_STRING.lastIndex] left at 39. *)
Theorem sibling_elements_raise_type_error :
  (forall fuel,
     parseJSX (S fuel) loaded (str "<div><span>a</span><span>b</span></div>")
     = Some (Throw TypeError, mkPatterns 39 25))
  /\ parse 0 (str "<div><span>a</span><span>b</span></div>")
     = Some (Throw TypeError, 25)
  /\ exists st,
       parseRun 0 (str "<div><span>a</span>") = Some (Normal st, 0)
       /\ stack st = [0; 1]
       /\ top (stack st) = Some 1
       /\ currentParent st = None.
Proof.
  split; [|split].
  - intros fuel. vm_compute. reflexivity.
  - vm_compute. reflexivity.
  - eexists. split; [vm_compute; reflexivity|].
    split; [|split]; vm_compute; reflexivity.
Qed.

(* ================================================================== *)
(** ** State kept between calls *)
(* ================================================================== *)

Section PatternState.

(** The body of the loop of [parseJSX] always gives a completion: the
    only way for [parseJSX] to give none is to use up its bound. *)
Lemma parseJSXStep_total str_ m kLastIndex :
  exists res, parseJSXStep str_ m kLastIndex = Some res.
Proof.
  unfold parseJSXStep, parse, parseRun.
  destruct (parseLoop_total (matched m) (S (length (matched m)))
              (parseInit kLastIndex)) as [[[st|e] i] E]; [lia | |];
    rewrite E; [|eauto].
  apply parseLoop_wf in E as (Hwf & Hlen & _); [|apply parseInit_wf].
  destruct (nth_error (store st) 0) as [rootObj|] eqn:R;
    [|apply nth_error_None in R; lia].
  destruct (childNodes rootObj) as [|child rest] eqn:C; [eauto|].
  pose proof (Hwf 0 rootObj R) as F. rewrite C in F.
  apply Forall_inv in F.
  destruct (nodeAt_total (store st) Hwf (length (store st)) child) as [node ->];
    [lia | lia |].
  destruct (translate node); eauto.
Qed.

Lemma parseJSXStep_normal str_ m kLastIndex str' k :
  parseJSXStep str_ m kLastIndex = Some (Normal str', k) -> k = 0.
Proof.
  unfold parseJSXStep, parse, parseRun.
  destruct (parseLoop _ _ _) as [[[st|e] i]|] eqn:E; try discriminate.
  apply parseLoop_normal in E. subst i.
  destruct (nth_error (store st) 0) as [rootObj|]; [|discriminate].
  destruct (childNodes rootObj) as [|child rest]; [discriminate|].
  destruct (nodeAt _ _ child) as [node|]; [|discriminate].
  destruct (translate node); [|discriminate].
  intros H. now injection H as _ <-.
Qed.

(** A call that returns leaves [JSX_STRING.lastIndex] at 0, and
    [kMarkupPattern.lastIndex] at 0 if it was there before: after a call
    without an error the module is as it was when loaded. *)
Lemma parseJSX_normal_resets : forall fuel p str_ result p',
  parseJSX fuel p str_ = Some (Normal result, p') ->
  JSX_STRING_lastIndex p' = 0
  /\ (kMarkupPattern_lastIndex p = 0 -> p' = loaded).
Proof.
  induction fuel as [|fuel IH]; intros p str_ result p';
    cbn [parseJSX]; [discriminate|].
  destruct (exec JSX_STRING (JSX_STRING_lastIndex p) str_) as [[m|] i] eqn:E.
  - destruct (parseJSXStep str_ m (kMarkupPattern_lastIndex p))
      as [[[str'|e] k]|] eqn:S; try discriminate.
    apply parseJSXStep_normal in S. subst k.
    intros H. apply IH in H as [H1 H2]. split; [exact H1 | auto].
  - apply exec_none in E. subst i.
    intros H. injection H as _ <-. simpl. split; [reflexivity|].
    intros ->. reflexivity.
Qed.

End PatternState.

(** C10.  The claim is that a run of the transform on a text gives the
    same result whatever ran before.  The first run on the unbalanced
    [<div><span></div>] raises the parse error and leaves both pattern
    objects with [lastIndex] 17; the next run on the same text starts its
    search there, finds nothing, and returns the text unchanged without
    an error.  A run on another text after the failed one, here
    [<b>{x}</b>], returns that text unchanged too, where a run on a
    freshly loaded module rewrites it. *)
Theorem failed_run_changes_the_next_run :
  forall fuel,
    parseJSX (S fuel) loaded (str "<div><span></div>")
    = Some (Throw unbalanced, mkPatterns 17 17)
    /\ parseJSX (S fuel) (mkPatterns 17 17) (str "<div><span></div>")
       = Some (Normal (str "<div><span></div>"), mkPatterns 0 17)
    /\ parseJSX (S fuel) (mkPatterns 17 17) (str "<b>{x}</b>")
       = Some (Normal (str "<b>{x}</b>"), mkPatterns 0 17)
    /\ parseJSX (S (S fuel)) loaded (str "<b>{x}</b>")
       = Some (Normal (str "MiniReact.createElement(" ++ [dquote] ++ str "b"
                       ++ [dquote] ++ str ",{},x)"), loaded).
Proof. intros fuel. repeat split; vm_compute; reflexivity. Qed.

(* ================================================================== *)
(** ** The attribute scanner on well-formed attribute lists *)
(* ================================================================== *)

Section AttributeScanner.






































End AttributeScanner.


(* ================================================================== *)
(** ** The object that a sequence of assignments leaves *)
(* ================================================================== *)

Section AssignedObject.


















End AssignedObject.








(* ================================================================== *)
(** ** The matcher on runs of a character class *)
(* ================================================================== *)

Section ClassRuns.

Lemma clearCaptures_nil (caps : captures) : clearCaptures [] caps = caps.
Proof.
  unfold clearCaptures.
  induction caps as [|[n s] caps IH]; simpl; [reflexivity | now f_equal].
Qed.

Lemma matcher_seq r1 r2 pos rest caps k :
  matcher (Seq r1 r2) pos rest caps k
  = matcher r1 pos rest caps (fun pos' rest' caps' => matcher r2 pos' rest' caps' k).
Proof. reflexivity. Qed.

Lemma matcher_star greedy r pos rest caps k :
  matcher (Star greedy r) pos rest caps k
  = RepeatMatcher (matcher r) greedy (groupsOf r) (length rest) pos rest caps k.
Proof. reflexivity. Qed.

Lemma matcher_char c pos c' rest caps k :
  matcher (Char c) pos (c' :: rest) caps k
  = if Ascii.eqb c' c then k (S pos) rest caps else None.
Proof. reflexivity. Qed.

Lemma matcher_class negated atoms pos c rest caps k :
  matcher (Class negated atoms) pos (c :: rest) caps k
  = if classMatches negated atoms c then k (S pos) rest caps else None.
Proof. reflexivity. Qed.

Lemma matcher_group n r pos rest caps k :
  matcher (Group n r) pos rest caps k
  = matcher r pos rest caps
      (fun pos' rest' caps' =>
         k pos' rest' ((n, firstn (pos' - pos) rest) :: caps')).
Proof. reflexivity. Qed.

Lemma matcher_start rest caps k :
  matcher AssertStart 0 rest caps k = k 0 rest caps.
Proof. reflexivity. Qed.

(** A greedy star over a class, on a run of the class that ends where
    the class stops. *)
Lemma repeat_class_run negated atoms (run : jsstring) :
  forall rest caps k pos n,
  forallb (classMatches negated atoms) run = true ->
  stopsAt negated atoms rest ->
  length (run ++ rest) <= n ->
  RepeatMatcher (matcher (Class negated atoms)) true [] n pos (run ++ rest)
    caps k
  = backtrack k caps pos run rest.
Proof.
  induction run as [|c run IH]; intros rest caps k pos n Hrun Hstop Hn.
  - simpl app. simpl backtrack. destruct n as [|n]; [reflexivity|].
    cbn [RepeatMatcher]. rewrite clearCaptures_nil.
    destruct rest as [|c rest]; [reflexivity|].
    rewrite matcher_class. simpl in Hstop. now rewrite Hstop.
  - simpl in Hrun. apply andb_prop in Hrun as [Hc Hrun].
    destruct n as [|n]; [simpl in Hn; lia|].
    simpl app. cbn [RepeatMatcher backtrack].
    rewrite clearCaptures_nil, matcher_class, Hc.
    assert ((pos <? S pos) = true) as -> by (apply Nat.ltb_lt; lia).
    rewrite IH; [reflexivity | assumption | assumption | simpl in Hn; lia].
Qed.

Lemma backtrack_end k caps (run : jsstring) : forall pos rest res,
  k (pos + length run) rest caps = Some res ->
  backtrack k caps pos run rest = Some res.
Proof.
  induction run as [|c run IH]; intros pos rest res H; simpl.
  - now rewrite Nat.add_0_r in H.
  - rewrite (IH (S pos) rest res); [reflexivity|].
    simpl in H. now rewrite Nat.add_succ_r in H.
Qed.

Lemma backtrack_none k caps (run : jsstring) : forall pos rest,
  (forall j, j <= length run ->
             k (pos + j) (skipn j run ++ rest) caps = None) ->
  backtrack k caps pos run rest = None.
Proof.
  induction run as [|c run IH]; intros pos rest H; simpl.
  - specialize (H 0 (Nat.le_0_l _)). now rewrite Nat.add_0_r in H.
  - rewrite IH.
    + simpl. specialize (H 0 (Nat.le_0_l _)). now rewrite Nat.add_0_r in H.
    + intros j Hj. specialize (H (S j)). simpl in H.
      rewrite Nat.add_succ_r in H. apply H. lia.
Qed.

End ClassRuns.

(* ================================================================== *)
(** ** Interpolation markers in text *)
(* ================================================================== *)

Section Interpolation.

Lemma alnum_not_brace (c : ascii) :
  alnum c = true ->
  Ascii.eqb c "}"%char = false /\ Ascii.eqb c "{"%char = false.
Proof.
  destruct c as [[] [] [] [] [] [] [] []]; vm_compute; intros H;
    first [discriminate H | split; reflexivity].
Qed.

Lemma wfIdentifier_inv (i : jsstring) :
  wfIdentifier i = true ->
  exists c i', i = c :: i' /\ alnum c = true /\ forallb alnum i' = true.
Proof.
  unfold wfIdentifier. destruct i as [|c i']; [discriminate|]. simpl.
  intros H. apply andb_prop in H as [Hc Hi]. eauto.
Qed.

Lemma marker_app (i tail : jsstring) :
  marker i ++ tail = "{"%char :: i ++ "}"%char :: tail.
Proof. unfold marker. simpl. now rewrite <- app_assoc. Qed.

Lemma marker_length (i : jsstring) : length (marker i) = length i + 2.
Proof. unfold marker. simpl. rewrite length_app. simpl. lia. Qed.

(** [JSX_INTERPOLATION] matches a marker where it stands. *)
Lemma matchAt_marker (i tail : jsstring) (pos : nat) :
  wfIdentifier i = true ->
  matchAt JSX_INTERPOLATION pos (marker i ++ tail)
  = Some (mkMatch pos (marker i) [(1, i)] (pos + length i + 2)).
Proof.
  intros Hi. apply wfIdentifier_inv in Hi as (c & i' & -> & Hc & Hi').
  unfold matchAt.
  set (final := fun (e : nat) (_ : jsstring) (caps : captures) => Some (e, caps)).
  assert (E : matcher JSX_INTERPOLATION pos (marker (c :: i') ++ tail) [] final
              = Some (pos + length (c :: i') + 2, [(1, c :: i')])).
  { unfold JSX_INTERPOLATION. cbn [seq]. rewrite marker_app. simpl app.
    rewrite matcher_seq, matcher_char. simpl Ascii.eqb. cbv iota.
    rewrite matcher_seq, matcher_group. unfold Plus.
    rewrite matcher_seq, matcher_class.
    fold (alnum c). rewrite Hc.
    rewrite matcher_star. cbn [groupsOf].
    rewrite repeat_class_run; [| exact Hi' | reflexivity | lia].
    apply backtrack_end.
    rewrite matcher_char. simpl Ascii.eqb. cbv iota. unfold final.
    f_equal. f_equal; [cbn [length]; lia|].
    f_equal. f_equal.
    replace (S (S pos) + length i' - S pos) with (length (c :: i'))
      by (cbn [length]; lia).
    change (c :: i' ++ "}"%char :: tail) with ((c :: i') ++ "}"%char :: tail).
    rewrite firstn_app, firstn_all, Nat.sub_diag. simpl. now rewrite app_nil_r. }
  rewrite E. f_equal. f_equal.
  replace (pos + length (c :: i') + 2 - pos) with (length (marker (c :: i')))
    by (rewrite marker_length; lia).
  rewrite firstn_app, firstn_all, Nat.sub_diag. simpl. now rewrite app_nil_r.
Qed.

(** It matches nowhere else than at an opening brace. *)
Lemma matchAt_no_brace (c : ascii) (rest : jsstring) (pos : nat) :
  Ascii.eqb c "{"%char = false ->
  matchAt JSX_INTERPOLATION pos (c :: rest) = None.
Proof.
  intros H. unfold matchAt, JSX_INTERPOLATION. cbn [seq].
  rewrite matcher_seq, matcher_char, H. reflexivity.
Qed.

Lemma search_unfold r pos rest :
  search r pos rest
  = match matchAt r pos rest with
    | Some m => Some m
    | None =>
        match rest with
        | [] => None
        | _ :: rest' => search r (S pos) rest'
        end
    end.
Proof. now destruct rest. Qed.

Lemma search_literal (literal : jsstring) : forall pos,
  braceFree literal = true ->
  search JSX_INTERPOLATION pos literal = None.
Proof.
  induction literal as [|c literal IH]; intros pos H; [reflexivity|].
  simpl in H. apply andb_prop in H as [Hc Hl]. apply negb_true_iff in Hc.
  cbn [search]. rewrite (matchAt_no_brace c literal pos Hc). now apply IH.
Qed.

Lemma search_marker (literal : jsstring) : forall i tail pos,
  braceFree literal = true ->
  wfIdentifier i = true ->
  search JSX_INTERPOLATION pos (literal ++ marker i ++ tail)
  = Some (mkMatch (pos + length literal) (marker i) [(1, i)]
            (pos + length literal + length i + 2)).
Proof.
  induction literal as [|c literal IH]; intros i tail pos H Hi.
  - change ([] ++ marker i ++ tail) with (marker i ++ tail).
    rewrite Nat.add_0_r.
    rewrite search_unfold, matchAt_marker by assumption. reflexivity.
  - simpl in H. apply andb_prop in H as [Hc Hl]. apply negb_true_iff in Hc.
    change ((c :: literal) ++ marker i ++ tail)
      with (c :: (literal ++ marker i ++ tail)).
    cbn [search]. rewrite (matchAt_no_brace c _ pos Hc).
    rewrite IH by assumption. cbn [length]. f_equal. f_equal; lia.
Qed.

Lemma exec_at_prefix r (prefix rest : jsstring) :
  exec r (length prefix) (prefix ++ rest)
  = match search r (length prefix) rest with
    | Some m => (Some m, endIndex m)
    | None => (None, 0)
    end.
Proof.
  unfold exec.
  destruct (Nat.ltb_spec (length (prefix ++ rest)) (length prefix)) as [H|H].
  - rewrite length_app in H. lia.
  - now rewrite skipn_app, skipn_all, Nat.sub_diag.
Qed.

Lemma renderSegments_length (segments : list (jsstring * jsstring)) :
  length segments <= length (renderSegments segments).
Proof.
  induction segments as [|[i l] rest IH]; simpl; [lia|].
  rewrite !length_app. lia.
Qed.

(** The successive results of [exec] on a text of literals and
    markers. *)
Lemma execAll_segments : forall segments prefix literal fuel,
  length segments <= fuel ->
  braceFree literal = true ->
  forallb wfSegment segments = true ->
  execAll fuel JSX_INTERPOLATION (length prefix)
    (prefix ++ literal ++ renderSegments segments)
  = markerMatches (length prefix + length literal) segments.
Proof.
  induction segments as [|[i l] rest IH]; intros prefix literal fuel Hf Hl Hs.
  - destruct fuel as [|fuel]; [reflexivity|].
    cbn [execAll renderSegments markerMatches].
    rewrite exec_at_prefix, app_nil_r, search_literal by assumption.
    reflexivity.
  - destruct fuel as [|fuel]; [simpl in Hf; lia|].
    simpl in Hs. apply andb_prop in Hs as [Hil Hs].
    unfold wfSegment in Hil. simpl in Hil. apply andb_prop in Hil as [Hi Hl'].
    cbn [execAll renderSegments markerMatches].
    rewrite exec_at_prefix, search_marker by assumption.
    cbn [endIndex index].
    destruct (Nat.eqb_spec (length prefix + length literal + length i + 2)
                (length prefix + length literal)) as [E|_]; [lia|].
    f_equal.
    specialize (IH (prefix ++ literal ++ marker i) l fuel).
    rewrite !length_app, marker_length in IH.
    rewrite <- !app_assoc in IH.
    replace (length prefix + length literal + length i + 2)
      with (length prefix + (length literal + (length i + 2))) by lia.
    rewrite IH; [f_equal; lia | simpl in Hf; lia | assumption | assumption].
Qed.

(** The loop of [parseText] over those results, and the text after the
    last of them. *)
Lemma fold_segments : forall segments prefix literal parts text,
  text = prefix ++ literal ++ renderSegments segments ->
  finishParts text
    (fold_left (interpolationStep text)
       (markerMatches (length prefix + length literal) segments)
       (parts, length prefix))
  = parts ++ literalPart literal ++ segmentParts segments.
Proof.
  induction segments as [|[i l] rest IH]; intros prefix literal parts text E.
  - cbn [markerMatches fold_left finishParts segmentParts renderSegments] in *.
    rewrite app_nil_r in *. subst text. rewrite sliceFrom_suffix.
    unfold literalPart. destruct (nonEmpty (trim literal)); [reflexivity|].
    now rewrite app_nil_r.
  - cbn [markerMatches fold_left segmentParts renderSegments] in *.
    assert (S : interpolationStep text (parts, length prefix)
                  (mkMatch (length prefix + length literal) (marker i) [(1, i)]
                     (length prefix + length literal + length i + 2))
                = (parts ++ literalPart literal ++ [i],
                   length (prefix ++ literal ++ marker i))).
    { unfold interpolationStep. cbn [matched groups index capture Nat.eqb].
      rewrite Nat2Z.inj_add. rewrite <- Nat2Z.inj_add.
      subst text. rewrite slice_middle.
      rewrite !length_app, marker_length.
      unfold literalPart. destruct (nonEmpty (trim literal)).
      - rewrite <- !app_assoc. f_equal. lia.
      - simpl. f_equal. lia. }
    rewrite S.
    specialize (IH (prefix ++ literal ++ marker i) l
                  (parts ++ literalPart literal ++ [i]) text).
    replace (length prefix + length literal + length i + 2 + length l)
      with (length (prefix ++ literal ++ marker i) + length l)
      by (rewrite !length_app, marker_length; lia).
    rewrite IH.
    + rewrite <- !app_assoc. reflexivity.
    + subst text. now rewrite <- !app_assoc.
Qed.

Lemma matchAt_after_start (rest : jsstring) (pos : nat) :
  matchAt singleInterpolation (S pos) rest = None.
Proof. reflexivity. Qed.

Lemma search_after_start : forall rest pos,
  search singleInterpolation (S pos) rest = None.
Proof.
  induction rest as [|c rest IH]; intros pos;
    rewrite search_unfold, matchAt_after_start; auto.
Qed.

Lemma alnum_run_not_closing (i : jsstring) :
  forallb alnum i = true ->
  forallb (classMatches true [CChar "}"%char]) i = true.
Proof.
  induction i as [|c i IH]; simpl; [reflexivity|].
  intros H. apply andb_prop in H as [Hc Hi].
  apply alnum_not_brace in Hc as [Hc _].
  unfold classMatches at 1. simpl. rewrite Hc. simpl. auto.
Qed.

Lemma forallb_skipn {A} (f : A -> bool) (l : list A) (j : nat) :
  forallb f l = true -> forallb f (skipn j l) = true.
Proof.
  revert j. induction l as [|a l IH]; intros [|j]; simpl; auto.
  intros H. apply andb_prop in H as [_ H]. auto.
Qed.

(** [/^\{[^}]+\}$/] does not match a marker that is followed by more
    text. *)
Lemma matchAt_single_followed (i tail : jsstring) :
  wfIdentifier i = true -> tail <> [] ->
  matchAt singleInterpolation 0 (marker i ++ tail) = None.
Proof.
  intros Hi Htail. apply wfIdentifier_inv in Hi as (c & i' & -> & Hc & Hi').
  unfold matchAt.
  set (final := fun (e : nat) (_ : jsstring) (caps : captures) => Some (e, caps)).
  replace (matcher singleInterpolation 0 (marker (c :: i') ++ tail) [] final)
    with (@None (nat * captures)); [reflexivity|].
  symmetry. unfold singleInterpolation. cbn [seq]. rewrite marker_app.
  rewrite matcher_seq, matcher_start.
  rewrite matcher_seq, matcher_char. simpl Ascii.eqb. cbv iota.
  unfold Plus. rewrite !matcher_seq. simpl app. rewrite matcher_class.
  pose proof (alnum_run_not_closing (c :: i')) as R. cbn [forallb] in R.
  rewrite Hc, Hi' in R. specialize (R eq_refl).
  apply andb_prop in R as [Rc Ri]. rewrite Rc.
  rewrite matcher_star. cbn [groupsOf].
  rewrite repeat_class_run; [| exact Ri | reflexivity | lia].
  apply backtrack_none. intros j Hj.
  pose proof (forallb_skipn alnum i' j Hi') as Hs.
  destruct (skipn j i') as [|c' s'].
  - simpl app. rewrite matcher_seq, matcher_char. simpl Ascii.eqb. cbv iota.
    destruct tail; [now elim Htail | reflexivity].
  - simpl in Hs. apply andb_prop in Hs as [Hc' _].
    apply alnum_not_brace in Hc' as [Hc' _].
    simpl app. rewrite matcher_seq, matcher_char, Hc'. reflexivity.
Qed.

Lemma matchAt_single_literal (c : ascii) (rest : jsstring) :
  Ascii.eqb c "{"%char = false ->
  matchAt singleInterpolation 0 (c :: rest) = None.
Proof.
  intros H. unfold matchAt, singleInterpolation. cbn [seq].
  rewrite matcher_seq, matcher_start.
  rewrite matcher_seq, matcher_char, H. reflexivity.
Qed.

(** The shortcut of [parseText] is taken only for a text that is one
    marker. *)
Lemma single_shape (literal : jsstring) (segments : list (jsstring * jsstring)) :
  braceFree literal = true ->
  forallb wfSegment segments = true ->
  segments <> [] ->
  test singleInterpolation (literal ++ renderSegments segments) = true ->
  literal = [] /\ exists i, segments = [(i, [])].
Proof.
  intros Hl Hs Hne. unfold test. rewrite search_unfold.
  destruct segments as [|[i l] rest]; [now elim Hne|].
  simpl in Hs. apply andb_prop in Hs as [Hil Hs].
  unfold wfSegment in Hil. simpl in Hil. apply andb_prop in Hil as [Hi Hl'].
  destruct literal as [|c literal].
  - rewrite app_nil_l. cbn [renderSegments].
    destruct (l ++ renderSegments rest) as [|t ts] eqn:E.
    + intros _. split; [reflexivity|]. exists i.
      apply app_eq_nil in E as [-> E].
      destruct rest as [|[i2 l2] rest]; [reflexivity | discriminate E].
    + rewrite matchAt_single_followed by (assumption || discriminate).
      rewrite marker_app. now rewrite search_after_start.
  - simpl in Hl. apply andb_prop in Hl as [Hc _]. apply negb_true_iff in Hc.
    simpl app. rewrite (matchAt_single_literal c _ Hc).
    now rewrite search_after_start.
Qed.

(** [parseText] on a text of literals and markers: the trimmed literals
    between backticks and the identifiers, in order, joined by
    commas. *)
Lemma parseText_segments (rawText literal : jsstring)
    (segments : list (jsstring * jsstring)) :
  segments <> [] ->
  braceFree literal = true ->
  forallb wfSegment segments = true ->
  trim (replaceGlobal whitespaceRun rawText (str " "))
  = literal ++ renderSegments segments ->
  parseText rawText
  = join (str ",") (literalPart literal ++ segmentParts segments).
Proof.
  intros Hne Hl Hs E. unfold parseText. rewrite E.
  set (text := literal ++ renderSegments segments).
  assert (M : allMatches JSX_INTERPOLATION text
              = markerMatches (length literal) segments).
  { unfold allMatches, text.
    apply (execAll_segments segments [] literal); [|assumption|assumption].
    pose proof (renderSegments_length segments).
    rewrite length_app. lia. }
  assert (G : exists g, matchGlobal JSX_INTERPOLATION text = Some g).
  { unfold matchGlobal. rewrite M.
    destruct segments as [|[i l] rest]; [now elim Hne|]. simpl. eauto. }
  destruct G as [g ->]. rewrite M.
  destruct (test singleInterpolation text) eqn:T.
  - apply single_shape in T as [-> [i ->]]; try assumption.
    unfold text. simpl. rewrite app_nil_r. unfold marker.
    rewrite slice_inner. reflexivity.
  - pose proof (fold_segments segments [] literal [] text eq_refl) as F.
    simpl in F. unfold finishParts in F.
    destruct (fold_left _ _ _) as [parts lastIndex]. now rewrite F.
Qed.

(** Collapsing and trimming white space alone leaves nothing. *)
Lemma normalize_whitespace (rawText : jsstring) :
  forallb isWhiteSpace rawText = true ->
  trim (replaceGlobal whitespaceRun rawText (str " ")) = [].
Proof.
  destruct rawText as [|c raw]; [reflexivity|]. intros H.
  pose proof H as H'. simpl in H'. apply andb_prop in H' as [Hc Hraw].
  assert (M : matchAt whitespaceRun 0 (c :: raw)
              = Some (mkMatch 0 (c :: raw) [] (length (c :: raw)))).
  { unfold matchAt, whitespaceRun, Plus, space.
    rewrite matcher_seq, matcher_class.
    unfold classMatches at 1. simpl existsb. rewrite Hc. simpl xorb. cbv iota.
    rewrite matcher_star. cbn [groupsOf].
    rewrite <- (app_nil_r raw) at 2.
    rewrite repeat_class_run; [| | exact I | rewrite app_nil_r; lia].
    - rewrite (backtrack_end _ _ raw 1 [] (length (c :: raw), []));
        [| reflexivity].
      rewrite Nat.sub_0_r, firstn_all. reflexivity.
    - clear -Hraw. induction raw as [|d raw IH]; [reflexivity|].
      simpl in *. apply andb_prop in Hraw as [Hd Hraw].
      unfold classMatches at 1. simpl. rewrite Hd. simpl. auto. }
  unfold replaceGlobal, allMatches.
  cbn [execAll]. unfold exec at 1.
  change (length (c :: raw) <? 0) with false. cbv iota.
  change (skipn 0 (c :: raw)) with (c :: raw).
  rewrite search_unfold, M. cbn [endIndex index].
  change (length (c :: raw) =? 0) with false. cbv iota.
  assert (N : execAll (length (c :: raw)) whitespaceRun (length (c :: raw))
                (c :: raw) = []).
  { pose proof (exec_at_prefix whitespaceRun (c :: raw) []) as X.
    rewrite app_nil_r in X. cbn [length] in *. cbn [execAll].
    rewrite X. reflexivity. }
  rewrite N. cbn [replaceMatches index endIndex matched].
  rewrite skipn_all. reflexivity.
Qed.

End Interpolation.

(** ** Literal text with braces *)

Section MarkerFreeText.

Lemma closesMarker_before_brace (s rest : jsstring) :
  closesMarker (s ++ "{"%char :: rest) = closesMarker s.
Proof.
  induction s as [|c s IH]; [reflexivity|].
  cbn [app closesMarker]. now destruct (alnum c).
Qed.

Lemma markerAt_before_brace (s rest : jsstring) :
  s <> [] -> markerAt (s ++ "{"%char :: rest) = markerAt s.
Proof.
  destruct s as [|c [|d s]]; intros H; [now elim H | |].
  - cbn [app markerAt]. change (alnum "{"%char) with false.
    now rewrite andb_false_r.
  - cbn [app markerAt]. now rewrite closesMarker_before_brace.
Qed.











Lemma closesMarker_split (s : jsstring) :
  closesMarker s = true ->
  exists run rest, s = run ++ "}"%char :: rest /\ forallb alnum run = true.
Proof.
  induction s as [|c s IH]; [discriminate|]. cbn [closesMarker].
  destruct (alnum c) eqn:A.
  - intros H. destruct (IH H) as (run & rest & -> & Hrun).
    exists (c :: run), rest. split; [reflexivity|]. cbn [forallb].
    now rewrite A.
  - intros H. apply Ascii.eqb_eq in H. subst c. now exists [], s.
Qed.

(** Every text is a literal followed by markers, each with the literal
    after it. *)
Lemma text_splits (text : jsstring) :
  exists literal segments,
    text = literal ++ renderSegments segments
    /\ markerFree literal = true /\ forallb wfFragment segments = true.
Proof.
  assert (A : forall n text, length text <= n ->
            exists literal segments,
              text = literal ++ renderSegments segments
              /\ markerFree literal = true
              /\ forallb wfFragment segments = true).
  { clear text. induction n as [|n IH]; intros text Hn.
    - destruct text; [|simpl in Hn; lia]. now exists [], [].
    - destruct text as [|c text]; [now exists [], []|].
      cbn [length] in Hn.
      destruct (markerAt (c :: text)) eqn:M.
      + destruct text as [|d text]; [discriminate|].
        cbn [markerAt] in M.
        apply andb_prop in M as [M Hclose].
        apply andb_prop in M as [Hc Hd].
        apply Ascii.eqb_eq in Hc. subst c.
        destruct (closesMarker_split text Hclose) as (run & rest & -> & Hrun).
        destruct (IH rest) as (l & segs & -> & Hl & Hsegs).
        { cbn [length] in Hn. rewrite length_app in Hn. cbn [length] in Hn.
          lia. }
        exists [], ((d :: run, l) :: segs). repeat split.
        * cbn [renderSegments app]. unfold marker.
          cbn [app]. now rewrite <- app_assoc.
        * cbn [forallb]. rewrite Hsegs. unfold wfFragment, wfIdentifier.
          cbn [fst snd nonEmpty forallb]. now rewrite Hd, Hrun, Hl.
      + destruct (IH text ltac:(lia)) as (l & segs & E & Hl & Hsegs).
        exists (c :: l), segs. repeat split; [now rewrite E | | assumption].
        cbn [markerFree]. rewrite Hl, andb_true_r. apply negb_true_iff.
        destruct segs as [|[i l'] segs].
        * cbn [renderSegments] in E. rewrite app_nil_r in E. now subst l.
        * subst text. cbn [renderSegments] in M.
          rewrite marker_app in M.
          change (c :: l ++ "{"%char :: i ++ "}"%char :: l' ++ renderSegments segs)
            with ((c :: l) ++ "{"%char :: i ++ "}"%char :: l'
                  ++ renderSegments segs) in M.
          now rewrite markerAt_before_brace in M by discriminate. }
  exact (A (length text) text (le_n _)).
Qed.

End MarkerFreeText.




(** C6.  A text node whose collapsed and trimmed content is one marker
    [{identifier}], the identifier made of letters and digits, translates
    to the bare identifier. *)
Theorem single_marker_gives_identifier (rawText identifier : jsstring) :
  wfIdentifier identifier = true ->
  trim (replaceGlobal whitespaceRun rawText (str " ")) = marker identifier ->
  translate (TextNode rawText) = Normal (Some identifier).
Proof.
  intros Hi E. unfold TextNode. rewrite translate_unfold. simpl.
  assert (N : nonEmpty (trim rawText) = true).
  { destruct (trim rawText) eqn:T; [|reflexivity].
    apply trim_nil_inv, normalize_whitespace in T.
    rewrite T in E. discriminate E. }
  rewrite N. do 2 f_equal.
  rewrite (parseText_segments rawText [] [(identifier, [])]).
  - reflexivity.
  - discriminate.
  - reflexivity.
  - simpl. unfold wfSegment. simpl. now rewrite Hi.
  - simpl. now rewrite !app_nil_r.
Qed.

Lemma single_marker_gives_identifier_witness :
  translate (TextNode (str "  {name} ")) = Normal (Some (str "name")).
Proof.
  apply (single_marker_gives_identifier (str "  {name} ") (str "name"));
    vm_compute; reflexivity.
Defined.

(* ================================================================== *)
(** ** More about the tree builder *)
(* ================================================================== *)

Section TreeBuilderMore.

Lemma parseToken_undefined data m st :
  currentParent st = None -> parseToken data m st = Throw TypeError.
Proof.
  intros H. unfold parseToken, parseTextBefore. rewrite H.
  destruct (_ && _); cbn [bind]; [reflexivity|].
  rewrite H. destruct (closed _); reflexivity.
Qed.


Lemma appendChild_alloc_nth (s : Store) (k : NodeKind) (parent r : ref)
    (o : NodeObj) :
  nth_error s r = Some o ->
  nth_error (appendChild (fst (alloc s k)) parent (snd (alloc s k))) r
  = Some (if r =? parent
          then mkNodeObj (kind o) (childNodes o ++ [length s]) (parentNode o)
          else o).
Proof.
  intros H. unfold alloc, appendChild. cbn [fst snd].
  assert (Hr : r < length s) by (apply nth_error_Some; congruence).
  rewrite !update_nth.
  destruct (Nat.eqb_spec r (length s)) as [E|_]; [lia|].
  rewrite nth_error_app1, H by assumption.
  now destruct (r =? parent).
Qed.

Lemma appendChild_alloc_new (s : Store) (k : NodeKind) (parent : ref) :
  parent < length s ->
  nth_error (appendChild (fst (alloc s k)) parent (snd (alloc s k))) (length s)
  = Some (mkNodeObj k [] (Some parent)).
Proof.
  intros H. unfold alloc, appendChild. cbn [fst snd].
  rewrite !update_nth, Nat.eqb_refl.
  destruct (Nat.eqb_spec (length s) parent) as [E|_]; [lia|].
  rewrite nth_error_app2, Nat.sub_diag by lia. reflexivity.
Qed.

Lemma grows_refl parent s : grows parent s s.
Proof.
  intros r o H. exists o. repeat split; auto.
  exists []. now rewrite app_nil_r.
Qed.

Lemma grows_trans parent s1 s2 s3 :
  grows parent s1 s2 -> grows parent s2 s3 -> grows parent s1 s3.
Proof.
  intros G1 G2 r o H.
  destruct (G1 r o H) as (o2 & H2 & K2 & P2 & a2 & C2 & N2).
  destruct (G2 r o2 H2) as (o3 & H3 & K3 & P3 & a3 & C3 & N3).
  exists o3. repeat split; try congruence.
  exists (a2 ++ a3). split.
  - now rewrite C3, C2, app_assoc.
  - intros Hne. now rewrite N2, N3.
Qed.

Lemma grows_appendChild_alloc (s : Store) (k : NodeKind) (parent : ref) :
  grows (Some parent) s
    (appendChild (fst (alloc s k)) parent (snd (alloc s k))).
Proof.
  intros r o H. rewrite (appendChild_alloc_nth s k parent r o H).
  destruct (Nat.eqb_spec r parent) as [->|Hne].
  - eexists. repeat split. exists [length s]. split; [reflexivity|].
    intros E. now elim E.
  - exists o. repeat split. exists []. now rewrite app_nil_r.
Qed.

Lemma parseTextBefore_grows data m st st' :
  parseTextBefore data m st = Normal st' ->
  grows (currentParent st) (store st) (store st').
Proof.
  unfold parseTextBefore.
  destruct (_ && _); [|intros H; injection H as <-; apply grows_refl].
  destruct (currentParent st) as [parent|]; [|discriminate].
  pose proof (grows_appendChild_alloc (store st)
    (TextKind (substring data (Z.to_nat (lastTextPos st))
                 (lastIndex st - length (matched m)))) parent) as G.
  unfold alloc in *. cbn [fst snd] in G.
  intros H. injection H as <-. exact G.
Qed.

End TreeBuilderMore.

(** X1.  [parse] ends on every input and from every [lastIndex] of
    [kMarkupPattern]: a match of the pattern is at least one character
    long, so the loop runs at most [length data + 1] times. *)
Theorem parse_terminates (lastIndex : nat) (data : jsstring) :
  exists result lastIndex', parse lastIndex data = Some (result, lastIndex').
Proof.
  unfold parse, parseRun.
  destruct (parseLoop_total data (S (length data)) (parseInit lastIndex))
    as [[[st|e] i] ->]; [lia | eauto | eauto].
Qed.



(** X3.  Nothing can follow a closing tag: once a closing tag has been
    accepted the current parent is [undefined], and the next tag of the
    input, whatever it is, raises a [TypeError]. *)
Theorem tag_after_closing_tag_raises data m m' st st' :
  closed (handleJSXTag (matched m)) = true ->
  parseToken data m st = Normal st' ->
  parseToken data m' st' = Throw TypeError.
Proof.
  intros Hc H. apply parseToken_undefined.
  now apply (parseToken_closed data m st st' Hc).
Qed.

(** X4.  A tag never removes or rewrites a node that is already there:
    every object keeps its kind and its parent, its children stay in
    place, and only the current parent gets new children, at the end of
    its list. *)
Theorem parseToken_keeps_nodes data m st st' :
  parseToken data m st = Normal st' ->
  grows (currentParent st) (store st) (store st').
Proof.
  unfold parseToken.
  destruct (parseTextBefore data m st) as [st1|] eqn:E; cbn [bind];
    [|discriminate].
  pose proof (parseTextBefore_grows _ _ _ _ E) as G1.
  apply parseTextBefore_fields in E as (Ecp & _ & _).
  destruct (closed _).
  - destruct (currentParent st1); [|discriminate].
    destruct (includes _ _); [|discriminate].
    intros H. injection H as <-. exact G1.
  - destruct (currentParent st1) as [parent|] eqn:P.
    + match goal with |- context [alloc ?S ?K] =>
        pose proof (grows_appendChild_alloc S K parent) as G2 end.
      unfold alloc in *. cbn [fst snd] in G2.
      rewrite <- Ecp in G1 |- *.
      destruct (negb _); intros H; injection H as <-; cbn [store];
        eapply grows_trans; eauto.
    + unfold alloc. discriminate.
Qed.

Lemma tag_after_closing_tag_raises_witness :
  exists st,
    parseToken (str "</null><b>") (mkMatch 0 (str "</null>") [] 7)
      (withLastIndex (parseInit 0) 7) = Normal st
    /\ parseToken (str "</null><b>") (mkMatch 7 (str "<b>") [] 10) st
       = Throw TypeError.
Proof.
  eexists. split; [vm_compute; reflexivity|].
  apply (tag_after_closing_tag_raises (str "</null><b>")
           (mkMatch 0 (str "</null>") [] 7) (mkMatch 7 (str "<b>") [] 10)
           (withLastIndex (parseInit 0) 7));
    [reflexivity | vm_compute; reflexivity].
Defined.

Lemma parseToken_keeps_nodes_witness :
  exists st,
    parseToken (str "<a>") (mkMatch 0 (str "<a>") [] 3)
      (withLastIndex (parseInit 0) 3) = Normal st
    /\ grows (Some 0) (store (parseInit 0)) (store st).
Proof.
  eexists. split; [vm_compute; reflexivity|].
  apply (parseToken_keeps_nodes (str "<a>") (mkMatch 0 (str "<a>") [] 3)
           (withLastIndex (parseInit 0) 3)).
  vm_compute. reflexivity.
Defined.

Section ParsedTree.

Lemma appendChild_alloc_parent (s : Store) (k : NodeKind) (parent : ref) :
  wfStore s -> parentAgree s -> rootFree s -> 0 < length s ->
  parent < length s ->
  parentAgree (appendChild (fst (alloc s k)) parent (snd (alloc s k)))
  /\ rootFree (appendChild (fst (alloc s k)) parent (snd (alloc s k))).
Proof.
  intros Hwf Hpa Hrf Hlen Hp.
  set (s' := appendChild (fst (alloc s k)) parent (snd (alloc s k))).
  assert (Hlen' : length s' = S (length s))
    by apply (appendChild_alloc_wf s k parent Hwf Hp).
  assert (Old : forall c oc, nth_error s c = Some oc ->
            exists oc', nth_error s' c = Some oc'
                        /\ parentNode oc' = parentNode oc).
  { intros c oc H. unfold s'. rewrite (appendChild_alloc_nth s k parent c oc H).
    eexists. split; [reflexivity|]. now destruct (c =? parent). }
  split.
  - intros p o c Ho Hc.
    assert (Hlt : p < length s') by (apply nth_error_Some; congruence).
    destruct (Nat.eq_dec p (length s)) as [->|Hpn].
    + unfold s' in Ho. rewrite appendChild_alloc_new in Ho by assumption.
      injection Ho as <-. destruct Hc.
    + assert (Hps : p < length s) by lia.
      destruct (nth_error s p) as [o0|] eqn:E0;
        [|apply nth_error_None in E0; lia].
      unfold s' in Ho. rewrite (appendChild_alloc_nth s k parent p o0 E0) in Ho.
      injection Ho as <-.
      destruct (Nat.eqb_spec p parent) as [->|Hne].
      * cbn [childNodes] in Hc. apply in_app_or in Hc as [Hc|[<-|[]]].
        -- destruct (Hpa parent o0 c E0 Hc) as (oc & Hoc & Ppc).
           destruct (Old c oc Hoc) as (oc' & Hoc' & Ppc').
           exists oc'. split; [assumption | congruence].
        -- exists (mkNodeObj k [] (Some parent)). split; [|reflexivity].
           unfold s'. now apply appendChild_alloc_new.
      * destruct (Hpa p o0 c E0 Hc) as (oc & Hoc & Ppc).
        destruct (Old c oc Hoc) as (oc' & Hoc' & Ppc').
        exists oc'. split; [assumption | congruence].
  - intros o Ho.
    destruct (nth_error s 0) as [o0|] eqn:E0;
      [|apply nth_error_None in E0; lia].
    destruct (Old 0 o0 E0) as (o' & Ho' & Pp).
    rewrite Ho in Ho'. injection Ho' as <-. rewrite Pp. now apply Hrf.
Qed.

Lemma appendChild_alloc_named (s : Store) (k : NodeKind) (parent : ref) :
  namedStore s -> parent < length s ->
  match k with ElementKind None _ _ _ _ => False | _ => True end ->
  namedStore (appendChild (fst (alloc s k)) parent (snd (alloc s k))).
Proof.
  intros Hn Hp Hk r o Ho Hr.
  destruct (nth_error s r) as [o0|] eqn:E0.
  - rewrite (appendChild_alloc_nth s k parent r o0 E0) in Ho.
    injection Ho as <-. specialize (Hn r o0 E0 Hr).
    now destruct (r =? parent).
  - apply nth_error_None in E0.
    assert (Hlt : r < S (length s)).
    { assert (L : nth_error
                    (appendChild (fst (alloc s k)) parent (snd (alloc s k))) r
                  <> None) by congruence.
      apply nth_error_Some in L.
      unfold appendChild, alloc in L. cbn [fst snd] in L.
      rewrite !update_length, length_app in L. cbn [length] in L. lia. }
    assert (r = length s) as -> by lia.
    rewrite appendChild_alloc_new in Ho by assumption.
    now injection Ho as <-.
Qed.

Lemma parseInit_tree (lastIndex : nat) : treeState (parseInit lastIndex).
Proof.
  split; [apply parseInit_wf|]. unfold parseInit. cbn.
  split; [|split].
  - intros [|[|p]] o c H; cbn in H; try discriminate.
    injection H as <-. intros [].
  - intros o H. cbn in H. now injection H as <-.
  - intros [|[|r]] o H Hr; cbn in H; try discriminate. now elim Hr.
Qed.

Lemma parseTextBefore_tree data m st st' :
  treeState st -> parseTextBefore data m st = Normal st' -> treeState st'.
Proof.
  intros (Hwf & Hpa & Hrf & Hn) E.
  split; [eapply parseTextBefore_wf; eauto|].
  destruct Hwf as (W & Hlen & Hcp). revert E. unfold parseTextBefore.
  destruct (_ && _); [|intros H; injection H as <-; auto].
  destruct (currentParent st) as [parent|]; [|discriminate].
  match goal with |- context [alloc ?S ?K] =>
    destruct (appendChild_alloc_parent S K parent W Hpa Hrf Hlen Hcp)
      as [A B];
    pose proof (appendChild_alloc_named S K parent Hn Hcp I) as C end.
  unfold alloc in *. cbn [fst snd] in *.
  intros H. injection H as <-. cbn [store]. auto.
Qed.

Lemma parseToken_tree data m st st' :
  treeState st -> parseToken data m st = Normal st' -> treeState st'.
Proof.
  intros Hst E. split; [destruct Hst; eapply parseToken_wf; eauto|].
  revert E. unfold parseToken.
  destruct (parseTextBefore data m st) as [st1|] eqn:E1; cbn [bind];
    [|discriminate].
  apply (parseTextBefore_tree _ _ _ _ Hst) in E1.
  destruct E1 as ((W & Hlen & Hcp) & Hpa & Hrf & Hn).
  destruct (closed _).
  - destruct (currentParent st1); [|discriminate].
    destruct (includes _ _); [|discriminate].
    intros H. injection H as <-. cbn [store]. auto.
  - destruct (currentParent st1) as [parent|] eqn:P.
    + match goal with |- context [alloc ?S ?K] =>
        destruct (appendChild_alloc_parent S K parent W Hpa Hrf Hlen Hcp)
          as [A B];
        pose proof (appendChild_alloc_named S K parent Hn Hcp I) as C end.
      unfold alloc in *. cbn [fst snd] in *.
      destruct (negb _); intros H; injection H as <-; cbn [store]; auto.
    + unfold alloc. discriminate.
Qed.

Lemma parseLoop_tree data : forall fuel st st' i,
  treeState st ->
  parseLoop fuel data st = Some (Normal st', i) -> treeState st'.
Proof.
  induction fuel as [|fuel IH]; intros st st' i Hst; cbn [parseLoop];
    [discriminate|].
  destruct (exec kMarkupPattern (lastIndex st) data) as [[m|] j].
  - destruct (parseToken data m (withLastIndex st j)) as [st1|] eqn:T;
      [|discriminate].
    apply IH. eapply parseToken_tree; [|exact T]. exact Hst.
  - intros H. injection H as <- _. exact Hst.
Qed.

Lemma traverse_Forall2 {A B} (f : A -> option B) (l : list A) :
  forall bs, traverse f l = Some bs -> Forall2 (fun a b => f a = Some b) l bs.
Proof.
  induction l as [|a l IH]; simpl; intros bs H.
  - injection H as <-. constructor.
  - destruct (f a) as [b|] eqn:E; [|discriminate].
    destruct (traverse f l) as [bs'|]; [|discriminate].
    injection H as <-. constructor; auto.
Qed.

(** [translate] does not raise on the node of an object other than the
    root. *)
Lemma translate_nodeAt (s : Store) :
  wfStore s -> namedStore s ->
  forall depth r node, r <> 0 -> nodeAt depth s r = Some node ->
                       exists v, translate node = Normal v.
Proof.
  intros Hwf Hn. induction depth as [|depth IH]; intros r node Hr;
    cbn [nodeAt]; [discriminate|].
  destruct (nth_error s r) as [o|] eqn:E; [|discriminate].
  destruct (traverse (nodeAt depth s) (childNodes o)) as [children|] eqn:T;
    [|discriminate].
  intros H. injection H as <-. rewrite translate_unfold.
  assert (A : exists vs, translateAll children = Normal vs).
  { apply traverse_Forall2 in T. pose proof (Hwf r o E) as F.
    clear E. revert F. induction T as [|c n cs ns Hc _ IHT]; intros F.
    - simpl. eauto.
    - apply Forall_cons_iff in F as [[Hlt _] F]. cbn [translateAll].
      destruct (IH c n ltac:(lia) Hc) as [v ->].
      destruct (IHT F) as [vs ->]. simpl. eauto. }
  destruct A as [vs ->]. cbn [bind].
  specialize (Hn r o E Hr).
  destruct (kind o) as [text|[t|] ? ? ? ?]; [| |now elim Hn].
  - destruct (nonEmpty (trim text)); eauto.
  - eauto.
Qed.

Lemma parse_builds_a_tree_aux (lastIndex : nat) (data : jsstring)
    (s : Store) (root : ref) (lastIndex' : nat) :
  parse lastIndex data = Some (Normal (s, root), lastIndex') ->
  root = 0 /\ wfStore s /\ namedStore s.
Proof.
  unfold parse, parseRun.
  destruct (parseLoop _ _ _) as [[[st|e] i]|] eqn:E; try discriminate.
  intros H. injection H as <- <- _.
  apply parseLoop_tree in E; [|apply parseInit_tree].
  destruct E as ((W & _) & Hpa & Hrf & Hn). auto.
Qed.

Lemma appendChild_alloc_attached (s : Store) (k : NodeKind) (parent : ref) :
  wfStore s -> parent < length s -> attached s -> listedOnce s ->
  attached (appendChild (fst (alloc s k)) parent (snd (alloc s k)))
  /\ listedOnce (appendChild (fst (alloc s k)) parent (snd (alloc s k))).
Proof.
  intros W Hp Ha Hl.
  set (s' := appendChild (fst (alloc s k)) parent (snd (alloc s k))).
  assert (Len : forall r o, nth_error s' r = Some o -> r < S (length s)).
  { intros r o Ho.
    assert (L : nth_error s' r <> None) by congruence.
    apply nth_error_Some in L. unfold s', appendChild, alloc in L.
    cbn [fst snd] in L. rewrite !update_length, length_app in L.
    cbn [length] in L. lia. }
  assert (Hparent : exists o0, nth_error s parent = Some o0).
  { destruct (nth_error s parent) as [o0|] eqn:E; [eauto|].
    apply nth_error_None in E. lia. }
  destruct Hparent as [o0 E0].
  pose proof (appendChild_alloc_nth s k parent parent o0 E0) as Np.
  rewrite Nat.eqb_refl in Np. fold s' in Np.
  split.
  - intros c oc Hoc Hc.
    destruct (nth_error s c) as [oc0|] eqn:Ec.
    + pose proof (appendChild_alloc_nth s k parent c oc0 Ec) as Nc.
      fold s' in Nc. rewrite Hoc in Nc. injection Nc as ->.
      destruct (Ha c oc0 Ec Hc) as (p & op & Pp & Np' & Hin).
      exists p.
      pose proof (appendChild_alloc_nth s k parent p op Np') as Nq.
      fold s' in Nq. eexists. split; [|split; [exact Nq|]].
      * now destruct (c =? parent).
      * destruct (p =? parent); [|assumption].
        cbn [childNodes]. apply in_or_app. now left.
    + apply nth_error_None in Ec. pose proof (Len c oc Hoc) as L.
      assert (c = length s) as -> by lia.
      unfold s' in Hoc. rewrite appendChild_alloc_new in Hoc by assumption.
      injection Hoc as <-. exists parent. eexists.
      split; [reflexivity|]. split; [exact Np|].
      cbn [childNodes]. apply in_or_app. right. now left.
  - intros r o Ho.
    destruct (nth_error s r) as [o1|] eqn:Er.
    + pose proof (appendChild_alloc_nth s k parent r o1 Er) as Nr.
      fold s' in Nr. rewrite Ho in Nr. injection Nr as ->.
      pose proof (Hl r o1 Er) as D.
      destruct (r =? parent); [|assumption].
      cbn [childNodes].
      assert (Hnew : ~ In (length s) (childNodes o1)).
      { intros Hin. pose proof (W r o1 Er) as F.
        rewrite Forall_forall in F. specialize (F _ Hin). cbv beta in F.
        lia. }
      clear - D Hnew. induction (childNodes o1) as [|c l IH]; cbn [app].
      * constructor; [intros []|constructor].
      * inversion D as [|? ? Hc Dl]; subst. constructor.
        -- intros Hin. apply in_app_or in Hin as [Hin|[<-|[]]];
             [now apply Hc | apply Hnew; now left].
        -- apply IH; [assumption|]. intros Hin. apply Hnew. now right.
    + apply nth_error_None in Er. pose proof (Len r o Ho) as L.
      assert (r = length s) as -> by lia.
      unfold s' in Ho. rewrite appendChild_alloc_new in Ho by assumption.
      injection Ho as <-. constructor.
Qed.

Lemma parseInit_linked (lastIndex : nat) : linkedState (parseInit lastIndex).
Proof.
  split; [apply parseInit_tree|]. unfold parseInit. cbn. split.
  - intros [|[|c]] oc H Hc; cbn in H; try discriminate. now elim Hc.
  - intros [|[|r]] o H; cbn in H; try discriminate.
    injection H as <-. constructor.
Qed.

Lemma parseTextBefore_linked data m st st' :
  linkedState st -> parseTextBefore data m st = Normal st' -> linkedState st'.
Proof.
  intros (Ht & Ha & Hl) E.
  split; [eapply parseTextBefore_tree; eauto|].
  destruct Ht as ((W & Hlen & Hcp) & _). revert E. unfold parseTextBefore.
  destruct (_ && _); [|intros H; injection H as <-; auto].
  destruct (currentParent st) as [parent|]; [|discriminate].
  match goal with |- context [alloc ?S ?K] =>
    pose proof (appendChild_alloc_attached S K parent W Hcp Ha Hl) as A end.
  unfold alloc in *. cbn [fst snd] in *.
  intros H. injection H as <-. cbn [store]. exact A.
Qed.

Lemma parseToken_linked data m st st' :
  linkedState st -> parseToken data m st = Normal st' -> linkedState st'.
Proof.
  intros Hst E.
  split; [destruct Hst; eapply parseToken_tree; eauto|].
  revert E. unfold parseToken.
  destruct (parseTextBefore data m st) as [st1|] eqn:E1; cbn [bind];
    [|discriminate].
  apply (parseTextBefore_linked _ _ _ _ Hst) in E1.
  destruct E1 as (((W & Hlen & Hcp) & _) & Ha & Hl).
  destruct (closed _).
  - destruct (currentParent st1); [|discriminate].
    destruct (includes _ _); [|discriminate].
    intros H. injection H as <-. cbn [store]. auto.
  - destruct (currentParent st1) as [parent|] eqn:P.
    + match goal with |- context [alloc ?S ?K] =>
        pose proof (appendChild_alloc_attached S K parent W Hcp Ha Hl) as A
      end.
      unfold alloc in *. cbn [fst snd] in *.
      destruct (negb _); intros H; injection H as <-; cbn [store]; exact A.
    + unfold alloc. discriminate.
Qed.

Lemma parseLoop_linked data : forall fuel st st' i,
  linkedState st ->
  parseLoop fuel data st = Some (Normal st', i) -> linkedState st'.
Proof.
  induction fuel as [|fuel IH]; intros st st' i Hst; cbn [parseLoop];
    [discriminate|].
  destruct (exec kMarkupPattern (lastIndex st) data) as [[m|] j].
  - destruct (parseToken data m (withLastIndex st j)) as [st1|] eqn:T;
      [|discriminate].
    apply IH. eapply parseToken_linked; [|exact T]. exact Hst.
  - intros H. injection H as <- _. exact Hst.
Qed.

Lemma rootOf_more (s : Store) : forall steps r root,
  rootOf s steps r = Some root -> rootOf s (S steps) r = Some root.
Proof.
  induction steps as [|steps IH]; intros r root; [discriminate|].
  cbn [rootOf]. destruct (nth_error s r) as [o|]; [|discriminate].
  destruct (parentNode o) as [p|]; [|auto].
  intros H. apply IH in H. exact H.
Qed.

Lemma rootOf_enough (s : Store) (steps steps' : nat) (r root : ref) :
  steps <= steps' -> rootOf s steps r = Some root ->
  rootOf s steps' r = Some root.
Proof.
  induction 1 as [|steps' _ IH]; [auto|]. intros H.
  apply rootOf_more. auto.
Qed.

(** With every object attached below an older one, the way up from any
    object ends at the root. *)
Lemma rootOf_attached (s : Store) :
  wfStore s -> rootFree s -> attached s ->
  forall r, r < length s -> rootOf s (length s) r = Some 0.
Proof.
  intros W Hrf Ha.
  assert (A : forall n r, r < n -> r < length s -> rootOf s (S r) r = Some 0).
  { induction n as [|n IH]; intros r Hr Hlen; [lia|].
    destruct (nth_error s r) as [o|] eqn:E;
      [|apply nth_error_None in E; lia].
    cbn [rootOf]. rewrite E.
    destruct (Nat.eq_dec r 0) as [->|Hr0].
    - now rewrite (Hrf o E).
    - destruct (Ha r o E Hr0) as (p & op & -> & Np & Hin).
      pose proof (W p op Np) as F. rewrite Forall_forall in F.
      specialize (F r Hin). cbv beta in F.
      apply (rootOf_enough s (S p)); [lia|]. apply IH; lia. }
  intros r Hr. apply (rootOf_enough s (S r)); [lia|]. apply (A (S r)); lia.
Qed.

Lemma parse_links_every_node (lastIndex : nat) (data : jsstring)
    (s : Store) (root : ref) (lastIndex' : nat) :
  parse lastIndex data = Some (Normal (s, root), lastIndex') ->
  0 < length s /\ parentAgree s /\ rootFree s /\ attached s /\ listedOnce s.
Proof.
  unfold parse, parseRun.
  destruct (parseLoop _ _ _) as [[[st|e] i]|] eqn:E; try discriminate.
  intros H. injection H as <- _ _.
  apply parseLoop_linked in E; [|apply parseInit_linked].
  destruct E as (((W & Hlen & _) & Hpa & Hrf & Hn) & Ha & Hl). auto.
Qed.

End ParsedTree.

(** X5.  What [parse] returns is a tree under the root, which is the
    first object of the store and has no parent.  Every other object is
    a text node or an element with a tag name and has a [parentNode];
    that parent lists it among its [childNodes], was created before it,
    and lists no child twice; whatever an object lists as a child names
    that object as its [parentNode]; and following [parentNode] from any
    object leads to the root. *)
Theorem parse_builds_a_tree (lastIndex : nat) (data : jsstring)
    (s : Store) (root : ref) (lastIndex' : nat) :
  parse lastIndex data = Some (Normal (s, root), lastIndex') ->
  root = 0 /\ 0 < length s
  /\ wfStore s /\ parentAgree s /\ rootFree s /\ namedStore s
  /\ attached s /\ listedOnce s
  /\ forall r, r < length s -> rootOf s (length s) r = Some 0.
Proof.
  intros H.
  destruct (parse_builds_a_tree_aux _ _ _ _ _ H) as (-> & W & Hn).
  destruct (parse_links_every_node _ _ _ _ _ H) as (Hlen & Hpa & Hrf & Ha & Hl).
  repeat split; try assumption. now apply rootOf_attached.
Qed.

Lemma parse_builds_a_tree_witness :
  exists s, parse 0 (str "<div>a<br/>b</div>") = Some (Normal (s, 0), 0)
            /\ 0 = 0 /\ 0 < length s
            /\ wfStore s /\ parentAgree s /\ rootFree s /\ namedStore s
            /\ attached s /\ listedOnce s
            /\ forall r, r < length s -> rootOf s (length s) r = Some 0.
Proof.
  eexists. split; [vm_compute; reflexivity|].
  apply (parse_builds_a_tree 0 (str "<div>a<br/>b</div>") _ 0 0).
  vm_compute. reflexivity.
Defined.

(** X6.  Translating what [parse] returned never raises: the body of the
    loop of [parseJSX] raises what [parse] raised, or a [TypeError] when
    the root that [parse] returned has no child. *)
Theorem parseJSXStep_raises str_ m kLastIndex e k :
  parseJSXStep str_ m kLastIndex = Some (Throw e, k) ->
  parse kLastIndex (matched m) = Some (Throw e, k)
  \/ (e = TypeError
      /\ exists s, parse kLastIndex (matched m) = Some (Normal (s, 0), k)
                   /\ option_map childNodes (nth_error s 0) = Some []).
Proof.
  unfold parseJSXStep.
  destruct (parse kLastIndex (matched m)) as [[[[s root]|e'] k']|] eqn:P;
    try discriminate.
  - pose proof (parse_builds_a_tree_aux kLastIndex (matched m) s root k' P)
      as (-> & Hwf & Hn).
    destruct (nth_error s 0) as [rootObj|] eqn:R; [|discriminate].
    destruct (childNodes rootObj) as [|child rest] eqn:C.
    + intros H. injection H as <- <-. right. split; [reflexivity|].
      exists s. rewrite R. cbn. now rewrite C.
    + destruct (nodeAt (length s) s child) as [node|] eqn:N; [|discriminate].
      pose proof (Hwf 0 rootObj R) as F. rewrite C in F.
      apply Forall_inv in F.
      destruct (translate_nodeAt s Hwf Hn (length s) child node
                  ltac:(lia) N) as [v ->].
      discriminate.
  - intros H. injection H as <- <-. now left.
Qed.

(** ** Text without a tag *)

Section PlainText.

(** A pattern that starts with a literal character finds nothing in a
    text without that character. *)
Lemma search_lacks (c : ascii) (r : regex) (rest : jsstring) : forall pos,
  (forall pos' c' rest', Ascii.eqb c' c = false ->
                         matchAt r pos' (c' :: rest') = None) ->
  matchAt r (pos + length rest) [] = None ->
  lacks c rest = true -> search r pos rest = None.
Proof.
  induction rest as [|c' rest IH]; intros pos Hc He H.
  - cbn [search]. cbn [length] in He. rewrite Nat.add_0_r in He.
    now rewrite He.
  - simpl in H. apply andb_prop in H as [H1 H2]. apply negb_true_iff in H1.
    cbn [search]. rewrite (Hc pos c' rest H1). apply IH; auto.
    cbn [length] in He. now rewrite Nat.add_succ_r in He.
Qed.

Lemma exec_lacks (c : ascii) (r : regex) (s : jsstring) (lastIndex : nat) :
  (forall pos' c' rest', Ascii.eqb c' c = false ->
                         matchAt r pos' (c' :: rest') = None) ->
  (forall pos', matchAt r pos' [] = None) ->
  lacks c s = true -> exec r lastIndex s = (None, 0).
Proof.
  intros Hc He H. unfold exec. destruct (length s <? lastIndex); [reflexivity|].
  rewrite (search_lacks c r); auto. now apply forallb_skipn.
Qed.

Lemma JSX_STRING_first pos c rest :
  Ascii.eqb c "<"%char = false -> matchAt JSX_STRING pos (c :: rest) = None.
Proof.
  intros H. unfold matchAt, JSX_STRING. cbn [seq matcher orElse].
  now rewrite H.
Qed.

Lemma kMarkupPattern_first pos c rest :
  Ascii.eqb c "<"%char = false -> matchAt kMarkupPattern pos (c :: rest) = None.
Proof.
  intros H. unfold matchAt, kMarkupPattern. cbn [seq].
  now rewrite matcher_seq, matcher_char, H.
Qed.

End PlainText.

(** X7.  A string without [<] holds no JSX: [parseJSX] returns it as it
    is, whatever state the earlier calls left the patterns in, and
    leaves [JSX_STRING.lastIndex] at 0 and [kMarkupPattern] untouched. *)
Theorem parseJSX_plain_text (p : Patterns) (str_ : jsstring) (fuel : nat) :
  lacks "<"%char str_ = true ->
  parseJSX (S fuel) p str_
  = Some (Normal str_, mkPatterns 0 (kMarkupPattern_lastIndex p)).
Proof.
  intros H. cbn [parseJSX].
  now rewrite (exec_lacks "<"%char JSX_STRING str_ _ JSX_STRING_first
                 (fun _ => eq_refl) H).
Qed.

Lemma parseJSX_plain_text_witness :
  parseJSX 1 (mkPatterns 3 5) (str "const a = 1 + 2;")
  = Some (Normal (str "const a = 1 + 2;"), mkPatterns 0 5).
Proof.
  apply (parseJSX_plain_text (mkPatterns 3 5) (str "const a = 1 + 2;") 0).
  reflexivity.
Defined.

(** X8.  [parse] makes no node of a text without [<]: the result is the
    root alone, an element without tag name, attributes and children. *)
Theorem parse_plain_text (start : nat) (data : jsstring) :
  lacks "<"%char data = true ->
  parse start data
  = Some (Normal ([mkNodeObj (ElementKind None [] [] None []) [] None], 0), 0).
Proof.
  intros H. unfold parse, parseRun. cbn [parseLoop].
  change (lastIndex (parseInit start)) with start.
  now rewrite (exec_lacks "<"%char kMarkupPattern data _ kMarkupPattern_first
                 (fun _ => eq_refl) H).
Qed.

Lemma parse_plain_text_witness :
  parse 0 (str "hello world")
  = Some (Normal ([mkNodeObj (ElementKind None [] [] None []) [] None], 0), 0).
Proof. apply (parse_plain_text 0 (str "hello world")). reflexivity. Defined.

Lemma parseJSXStep_raises_witness :
  exists e,
    parseJSXStep (str "<div><span></div>")
      (mkMatch 0 (str "<div><span></div>") [] 17) 0 = Some (Throw e, 17)
    /\ (parse 0 (str "<div><span></div>") = Some (Throw e, 17)
        \/ (e = TypeError
            /\ exists s,
                 parse 0 (str "<div><span></div>") = Some (Normal (s, 0), 17)
                 /\ option_map childNodes (nth_error s 0) = Some [])).
Proof.
  eexists. split; [vm_compute; reflexivity|].
  apply (parseJSXStep_raises (str "<div><span></div>")
           (mkMatch 0 (str "<div><span></div>") [] 17) 0).
  vm_compute. reflexivity.
Defined.

(** ** More about the attribute scanner *)

Section AttributeScannerMore.

Lemma string_eqb_eq (a b : jsstring) : string_eqb a b = true <-> a = b.
Proof.
  unfold string_eqb. destruct (list_eq_dec ascii_dec a b); split; auto.
  discriminate.
Qed.

Lemma trimStart_shape (s : jsstring) :
  match trimStart s with [] => True | c :: _ => isWhiteSpace c = false end.
Proof.
  induction s as [|c s IH]; simpl; [exact I|].
  destruct (isWhiteSpace c) eqn:E; [exact IH | exact E].
Qed.

Lemma trimStart_idem (s : jsstring) : trimStart (trimStart s) = trimStart s.
Proof.
  pose proof (trimStart_shape s) as H.
  destruct (trimStart s) as [|c t]; [reflexivity|]. simpl. now rewrite H.
Qed.

Lemma trimStart_snoc (s : jsstring) (c : ascii) :
  isWhiteSpace c = false -> trimStart (s ++ [c]) = trimStart s ++ [c].
Proof.
  intros H. induction s as [|d s IH]; simpl.
  - now rewrite H.
  - destruct (isWhiteSpace d); [exact IH | reflexivity].
Qed.

Lemma trimEnd_cons (c : ascii) (s : jsstring) :
  isWhiteSpace c = false -> trimEnd (c :: s) = c :: trimEnd s.
Proof.
  intros H. unfold trimEnd. cbn [rev].
  now rewrite trimStart_snoc, rev_app_distr by assumption.
Qed.

Lemma trimEnd_idem (s : jsstring) : trimEnd (trimEnd s) = trimEnd s.
Proof. unfold trimEnd. now rewrite rev_involutive, trimStart_idem. Qed.

Lemma trim_idem (s : jsstring) : trimmed (trim s).
Proof.
  unfold trimmed, trim. pose proof (trimStart_shape s) as H.
  destruct (trimStart s) as [|c t]; [reflexivity|].
  rewrite (trimEnd_cons c t H). cbn [trimStart]. rewrite H.
  rewrite <- (trimEnd_cons c t H). apply trimEnd_idem.
Qed.

Lemma forallb_trimStart (f : ascii -> bool) (s : jsstring) :
  forallb f s = true -> forallb f (trimStart s) = true.
Proof.
  induction s as [|c s IH]; simpl; [auto|]. intros H.
  destruct (isWhiteSpace c); [|exact H].
  apply andb_prop in H as [_ H]. auto.
Qed.

Lemma forallb_trim (f : ascii -> bool) (s : jsstring) :
  forallb f s = true -> forallb f (trim s) = true.
Proof.
  intros H. unfold trim, trimEnd.
  rewrite forallb_rev. apply forallb_trimStart. rewrite forallb_rev.
  now apply forallb_trimStart.
Qed.

Lemma setOwn_keys (o : JSObject) (key value x : jsstring) :
  In x (map fst (setOwn o key value)) -> x = key \/ In x (map fst o).
Proof.
  induction o as [|[k v] o IH]; simpl.
  - intros [H|[]]. now left.
  - destruct (string_eqb k key); simpl; intros [H|H]; auto.
    destruct (IH H); auto.
Qed.

Lemma setOwn_NoDup (o : JSObject) (key value : jsstring) :
  NoDup (map fst o) -> NoDup (map fst (setOwn o key value)).
Proof.
  induction o as [|[k v] o IH]; simpl; intros H.
  - constructor; [intros []|constructor].
  - destruct (string_eqb k key) eqn:E; [exact H|].
    inversion H as [|? ? Hn Hd]; subst. simpl. constructor; auto.
    intros Hin. apply setOwn_keys in Hin as [->|Hin]; auto.
    assert (string_eqb key key = true) by now apply string_eqb_eq.
    congruence.
Qed.

Lemma setOwn_Forall (P : jsstring * jsstring -> Prop) (o : JSObject)
    (key value : jsstring) :
  Forall P o -> P (key, value) -> Forall P (setOwn o key value).
Proof.
  intros H Hp. induction H as [|[k v] o Hk Ho IH]; simpl.
  - constructor; auto.
  - destruct (string_eqb k key) eqn:E.
    + apply string_eqb_eq in E as ->. constructor; auto.
    + constructor; auto.
Qed.

Lemma storePair_inv (o : JSObject) (key value : jsstring) :
  NoDup (map fst o) -> Forall okPair o -> forallb keyChar key = true ->
  NoDup (map fst (storePair o key value))
  /\ Forall okPair (storePair o key value).
Proof.
  intros Hn Hf Hk. unfold storePair, Obj.set.
  destruct (string_eqb (trim key) (str "__proto__")); [auto|].
  split; [now apply setOwn_NoDup|].
  apply setOwn_Forall; [assumption|].
  split; [apply trim_idem|]. split; [apply trim_idem|].
  now apply forallb_trim.
Qed.

Lemma propsStep_inv (st : PropsState) (char : ascii) :
  propsInv st -> propsInv (propsStep st char).
Proof.
  destruct st as [a key value q qt b p]. intros (Hn & Hf & Hk).
  unfold propsInv in *. cbn [attrs currentKey] in *. unfold propsStep.
  destruct q; [destruct (string_eqb _ _); cbn; auto|].
  destruct b; [destruct (Ascii.eqb char "}"); cbn; auto|].
  destruct (Ascii.eqb char "=") eqn:E1; [cbn; auto|].
  destruct (Ascii.eqb char dquote || Ascii.eqb char squote) eqn:E2;
    [cbn; auto|].
  destruct (Ascii.eqb char "{") eqn:E3; [cbn; auto|].
  destruct (Ascii.eqb char " " && p && nonEmpty (trim value)).
  - cbn [attrs currentKey].
    destruct (storePair_inv a key value Hn Hf Hk). auto.
  - destruct p; cbn [attrs currentKey]; auto.
    repeat split; auto. rewrite forallb_app, Hk. cbn. unfold keyChar.
    apply orb_false_elim in E2 as [-> ->]. now rewrite E1, E3.
Qed.

Lemma propsScan_inv (propsString : jsstring) : forall st,
  propsInv st -> propsInv (propsScan propsString st).
Proof.
  unfold propsScan.
  induction propsString as [|c s IH]; intros st H; [exact H|].
  cbn [fold_left]. apply IH. now apply propsStep_inv.
Qed.

Lemma parseProps_inv (propsString : jsstring) :
  NoDup (map fst (parseProps propsString))
  /\ Forall okPair (parseProps propsString).
Proof.
  unfold parseProps, propsFinish.
  assert (H : propsInv (propsScan propsString propsInit)).
  { apply propsScan_inv. repeat split; constructor. }
  destruct H as (Hn & Hf & Hk).
  destruct (_ && _); [|auto]. now apply storePair_inv.
Qed.

Lemma propsScan_names (propsString : jsstring) : forall key quoteType,
  forallb keyChar propsString = true ->
  propsScan propsString (mkPropsState [] key [] false quoteType false false)
  = mkPropsState [] (key ++ propsString) [] false quoteType false false.
Proof.
  unfold propsScan.
  induction propsString as [|c s IH]; intros key qt H.
  - now rewrite app_nil_r.
  - simpl in H. apply andb_prop in H as [Hc Hs]. cbn [fold_left].
    unfold keyChar in Hc.
    apply andb_prop in Hc as [Hc H4]. apply andb_prop in Hc as [Hc H3].
    apply andb_prop in Hc as [H1 H2].
    apply negb_true_iff in H1, H2, H3, H4.
    unfold propsStep at 2. rewrite H1, H2, H3, H4. cbn [orb andb].
    rewrite andb_false_r. cbn [andb].
    rewrite IH by assumption. now rewrite <- app_assoc.
Qed.

End AttributeScannerMore.



(** X10.  Every key and every value that [parseProps] stores comes out of
    [trim]: none starts or ends with white space. *)
Theorem parseProps_trimmed (propsString : jsstring) :
  Forall (fun kv => trimmed (fst kv) /\ trimmed (snd kv))
         (parseProps propsString).
Proof.
  eapply Forall_impl; [|apply parseProps_inv].
  intros kv (H1 & H2 & _). auto.
Qed.

(** X11.  No key that [parseProps] stores holds an equals sign, a quote
    or an opening brace: the scanner never adds these to a key. *)
Theorem parseProps_key_characters (propsString : jsstring) :
  Forall (fun kv => forallb keyChar (fst kv) = true) (parseProps propsString).
Proof.
  eapply Forall_impl; [|apply parseProps_inv].
  intros kv (_ & _ & H). exact H.
Qed.

(** X12.  An attribute string without equals sign, quote and opening
    brace gives no attribute at all: names without a value are read as
    one long key, which is dropped at the end for want of a value. *)
Theorem parseProps_without_values (propsString : jsstring) :
  forallb keyChar propsString = true -> parseProps propsString = [].
Proof.
  intros H. unfold parseProps, propsInit.
  rewrite propsScan_names by assumption.
  unfold propsFinish. cbn [currentKey currentValue attrs].
  now rewrite andb_false_r.
Qed.

Lemma parseProps_without_values_witness :
  parseProps (str "disabled checked hidden") = [].
Proof.
  apply (parseProps_without_values (str "disabled checked hidden")).
  reflexivity.
Defined.

(** ** Reading a tag *)

Section TagFacts.

Lemma findFrom_lacks (c : ascii) (a : jsstring) : forall pos,
  lacks c a = true -> findFrom [c] a pos = None.
Proof.
  induction a as [|x a IH]; intros pos H; [reflexivity|].
  simpl in H. apply andb_prop in H as [Hx Ha]. apply negb_true_iff in Hx.
  cbn [findFrom isPrefix]. rewrite Ascii.eqb_sym, Hx. cbn [andb]. now apply IH.
Qed.

Lemma findFrom_first (c : ascii) (a rest : jsstring) : forall pos,
  lacks c a = true -> findFrom [c] (a ++ c :: rest) pos = Some (pos + length a).
Proof.
  induction a as [|x a IH]; intros pos H.
  - cbn [app findFrom isPrefix length]. rewrite Ascii.eqb_refl. cbn [andb].
    now rewrite Nat.add_0_r.
  - simpl in H. apply andb_prop in H as [Hx Ha]. apply negb_true_iff in Hx.
    cbn [app findFrom isPrefix]. rewrite Ascii.eqb_sym, Hx. cbn [andb].
    rewrite IH by assumption. cbn [length]. f_equal. lia.
Qed.

Lemma slice_inner2 (c d e : ascii) (s : jsstring) :
  slice (c :: s ++ [d; e]) 1 (-2) = s.
Proof.
  unfold slice.
  assert (L : length (c :: s ++ [d; e]) = length s + 3)
    by (cbn [length]; rewrite length_app; cbn [length]; lia).
  rewrite L. change 1%Z with (Z.of_nat 1).
  rewrite relIndex_nat by lia.
  assert (R : relIndex (length s + 3) (-2) = length s + 1)
    by (unfold relIndex; cbn [Z.ltb Z.compare]; lia).
  rewrite R. cbn [skipn].
  replace (length s + 1 - 1) with (length s + 0) by lia.
  rewrite firstn_app_2. simpl. apply app_nil_r.
Qed.

Lemma trimStart_app_single (a : jsstring) (c : ascii) :
  trimStart (a ++ [c])
  = if forallb isWhiteSpace a then trimStart [c] else trimStart a ++ [c].
Proof.
  induction a as [|x a IH]; [reflexivity|]. cbn [app trimStart forallb].
  destruct (isWhiteSpace x); [exact IH | reflexivity].
Qed.

Lemma trimEnd_cons_any (c : ascii) (u : jsstring) :
  trimEnd (c :: u)
  = if forallb isWhiteSpace (c :: u) then [] else c :: trimEnd u.
Proof.
  unfold trimEnd. cbn [rev forallb]. rewrite trimStart_app_single, forallb_rev.
  destruct (forallb isWhiteSpace u) eqn:E.
  - rewrite andb_true_r. rewrite (trimStart_whitespace (rev u))
      by now rewrite forallb_rev.
    cbn [trimStart]. now destruct (isWhiteSpace c).
  - rewrite andb_false_r. now rewrite rev_app_distr.
Qed.

Lemma trimStart_trimEnd (p : jsstring) :
  trimStart (trimEnd p) = trimEnd (trimStart p).
Proof.
  induction p as [|c p IH]; [reflexivity|].
  rewrite trimEnd_cons_any. cbn [forallb trimStart].
  destruct (isWhiteSpace c) eqn:C; cbn [andb].
  - destruct (forallb isWhiteSpace p) eqn:E.
    + cbn [trimStart]. symmetry. now apply trim_whitespace.
    + cbn [trimStart]. now rewrite C.
  - cbn [trimStart]. rewrite C. rewrite trimEnd_cons_any. cbn [forallb].
    now rewrite C.
Qed.

Lemma trim_trimEnd (p : jsstring) : trim (trimEnd p) = trim p.
Proof. unfold trim. now rewrite trimStart_trimEnd, trimEnd_idem. Qed.

Lemma trimEnd_app_name (n u : jsstring) :
  forallb (fun c => negb (isWhiteSpace c)) n = true ->
  trimEnd (n ++ u) = n ++ trimEnd u.
Proof.
  induction n as [|c n IH]; intros H; [reflexivity|].
  simpl in H. apply andb_prop in H as [Hc Hn]. apply negb_true_iff in Hc.
  cbn [app]. rewrite trimEnd_cons by assumption. now rewrite IH.
Qed.

Lemma name_lacks_space (n : jsstring) :
  forallb (fun c => negb (isWhiteSpace c)) n = true -> lacks " "%char n = true.
Proof.
  unfold lacks. induction n as [|c n IH]; [reflexivity|]. simpl.
  intros H. apply andb_prop in H as [Hc Hn]. rewrite IH by assumption.
  rewrite andb_true_r. apply negb_true_iff in Hc. apply negb_true_iff.
  destruct (Ascii.eqb_spec c " "%char) as [->|]; [discriminate Hc | reflexivity].
Qed.

Lemma endsWith_snoc (s : jsstring) (c d : ascii) :
  endsWith (s ++ [c]) [d] = Ascii.eqb d c.
Proof.
  unfold endsWith. rewrite rev_app_distr. cbn [rev app isPrefix].
  apply andb_true_r.
Qed.

Lemma endsWith_shift (s : jsstring) (c d : ascii) :
  endsWith (s ++ [c]) [d; c] = endsWith s [d].
Proof.
  unfold endsWith. rewrite rev_app_distr. cbn [rev app isPrefix].
  rewrite Ascii.eqb_refl. cbn [andb].
  destruct (rev s) as [|x r]; [reflexivity|]. cbn [isPrefix].
  reflexivity.
Qed.

(** The characters between the angle brackets, read by the second half
    of [handleJSXTag]. *)
Lemma handleJSXTag_open (b : jsstring) (sc : bool) :
  startsWith (b ++ tagEnd sc) (str "/") = false ->
  (sc = false -> endsWith b (str "/") = false) ->
  handleJSXTag ("<"%char :: b ++ tagEnd sc)
  = let innerContent := trim b in
    let spaceIndex := indexOf innerContent (str " ") in
    if (spaceIndex =? -1)%Z then mkJSXInfo innerContent [] sc false
    else mkJSXInfo (slice innerContent 0 spaceIndex)
           (trim (sliceFrom innerContent (spaceIndex + 1))) sc false.
Proof.
  intros Hs He. unfold handleJSXTag.
  assert (T : trim ("<"%char :: b ++ tagEnd sc) = "<"%char :: b ++ tagEnd sc).
  { destruct sc; cbn [tagEnd str list_ascii_of_string].
    - change (b ++ ["/"%char; ">"%char]) with (b ++ ["/"%char] ++ [">"%char]).
      rewrite app_assoc. now apply trim_fixed.
    - now apply trim_fixed. }
  rewrite T.
  assert (S1 : startsWith ("<"%char :: b ++ tagEnd sc) (str "</") = false).
  { unfold startsWith in *. cbn [str list_ascii_of_string isPrefix] in *.
    destruct (b ++ tagEnd sc) as [|x r]; [reflexivity|].
    cbn [isPrefix] in *. rewrite andb_true_r in Hs. now rewrite Hs. }
  rewrite S1.
  assert (S2 : endsWith ("<"%char :: b ++ tagEnd sc) (str "/>") = sc).
  { destruct sc; cbn [tagEnd str list_ascii_of_string].
    - replace ("<"%char :: b ++ ["/"%char; ">"%char])
        with ((("<"%char :: b) ++ ["/"%char]) ++ [">"%char])
        by now rewrite <- app_assoc.
      now rewrite endsWith_shift, endsWith_snoc.
    - change ("<"%char :: b ++ [">"%char])
        with (("<"%char :: b) ++ [">"%char]).
      rewrite endsWith_shift. specialize (He eq_refl).
      unfold endsWith in *. cbn [rev app].
      destruct (rev b) as [|x r]; [reflexivity|]. exact He. }
  rewrite S2.
  assert (S3 : slice ("<"%char :: b ++ tagEnd sc) 1 (if sc then -2 else -1)%Z
               = b).
  { destruct sc; cbn [tagEnd str list_ascii_of_string].
    - apply slice_inner2.
    - apply slice_inner. }
  rewrite S3. reflexivity.
Qed.

Lemma handleJSXTag_name_only (b : jsstring) (sc : bool) :
  lacks " "%char b = true ->
  startsWith (b ++ tagEnd sc) (str "/") = false ->
  (sc = false -> endsWith b (str "/") = false) ->
  handleJSXTag (str "<" ++ b ++ tagEnd sc) = mkJSXInfo (trim b) [] sc false.
Proof.
  intros H Hs He. cbn [str list_ascii_of_string app].
  rewrite handleJSXTag_open by assumption. cbv zeta.
  unfold indexOf. change (str " ") with [" "%char].
  rewrite findFrom_lacks; [reflexivity|].
  now apply forallb_trim.
Qed.

Lemma handleJSXTag_end_tag (n : jsstring) :
  lacks ">"%char n = true ->
  handleJSXTag (str "</" ++ n ++ str ">") = mkJSXInfo (trim n) [] false true.
Proof.
  intros H. unfold handleJSXTag.
  assert (T : trim (str "</" ++ n ++ str ">") = str "</" ++ n ++ str ">").
  { cbn [str list_ascii_of_string app].
    change ("<"%char :: "/"%char :: n ++ [">"%char])
      with ("<"%char :: ("/"%char :: n) ++ [">"%char]).
    now apply trim_fixed. }
  rewrite T.
  change (startsWith (str "</" ++ n ++ str ">") (str "</")) with true.
  cbv iota.
  assert (I : indexOf (str "</" ++ n ++ str ">") (str ">")
              = Z.of_nat (length (str "</") + length n)).
  { unfold indexOf.
    change (findFrom (str ">") (str "</" ++ n ++ str ">") 0)
      with (findFrom [">"%char] ("<"%char :: "/"%char :: n ++ ">"%char :: [])
              0).
    cbn [findFrom isPrefix Ascii.eqb Bool.eqb andb].
    now rewrite findFrom_first by exact H. }
  rewrite I. change 2%Z with (Z.of_nat (length (str "</"))).
  now rewrite slice_middle.
Qed.

End TagFacts.

(** X13.  [handleJSXTag] on a closing tag: the tag is marked closed, and
    its name is what stands between the slash and the first [>],
    trimmed. *)
Theorem handleJSXTag_closing_tag (n : jsstring) :
  lacks ">"%char n = true ->
  handleJSXTag (str "</" ++ n ++ str ">") = mkJSXInfo (trim n) [] false true.
Proof. apply handleJSXTag_end_tag. Qed.

Lemma handleJSXTag_closing_tag_witness :
  handleJSXTag (str "</" ++ str "div " ++ str ">")
  = mkJSXInfo (trim (str "div ")) [] false true.
Proof. apply (handleJSXTag_closing_tag (str "div ")). reflexivity. Defined.

(** X14.  [handleJSXTag] splits an opening tag at the first space only.
    When the characters between the angle brackets hold no space, all of
    them, trimmed, are the tag name, and there are no attributes: a name
    and an attribute that a tab or a line break separates stay
    together. *)
Theorem handleJSXTag_without_space (b : jsstring) (sc : bool) :
  lacks " "%char b = true ->
  startsWith (b ++ tagEnd sc) (str "/") = false ->
  (sc = false -> endsWith b (str "/") = false) ->
  handleJSXTag (str "<" ++ b ++ tagEnd sc) = mkJSXInfo (trim b) [] sc false.
Proof. apply handleJSXTag_name_only. Qed.

Lemma handleJSXTag_without_space_witness :
  handleJSXTag (str "<" ++ (str "div" ++ "009"%char :: str "id=x")
                  ++ tagEnd false)
  = mkJSXInfo (trim (str "div" ++ "009"%char :: str "id=x")) [] false false.
Proof.
  apply (handleJSXTag_without_space
           (str "div" ++ "009"%char :: str "id=x") false);
    [reflexivity | reflexivity | intros _; reflexivity].
Defined.

(** X15.  [handleJSXTag] reads an opening tag back: of a name, a space,
    an attribute string and the end of the tag it returns the name, the
    trimmed attribute string and whether the tag closes itself. *)
Theorem handleJSXTag_with_attributes (n p : jsstring) (sc : bool) :
  wfTagName n = true ->
  (sc = false -> endsWith p (str "/") = false) ->
  handleJSXTag (str "<" ++ n ++ str " " ++ p ++ tagEnd sc)
  = mkJSXInfo n (trim p) sc false.
Proof.
  intros Hn He. unfold wfTagName in Hn.
  destruct n as [|c n']; [discriminate|].
  apply andb_prop in Hn as [Hc Hn]. apply negb_true_iff in Hc.
  set (n := c :: n') in *.
  assert (Hc' : isWhiteSpace c = false).
  { simpl in Hn. apply andb_prop in Hn as [Hn _].
    now apply negb_true_iff in Hn. }
  cbn [str list_ascii_of_string]. change (["<"%char] ++ ?x) with ("<"%char :: x).
  rewrite !app_assoc. rewrite handleJSXTag_open.
  - cbv zeta.
    assert (T : trim ((n ++ [" "%char]) ++ p)
                = n ++ trimEnd (" "%char :: p)).
    { rewrite <- app_assoc. cbn [app]. unfold trim.
      unfold n at 1. cbn [app]. rewrite trimStart_head by assumption.
      now apply (trimEnd_app_name n). }
    rewrite T, trimEnd_cons_any. change (str " ") with [" "%char].
    cbn [forallb isWhiteSpace].
    change (isWhiteSpace " "%char) with true. cbn [andb].
    destruct (forallb isWhiteSpace p) eqn:W.
    + rewrite app_nil_r. unfold indexOf.
      rewrite findFrom_lacks by now apply name_lacks_space.
      cbn. now rewrite trim_whitespace.
    + unfold indexOf. rewrite findFrom_first by now apply name_lacks_space.
      cbn [Nat.add].
      destruct (Z.eqb_spec (Z.of_nat (length n)) (-1)) as [E|_]; [lia|].
      f_equal.
      * change (n ++ " "%char :: trimEnd p)
          with ([] ++ n ++ " "%char :: trimEnd p).
        change 0%Z with (Z.of_nat (length (@nil ascii))).
        change (Z.of_nat (length n))
          with (Z.of_nat (length (@nil ascii) + length n)).
        apply slice_middle.
      * change (n ++ " "%char :: trimEnd p)
          with (n ++ [" "%char] ++ trimEnd p).
        rewrite app_assoc.
        replace (Z.of_nat (length n) + 1)%Z
          with (Z.of_nat (length (n ++ [" "%char])))
          by (rewrite length_app; cbn [length]; lia).
        rewrite sliceFrom_suffix. apply trim_trimEnd.
  - unfold startsWith, n. cbn [app str list_ascii_of_string isPrefix].
    now rewrite Ascii.eqb_sym, Hc.
  - intros ->. specialize (He eq_refl). unfold endsWith in *.
    rewrite !rev_app_distr.
    destruct (rev p) as [|x r]; [reflexivity|]. exact He.
Qed.

Lemma handleJSXTag_with_attributes_witness :
  handleJSXTag (str "<" ++ str "img" ++ str " " ++ str "src={logo} alt='x' "
                  ++ tagEnd true)
  = mkJSXInfo (str "img") (trim (str "src={logo} alt='x' ")) true false.
Proof.
  apply (handleJSXTag_with_attributes (str "img")
           (str "src={logo} alt='x' ") true);
    [reflexivity | discriminate].
Defined.

(** ** The getters of the node classes *)

Section Getters.

Lemma matcher_literal (c : ascii) (lit : jsstring) :
  forall pos rest caps k,
  matcher (seq (map Char (c :: lit))) pos rest caps k
  = if isPrefix (c :: lit) rest
    then k (pos + length (c :: lit)) (skipn (length (c :: lit)) rest) caps
    else None.
Proof.
  revert c. induction lit as [|d lit IH]; intros c pos rest caps k.
  - cbn [map seq matcher isPrefix length]. destruct rest as [|x rest];
      [reflexivity|].
    cbn [isPrefix skipn]. rewrite Ascii.eqb_sym, andb_true_r.
    now rewrite Nat.add_1_r.
  - change (seq (map Char (c :: d :: lit)))
      with (Seq (Char c) (seq (map Char (d :: lit)))).
    rewrite matcher_seq. destruct rest as [|x rest]; [reflexivity|].
    rewrite matcher_char.
    change (isPrefix (c :: d :: lit) (x :: rest))
      with (Ascii.eqb c x && isPrefix (d :: lit) rest).
    rewrite (Ascii.eqb_sym c x).
    destruct (Ascii.eqb x c); [|reflexivity]. cbn [andb].
    rewrite IH.
    destruct (isPrefix (d :: lit) rest); [|reflexivity].
    change (skipn (length (c :: d :: lit)) (x :: rest))
      with (skipn (length (d :: lit)) rest).
    f_equal. cbn [length]. lia.
Qed.

Lemma whiteSpace_not_amp (c : ascii) :
  isWhiteSpace c = true -> Ascii.eqb "&"%char c = false.
Proof.
  destruct (Ascii.eqb_spec "&"%char c) as [<-|]; [discriminate | reflexivity].
Qed.

Lemma matcher_alt r1 r2 pos rest caps k :
  matcher (Alt r1 r2) pos rest caps k
  = orElse (matcher r1 pos rest caps k) (fun _ => matcher r2 pos rest caps k).
Proof. reflexivity. Qed.

Lemma matcher_nbsp pos rest caps k :
  matcher (literal "&nbsp;") pos rest caps k
  = if isPrefix (str "&nbsp;") rest then k (pos + 6) (skipn 6 rest) caps
    else None.
Proof.
  unfold literal. change (str "&nbsp;") with ("&"%char :: str "nbsp;").
  now rewrite matcher_literal.
Qed.

(** The loop of [whitespaceOnly], followed by the end of the input. *)
Lemma repeat_blank (k : Continuation) :
  (forall pos caps, exists res, k pos [] caps = Some res) ->
  (forall pos c rest caps, k pos (c :: rest) caps = None) ->
  forall n rest pos caps,
  length rest <= n ->
  match RepeatMatcher (matcher (Group 1 (Alt space (literal "&nbsp;"))))
          true [1] n pos rest caps k with
  | Some _ => true
  | None => false
  end = blank rest.
Proof.
  intros Kend Kmore. induction n as [|n IH]; intros rest pos caps Hn.
  - destruct rest; [|simpl in Hn; lia]. cbn [RepeatMatcher blank].
    now destruct (Kend pos caps) as [res ->].
  - cbn [RepeatMatcher]. rewrite matcher_group, matcher_alt, matcher_nbsp.
    destruct rest as [|c rest].
    + cbn [blank]. unfold space. cbn [matcher isPrefix orElse].
      now destruct (Kend pos caps) as [res ->].
    + cbn [length] in Hn. unfold space at 1. rewrite matcher_class.
      unfold classMatches at 1. cbn [existsb atomMatches xorb orb].
      rewrite orb_false_r. rewrite Kmore.
      change (blank (c :: rest))
        with (if isWhiteSpace c then blank rest
              else match rest with
                   | _ :: _ :: _ :: _ :: _ :: s'' =>
                       isPrefix (str "&nbsp;") (c :: rest) && blank s''
                   | _ => false
                   end).
      destruct (isWhiteSpace c) eqn:W.
      * assert (L : (pos <? S pos) = true) by (apply Nat.ltb_lt; lia).
        rewrite L.
        match goal with |- context [RepeatMatcher ?m true [1] n (S pos) rest ?cp k] =>
          generalize (IH rest (S pos) cp ltac:(lia));
          destruct (RepeatMatcher m true [1] n (S pos) rest cp k) as [r|];
          intros IH'
        end.
        -- cbn [orElse]. exact IH'.
        -- cbn [orElse isPrefix str list_ascii_of_string].
           rewrite (whiteSpace_not_amp c W). cbn [andb]. exact IH'.
      * cbn [orElse].
        destruct (isPrefix (str "&nbsp;") (c :: rest)) eqn:P.
        -- destruct rest as [|c1 [|c2 [|c3 [|c4 [|c5 rest]]]]];
             try (cbn in P; rewrite ?andb_false_r in P; discriminate P).
           cbn [skipn andb].
           assert (L : (pos <? pos + 6) = true) by (apply Nat.ltb_lt; lia).
           rewrite L.
           match goal with |- context [RepeatMatcher ?m true [1] n ?q rest ?cp k] =>
             generalize (IH rest q cp ltac:(cbn [length] in Hn; lia));
             destruct (RepeatMatcher m true [1] n q rest cp k) as [r|];
             intros IH'
           end.
           ++ cbn [orElse]. exact IH'.
           ++ cbn [orElse]. exact IH'.
        -- cbn [orElse].
           destruct rest as [|c1 [|c2 [|c3 [|c4 [|c5 rest]]]]]; reflexivity.
Qed.

Lemma whitespaceOnly_at_start (rest : jsstring) (pos : nat) :
  matchAt whitespaceOnly (S pos) rest = None.
Proof. reflexivity. Qed.

Lemma whitespaceOnly_after_start : forall rest pos,
  search whitespaceOnly (S pos) rest = None.
Proof.
  induction rest as [|c rest IH]; intros pos;
    rewrite search_unfold, whitespaceOnly_at_start; auto.
Qed.

Lemma Node_induction (P : Node -> Prop) :
  (forall kind childNodes, Forall P childNodes -> P (mkNode kind childNodes)) ->
  forall node, P node.
Proof.
  intros H. fix IH 1. intros [kind childNodes]. apply H.
  induction childNodes as [|c cs IHcs]; constructor; [apply IH | exact IHcs].
Qed.

Lemma dfs_unfold tagName rawAttrs attrs id classNames childNodes o :
  dfs (mkNode (ElementKind tagName rawAttrs attrs id classNames) childNodes) o
  = let o := write (elementLine tagName id classNames) o in
    let o := mkOutline (res o) (S (indention o)) in
    let o := fold_left (fun o node => dfsChild node o) childNodes o in
    mkOutline (res o) (Nat.pred (indention o)).
Proof.
  cbn [dfs]. cbv zeta.
  generalize (mkOutline (res (write (elementLine tagName id classNames) o))
                (S (indention (write (elementLine tagName id classNames) o)))).
  induction childNodes as [|c cs IH]; intros o'; [reflexivity|].
  exact (IH (dfsChild c o')).
Qed.

Lemma repeatString_S (s : jsstring) (n : nat) :
  repeatString s (S n) = repeatString s n ++ s.
Proof.
  unfold repeatString. induction n as [|n IH]; cbn [repeat concat].
  - now rewrite app_nil_r.
  - cbn [repeat concat] in IH. rewrite IH at 1. now rewrite app_assoc.
Qed.

Lemma write_shifts (text : jsstring) : shifts (write text).
Proof.
  intros [r n]. unfold write. cbn [res indention app map repeatString repeat concat].
  reflexivity.
Qed.

Lemma id_shifts : shifts (fun o => o).
Proof. intros [r n]. cbn. now rewrite app_nil_r. Qed.

Lemma shifts_compose (f g : Outline -> Outline) :
  shifts f -> shifts g -> shifts (fun o => g (f o)).
Proof.
  intros Hf Hg [r n].
  pose proof (Hf (mkOutline r n)) as E1.
  pose proof (Hf (mkOutline [] 0)) as E3.
  assert (E2 : forall r n,
             g (mkOutline r n)
             = mkOutline
                 (r ++ map (app (repeatString (str "  ") n))
                         (res (g (mkOutline [] 0)))) n)
    by (intros r' n'; apply (Hg (mkOutline r' n'))).
  cbn [res indention] in *.
  remember (res (f (mkOutline [] 0))) as F0 eqn:EF.
  remember (res (g (mkOutline [] 0))) as G0 eqn:EG.
  change (repeatString (str "  ") 0) with (@nil ascii) in E3.
  change (map (app []) F0) with (map (fun x : jsstring => x) F0) in E3.
  rewrite map_id in E3. cbn [app] in E3.
  rewrite E3, E1, !E2. cbn [res app].
  change (repeatString (str "  ") 0) with (@nil ascii).
  change (map (app []) G0) with (map (fun x : jsstring => x) G0).
  now rewrite map_id, map_app, app_assoc.
Qed.

Lemma shifts_fold (childNodes : list Node) :
  Forall (fun c => shifts (dfsChild c)) childNodes ->
  shifts (fun o => fold_left (fun o node => dfsChild node o) childNodes o).
Proof.
  induction 1 as [|c cs Hc _ IH]; [exact id_shifts|].
  exact (shifts_compose (dfsChild c) _ Hc IH).
Qed.

Lemma shifts_indent (f : Outline -> Outline) :
  shifts f ->
  shifts (fun o => let o' := f (mkOutline (res o) (S (indention o))) in
                   mkOutline (res o') (Nat.pred (indention o'))).
Proof.
  intros Hf [r n]. cbv zeta. cbn [res indention].
  pose proof (Hf (mkOutline r (S n))) as E1.
  pose proof (Hf (mkOutline [] 1)) as E2.
  cbn [res indention app] in *.
  remember (res (f (mkOutline [] 0))) as F0 eqn:EF.
  rewrite E1, E2. cbn [res indention Nat.pred].
  f_equal. f_equal. rewrite map_map. apply map_ext. intros l.
  rewrite repeatString_S, <- app_assoc. reflexivity.
Qed.

Lemma dfs_shifts : forall node, shifts (dfs node).
Proof.
  apply Node_induction. intros [text|tagName rawAttrs attrs id classNames]
    childNodes IH.
  - exact id_shifts.
  - intros o. rewrite !dfs_unfold.
    apply (shifts_compose (write (elementLine tagName id classNames))
             (fun o => let o' := fold_left (fun o node => dfsChild node o)
                                   childNodes
                                   (mkOutline (res o) (S (indention o))) in
                       mkOutline (res o') (Nat.pred (indention o')))).
    + apply write_shifts.
    + apply (shifts_indent
               (fun o => fold_left (fun o node => dfsChild node o)
                           childNodes o)).
      apply shifts_fold. eapply Forall_impl; [|exact IH].
      intros [[text|] cs] H; [|exact H].
      unfold dfsChild. destruct (negb (isWhitespace text));
        [exact (write_shifts _) | exact id_shifts].
Qed.

Lemma dfsChild_lines (node : Node) (o : Outline) :
  dfsChild node o
  = mkOutline
      (res o ++ map (app (repeatString (str "  ") (indention o)))
                  (childLines node))
      (indention o).
Proof.
  destruct node as [[text|tagName rawAttrs attrs id classNames] cs].
  - cbn [dfsChild childLines]. destruct (negb _).
    + apply write_shifts.
    + destruct o. cbn. now rewrite app_nil_r.
  - apply (dfs_shifts _ o).
Qed.

Lemma fold_dfsChild (childNodes : list Node) : forall o,
  fold_left (fun o node => dfsChild node o) childNodes o
  = mkOutline
      (res o ++ concat (map (fun c =>
                               map (app (repeatString (str "  ")
                                           (indention o)))
                                 (childLines c)) childNodes))
      (indention o).
Proof.
  induction childNodes as [|c cs IH]; intros o.
  - destruct o. cbn. now rewrite app_nil_r.
  - cbn [fold_left map concat]. rewrite IH, dfsChild_lines.
    cbn [res indention]. now rewrite app_assoc.
Qed.

Lemma isWhitespace_scan (text : jsstring) : isWhitespace text = blank text.
Proof.
  unfold isWhitespace, test. rewrite search_unfold.
  assert (R : match text with
              | [] => None
              | _ :: rest' => search whitespaceOnly 1 rest'
              end = None)
    by (destruct text; [reflexivity | apply whitespaceOnly_after_start]).
  rewrite R. unfold matchAt, whitespaceOnly. cbn [seq].
  rewrite matcher_seq, matcher_start, matcher_seq, matcher_star.
  change (groupsOf (Group 1 (Alt space (literal "&nbsp;")))) with [1].
  rewrite <- (repeat_blank
                (fun pos' rest' caps' =>
                   matcher AssertEnd pos' rest' caps'
                     (fun e _ caps => Some (e, caps)))
                ltac:(intros; eexists; reflexivity)
                ltac:(reflexivity)
                (length text) text 0 [] (Nat.le_refl _)).
  destruct (RepeatMatcher _ _ _ _ _ _ _ _) as [[e caps]|]; reflexivity.
Qed.

End Getters.

(** X16.  [isWhitespace] accepts exactly the texts that are made of white
    space characters and of the six characters [&nbsp;]: the pattern,
    run by the backtracking matcher, decides what a scan from left to
    right decides. *)
Theorem isWhitespace_is_blank (text : jsstring) :
  isWhitespace text = blank text.
Proof. apply isWhitespace_scan. Qed.

(** X17.  A text node that [translate] drops, because [trim] leaves
    nothing of its text, is a white space node for [structure] too. *)
Theorem dropped_text_isWhitespace (text : jsstring) :
  nonEmpty (trim text) = false -> isWhitespace text = true.
Proof.
  intros H. rewrite isWhitespace_scan.
  assert (W : forallb isWhiteSpace text = true).
  { apply trim_nil_inv. now destruct (trim text). }
  clear H. induction text as [|c text IH]; [reflexivity|].
  simpl in W. apply andb_prop in W as [Hc W]. cbn [blank]. rewrite Hc. auto.
Qed.

Lemma dropped_text_isWhitespace_witness :
  isWhitespace (" "%char :: "010"%char :: str "  ") = true.
Proof.
  apply (dropped_text_isWhitespace (" "%char :: "010"%char :: str "  ")).
  reflexivity.
Defined.

(** X18.  [structure] is built from the outlines of the children: the
    line of the element, then for every child in order the lines of its
    own outline, each behind two more spaces; a text child gives the
    line [#text], or nothing when it is white space.  The lines are
    joined by line feeds. *)
Theorem structure_of_element tagName rawAttrs attrs id classNames childNodes :
  structure
    (mkNode (ElementKind tagName rawAttrs attrs id classNames) childNodes)
  = join [ascii_of_nat 10]
      (elementLine tagName id classNames
       :: concat (map (fun c => map (app (str "  ")) (childLines c))
                    childNodes)).
Proof.
  unfold structure, structureLines. rewrite dfs_unfold. cbv zeta.
  rewrite fold_dfsChild. reflexivity.
Qed.

(** ** White space in a text *)

Section WhitespaceRuns.

Lemma space_class (c : ascii) : classMatches false [CSpace] c = isWhiteSpace c.
Proof. unfold classMatches. cbn. now rewrite orb_false_r. Qed.

Lemma space_run (run : jsstring) :
  forallb isWhiteSpace run = true ->
  forallb (classMatches false [CSpace]) run = true.
Proof.
  induction run as [|c run IH]; [reflexivity|]. cbn [forallb].
  intros H. apply andb_prop in H as [Hc Hr].
  now rewrite space_class, Hc, IH.
Qed.

Lemma matchAt_run (c : ascii) (run rest : jsstring) (pos : nat) :
  forallb isWhiteSpace (c :: run) = true ->
  stopsAt false [CSpace] rest ->
  matchAt whitespaceRun pos (c :: run ++ rest)
  = Some (mkMatch pos (c :: run) [] (pos + length (c :: run))).
Proof.
  intros H Hs. simpl in H. apply andb_prop in H as [Hc Hr].
  unfold matchAt, whitespaceRun, Plus, space.
  rewrite matcher_seq, matcher_class, space_class, Hc, matcher_star.
  change (groupsOf (Class false [CSpace])) with (@nil nat).
  rewrite (repeat_class_run false [CSpace] run rest) by
    (auto using space_run).
  rewrite (backtrack_end _ [] run (S pos) rest (S pos + length run, []))
    by reflexivity.
  replace (S pos + length run - pos) with (S (length run)) by lia.
  cbn [firstn length].
  replace (length run) with (length run + 0) at 1 by lia.
  rewrite firstn_app_2. cbn [firstn]. rewrite app_nil_r.
  f_equal. f_equal. lia.
Qed.

Lemma matchAt_solid (c : ascii) (rest : jsstring) (pos : nat) :
  isWhiteSpace c = false -> matchAt whitespaceRun pos (c :: rest) = None.
Proof.
  intros H. unfold matchAt, whitespaceRun, Plus, space.
  now rewrite matcher_seq, matcher_class, space_class, H.
Qed.

Lemma search_solid (lit tail : jsstring) : forall pos,
  solid lit = true ->
  search whitespaceRun pos (lit ++ tail)
  = search whitespaceRun (pos + length lit) tail.
Proof.
  induction lit as [|c lit IH]; intros pos H.
  - cbn [app length]. now rewrite Nat.add_0_r.
  - simpl in H. apply andb_prop in H as [Hc Hl]. apply negb_true_iff in Hc.
    cbn [app]. rewrite search_unfold, (matchAt_solid c _ pos Hc).
    rewrite IH by assumption. cbn [length]. f_equal. lia.
Qed.

Lemma run_split (s : jsstring) :
  exists run rest,
    s = run ++ rest /\ forallb isWhiteSpace run = true
    /\ stopsAt false [CSpace] rest.
Proof.
  induction s as [|c s (run & rest & E & Hr & Hs)].
  - exists [], []. repeat split.
  - destruct (isWhiteSpace c) eqn:W.
    + exists (c :: run), rest. subst s. cbn. rewrite W. auto.
    + exists [], (c :: s). repeat split. cbn [stopsAt].
      now rewrite space_class.
Qed.

Lemma solid_split (s : jsstring) :
  exists lit tail,
    s = lit ++ tail /\ solid lit = true
    /\ (tail = []
        \/ exists c run rest,
             tail = c :: run ++ rest
             /\ forallb isWhiteSpace (c :: run) = true
             /\ stopsAt false [CSpace] rest).
Proof.
  induction s as [|c s (lit & tail & E & Hl & Ht)].
  - exists [], []. auto.
  - destruct (isWhiteSpace c) eqn:W.
    + exists [], (c :: s). repeat split. right.
      destruct (run_split s) as (run & rest & E' & Hr & Hs).
      exists c, run, rest. repeat split;
        [now rewrite E' | cbn [forallb]; now rewrite W, Hr | exact Hs].
    + exists (c :: lit), tail. repeat split;
        [now rewrite E | unfold solid; cbn [forallb]; now rewrite W | exact Ht].
Qed.

Lemma collapse_solid (lit tail : jsstring) (inRun : bool) :
  solid lit = true ->
  collapse inRun (lit ++ tail)
  = lit ++ collapse (match lit with [] => inRun | _ => false end) tail.
Proof.
  revert inRun. induction lit as [|c lit IH]; intros inRun H; [reflexivity|].
  simpl in H. apply andb_prop in H as [Hc Hl]. apply negb_true_iff in Hc.
  cbn [app collapse]. rewrite Hc, IH by assumption.
  now destruct lit.
Qed.

Lemma collapse_stop (rest : jsstring) :
  stopsAt false [CSpace] rest -> collapse true rest = collapse false rest.
Proof.
  destruct rest as [|c rest]; [reflexivity|]. cbn [stopsAt collapse].
  rewrite space_class. now intros ->.
Qed.

Lemma collapse_run (run rest : jsstring) :
  forallb isWhiteSpace run = true -> stopsAt false [CSpace] rest ->
  collapse true (run ++ rest) = collapse false rest.
Proof.
  intros H Hs. induction run as [|c run IH]; [now apply collapse_stop|].
  simpl in H. apply andb_prop in H as [Hc Hr].
  cbn [app collapse]. rewrite Hc. auto.
Qed.

Lemma replace_runs : forall n s p fuel,
  length s <= n -> length s < fuel ->
  replaceMatches (p ++ s) (length p)
    (execAll fuel whitespaceRun (length p) (p ++ s)) (str " ")
  = collapse false s.
Proof.
  induction n as [|n IH]; intros s p fuel Hn Hf.
  - destruct s; [|simpl in Hn; lia]. destruct fuel; [lia|].
    cbn [execAll]. rewrite exec_at_prefix. cbn [search].
    change (matchAt whitespaceRun (length p) []) with (@None Match).
    cbn [replaceMatches collapse]. now rewrite skipn_app, skipn_all, Nat.sub_diag.
  - destruct fuel as [|fuel]; [lia|].
    destruct (solid_split s) as (lit & tail & -> & Hl & [->|Ht]).
    + cbn [execAll]. rewrite exec_at_prefix, search_solid by assumption.
      cbn [search].
      change (matchAt whitespaceRun (length p + length lit) []) with (@None Match).
      cbn [replaceMatches].
      rewrite skipn_app, skipn_all, Nat.sub_diag. cbn [skipn app].
      rewrite collapse_solid by assumption. cbn [collapse].
      reflexivity.
    + destruct Ht as (c & run & rest & -> & Hr & Hs).
      cbn [execAll]. rewrite exec_at_prefix, search_solid by assumption.
      rewrite search_unfold, (matchAt_run c run rest _ Hr Hs).
      cbn [endIndex index matched].
      assert (E : (length p + length lit + length (c :: run)
                   =? length p + length lit) = false)
        by (apply Nat.eqb_neq; cbn [length]; lia).
      rewrite E. cbn [replaceMatches endIndex index matched].
      replace (length p + length lit - length p) with (length lit + 0) by lia.
      rewrite skipn_app, skipn_all, Nat.sub_diag. cbn [skipn app].
      rewrite firstn_app_2. cbn [firstn]. rewrite app_nil_r.
      change (getSubstitution (c :: run) ?b ?a (str " ")) with [" "%char].
      assert (P : p ++ lit ++ c :: run ++ rest
                  = (p ++ lit ++ c :: run) ++ rest)
        by (change (c :: run ++ rest) with ((c :: run) ++ rest);
            now rewrite !app_assoc).
      assert (L : length p + length lit + length (c :: run)
                  = length (p ++ lit ++ c :: run))
        by (rewrite !length_app; lia).
      rewrite P, L, IH.
      * rewrite collapse_solid by assumption.
        simpl in Hr. apply andb_prop in Hr as [Hc Hr].
        assert (C : forall b, collapse b (c :: run ++ rest)
                              = (if b then [] else [" "%char])
                                ++ collapse false rest).
        { intros b. cbn [collapse]. rewrite Hc, collapse_run by assumption.
          now destruct b. }
        rewrite C. now destruct lit.
      * rewrite length_app in Hn. cbn [length] in Hn.
        rewrite length_app in Hn. lia.
      * rewrite length_app in Hf. cbn [length] in Hf.
        rewrite length_app in Hf. lia.
Qed.

Lemma replaceGlobal_collapse (s : jsstring) :
  replaceGlobal whitespaceRun s (str " ") = collapse false s.
Proof.
  unfold replaceGlobal, allMatches.
  apply (replace_runs (length s) s [] (S (length s))); lia.
Qed.

Lemma collapse_lacks (c : ascii) (s : jsstring) : forall inRun,
  Ascii.eqb " "%char c = false ->
  lacks c s = true -> lacks c (collapse inRun s) = true.
Proof.
  unfold lacks. induction s as [|x s IH]; intros inRun Hc H; [reflexivity|].
  simpl in H. apply andb_prop in H as [Hx Hs]. cbn [collapse].
  destruct (isWhiteSpace x); [destruct inRun|]; cbn [forallb];
    rewrite ?Hc, ?Hx, ?IH; auto.
Qed.

Lemma parseText_literal (rawText : jsstring) :
  lacks "{"%char rawText = true ->
  parseText rawText = quoted (trim (collapse false rawText)).
Proof.
  intros H. unfold parseText. rewrite replaceGlobal_collapse.
  assert (B : braceFree (trim (collapse false rawText)) = true).
  { apply forallb_trim. now apply (collapse_lacks "{"%char). }
  unfold matchGlobal, allMatches. cbn [execAll].
  pose proof (exec_at_prefix JSX_INTERPOLATION []
                (trim (collapse false rawText))) as E.
  cbn [length app] in E. rewrite E.
  now rewrite search_literal.
Qed.

End WhitespaceRuns.

(** X19.  The first step of [parseText], replacing every match of the
    white space pattern by a space, turns every run of white space
    characters into one space and changes nothing else. *)
Theorem whitespace_runs_collapsed (rawText : jsstring) :
  replaceGlobal whitespaceRun rawText (str " ") = collapse false rawText.
Proof. apply replaceGlobal_collapse. Qed.

(** X20.  A text without an opening brace is one template literal: its
    white space runs collapsed, trimmed, between backticks. *)
Theorem parseText_without_brace (rawText : jsstring) :
  lacks "{"%char rawText = true ->
  parseText rawText = quoted (trim (collapse false rawText)).
Proof. apply parseText_literal. Qed.

Lemma parseText_without_brace_witness :
  parseText (str "  Hello,   world ")
  = quoted (trim (collapse false (str "  Hello,   world "))).
Proof.
  apply (parseText_without_brace (str "  Hello,   world ")). reflexivity.
Defined.

(** ** What a match consumes *)

Section Consumption.

Lemma arrives_here k pos rest caps res :
  k pos rest caps = Some res -> arrives k pos rest res.
Proof.
  intros H. exists 0, caps. rewrite Nat.add_0_r. split; [lia | exact H].
Qed.

Lemma arrives_later k pos rest n res :
  n <= length rest ->
  arrives k (pos + n) (skipn n rest) res -> arrives k pos rest res.
Proof.
  intros Hn (n' & caps' & Hn' & H). exists (n + n'), caps'.
  rewrite length_skipn in Hn'. split; [lia|].
  rewrite skipn_skipn in H.
  replace (pos + (n + n')) with (pos + n + n') by lia.
  replace (n + n') with (n' + n) by lia. exact H.
Qed.

Lemma arrives_next k pos c rest res :
  arrives k (S pos) rest res -> arrives k pos (c :: rest) res.
Proof.
  intros H. apply (arrives_later k pos (c :: rest) 1);
    [cbn [length]; lia|].
  now rewrite Nat.add_1_r.
Qed.

Lemma RepeatMatcher_consuming m greedy inner n :
  consuming m -> consuming (RepeatMatcher m greedy inner n).
Proof.
  intros Hm. induction n as [|n IH]; intros pos rest caps k res; simpl.
  - apply arrives_here.
  - assert (Hiter :
      m pos rest (clearCaptures inner caps)
        (fun pos' rest' caps' =>
           if pos <? pos' then RepeatMatcher m greedy inner n pos' rest' caps' k
           else None) = Some res -> arrives k pos rest res).
    { intros H. apply Hm in H as (j & c & Hj & Hk).
      destruct (pos <? pos + j); [|discriminate].
      apply IH in Hk. eapply arrives_later; eauto. }
    destruct greedy; intros H; apply orElse_Some in H as [H | [_ H]];
      eauto using arrives_here.
Qed.

Lemma matcher_consuming (r : regex) : consuming (matcher r).
Proof.
  induction r as [ | c | negated atoms | r1 IH1 r2 IH2 | r1 IH1 r2 IH2
                 | greedy r1 IH1 | greedy r1 IH1 | n r1 IH1 | n | | ];
    intros pos rest caps k res; simpl.
  - apply arrives_here.
  - destruct rest as [|c' rest']; [discriminate|].
    destruct (Ascii.eqb c' c); [|discriminate].
    intros H. eapply arrives_next, arrives_here, H.
  - destruct rest as [|c' rest']; [discriminate|].
    destruct (classMatches negated atoms c'); [|discriminate].
    intros H. eapply arrives_next, arrives_here, H.
  - intros H. apply IH1 in H as (j & c & Hj & Hk).
    apply IH2 in Hk. eapply arrives_later; eauto.
  - intros H. apply orElse_Some in H as [H | [_ H]]; eauto.
  - apply RepeatMatcher_consuming, IH1.
  - assert (Honce :
      matcher r1 pos rest (clearCaptures (groupsOf r1) caps)
        (fun pos' rest' caps' => if pos <? pos' then k pos' rest' caps' else None)
      = Some res -> arrives k pos rest res).
    { intros H. apply IH1 in H as (j & c & Hj & Hk).
      destruct (pos <? pos + j); [|discriminate]. exists j, c. auto. }
    destruct greedy; intros H; apply orElse_Some in H as [H | [_ H]];
      eauto using arrives_here.
  - intros H. apply IH1 in H as (j & c & Hj & Hk).
    exists j, ((n, firstn (pos + j - pos) rest) :: c). auto.
  - destruct (capture n caps) as [s|]; [|apply arrives_here].
    destruct (isPrefix s rest) eqn:E; [|discriminate].
    intros H. apply isPrefix_length in E.
    exists (length s), caps. auto.
  - destruct (pos =? 0); [apply arrives_here | discriminate].
  - destruct rest; [apply arrives_here | discriminate].
Qed.

Lemma search_found r : forall rest pos m,
  search r pos rest = Some m ->
  exists j, j <= length rest /\ matchAt r (pos + j) (skipn j rest) = Some m.
Proof.
  induction rest as [|c rest IH]; intros pos m; rewrite search_unfold.
  - destruct (matchAt r pos []) eqn:E; [|discriminate].
    intros H. injection H as <-. exists 0. rewrite Nat.add_0_r.
    split; [lia | exact E].
  - destruct (matchAt r pos (c :: rest)) eqn:E.
    + intros H. injection H as <-. exists 0. rewrite Nat.add_0_r.
      split; [lia | exact E].
    + intros H. apply IH in H as (j & Hj & H). exists (S j).
      rewrite Nat.add_succ_r. cbn [length skipn]. split; [lia | exact H].
Qed.

(** The match object of [exec] holds the characters of the input from
    [index] to the new [lastIndex]. *)
Lemma exec_found r lastIndex s m e :
  exec r lastIndex s = (Some m, e) ->
  index m <= length s
  /\ matchAt r (index m) (skipn (index m) s) = Some m
  /\ matched m = firstn (e - index m) (skipn (index m) s).
Proof.
  unfold exec. destruct (length s <? lastIndex) eqn:L; [discriminate|].
  apply Nat.ltb_ge in L.
  destruct (search r lastIndex (skipn lastIndex s)) as [m'|] eqn:E;
    [|discriminate].
  intros H. injection H as <- <-.
  apply search_found in E as (j & Hj & E).
  rewrite skipn_skipn, (Nat.add_comm j) in E.
  rewrite length_skipn in Hj.
  pose proof E as E'. unfold matchAt in E'.
  destruct (matcher r _ _ _ _) as [[e' caps]|]; [|discriminate].
  injection E' as <-. cbn [index matched endIndex] in *.
  repeat split; [lia | exact E].
Qed.

Lemma kMarkupPattern_split pos rest caps k :
  matcher kMarkupPattern pos rest caps k
  = matcher (Char "<"%char) pos rest caps
      (fun p1 r1 c1 =>
         matcher (Opt true (Char "/"%char)) p1 r1 c1
           (fun p2 r2 c2 =>
              matcher (Class false [upper; lower]) p2 r2 c2
                (fun p3 r3 c3 =>
                   matcher
                     (seq [Star true (Class false [upper; lower; digit]);
                           Star true
                             (Group 1
                                (seq [Plus true space;
                                      Plus true
                                        (Class true
                                           [CChar "="%char; CChar "<"%char;
                                            CChar ">"%char; CChar "/"%char;
                                            CSpace]);
                                      Opt true
                                        (seq [Star true space; Char "="%char;
                                              Star true space;
                                              attributeValue])]));
                           Star true space; Opt true (Char "/"%char)])
                     p3 r3 c3
                     (fun p4 r4 c4 => matcher (Char ">"%char) p4 r4 c4 k)))).
Proof. reflexivity. Qed.

Lemma firstn_snoc (n : nat) (l rest : jsstring) (c : ascii) :
  n <= length l -> skipn n l = c :: rest ->
  firstn (S n) l = firstn n l ++ [c].
Proof.
  revert l. induction n as [|n IH]; intros [|x l] Hn H; cbn in *;
    try discriminate; try lia.
  - now injection H as ->.
  - f_equal. apply IH; [lia | exact H].
Qed.

Lemma tag_shape (P : regex) pos rest e caps :
  matcher (Char "<"%char) pos rest []
    (fun p1 r1 c1 =>
       matcher (Opt true (Char "/"%char)) p1 r1 c1
         (fun p2 r2 c2 =>
            matcher (Class false [upper; lower]) p2 r2 c2
              (fun p3 r3 c3 =>
                 matcher P p3 r3 c3
                   (fun p4 r4 c4 =>
                      matcher (Char ">"%char) p4 r4 c4
                        (fun e _ caps => Some (e, caps))))))
  = Some (e, caps) ->
  exists slash letter tail,
    firstn (e - pos) rest = str "<" ++ slash ++ letter :: tail ++ str ">"
    /\ (slash = [] \/ slash = str "/")
    /\ classMatches false [upper; lower] letter = true.
Proof.
  intros M.
  destruct rest as [|c0 r1]; [discriminate|]. rewrite matcher_char in M.
  destruct (Ascii.eqb_spec c0 "<"%char) as [->|]; [|discriminate].
  assert (S2 : exists slash r2,
             r1 = slash ++ r2 /\ (slash = [] \/ slash = str "/")
             /\ matcher (Class false [upper; lower]) (S pos + length slash) r2
                  [] (fun p3 r3 c3 =>
                        matcher P p3 r3 c3
                          (fun p4 r4 c4 =>
                             matcher (Char ">"%char) p4 r4 c4
                               (fun e _ caps => Some (e, caps))))
                = Some (e, caps)).
  { cbn [matcher] in M. apply orElse_Some in M as [M | [_ M]].
    - destruct r1 as [|c1 r2]; [discriminate|].
      destruct (Ascii.eqb_spec c1 "/"%char) as [->|]; [|discriminate].
      destruct (S pos <? S (S pos)); [|discriminate].
      exists (str "/"), r2. cbn [length str list_ascii_of_string app].
      rewrite Nat.add_1_r. repeat split; auto.
    - exists [], r1. cbn [length app]. rewrite Nat.add_0_r.
      repeat split; auto. }
  destruct S2 as (slash & r2 & -> & Hslash & M2).
  destruct r2 as [|letter r3]; [discriminate|]. rewrite matcher_class in M2.
  destruct (classMatches false [upper; lower] letter) eqn:C; [|discriminate].
  apply matcher_consuming in M2 as (n & c4 & Hn & M4).
  destruct (skipn n r3) as [|c5 r5] eqn:Sk; [discriminate|].
  rewrite matcher_char in M4.
  destruct (Ascii.eqb_spec c5 ">"%char) as [->|]; [|discriminate].
  injection M4 as <- _.
  exists slash, letter, (firstn n r3). repeat split; auto.
  match goal with |- firstn ?x _ = _ =>
    replace x with (S (length slash + S (S n))) by lia end.
  cbn [firstn str list_ascii_of_string app]. f_equal.
  rewrite firstn_app, firstn_all2 by lia.
  replace (length slash + S (S n) - length slash) with (S (S n)) by lia.
  cbn [firstn]. do 2 f_equal. now apply (firstn_snoc n r3 r5).
Qed.

Lemma kMarkupPattern_shape pos rest m :
  matchAt kMarkupPattern pos rest = Some m ->
  exists slash letter tail,
    matched m = str "<" ++ slash ++ letter :: tail ++ str ">"
    /\ (slash = [] \/ slash = str "/")
    /\ classMatches false [upper; lower] letter = true.
Proof.
  unfold matchAt.
  destruct (matcher kMarkupPattern pos rest [] _) as [[e caps]|] eqn:M;
    [|discriminate].
  intros H. injection H as <-. cbn [matched].
  rewrite kMarkupPattern_split in M. now apply tag_shape in M.
Qed.

End Consumption.

(** X21.  Every tag that the loop of [parse] takes from [kMarkupPattern]
    is a piece of the input, from the index of the match to the new
    [lastIndex], of the form that [handleJSXTag] takes apart: [<], then
    a [/] or nothing, a letter, more characters, and [>]. *)
Theorem kMarkupPattern_matches_tags (start : nat) (data : jsstring)
    (m : Match) (e : nat) :
  exec kMarkupPattern start data = (Some m, e) ->
  matched m = firstn (e - index m) (skipn (index m) data)
  /\ exists slash letter tail,
       matched m = str "<" ++ slash ++ letter :: tail ++ str ">"
       /\ (slash = [] \/ slash = str "/")
       /\ classMatches false [upper; lower] letter = true.
Proof.
  intros H. apply exec_found in H as (_ & M & E). split; [exact E|].
  now apply kMarkupPattern_shape in M.
Qed.

Lemma kMarkupPattern_matches_tags_witness :
  exists m,
    exec kMarkupPattern 2 (str "a </b > c") = (Some m, 7)
    /\ matched m = firstn (7 - index m) (skipn (index m) (str "a </b > c"))
    /\ exists slash letter tail,
         matched m = str "<" ++ slash ++ letter :: tail ++ str ">"
         /\ (slash = [] \/ slash = str "/")
         /\ classMatches false [upper; lower] letter = true.
Proof.
  eexists. split; [vm_compute; reflexivity|].
  apply (kMarkupPattern_matches_tags 2 (str "a </b > c")).
  vm_compute. reflexivity.
Defined.

(** ** The class names of an element *)

Section ClassNames.

Lemma substring_middle (pre name tail : jsstring) :
  substring (pre ++ name ++ tail) (length pre) (length pre + length name)
  = name.
Proof.
  unfold substring.
  assert (L : length (pre ++ name ++ tail)
              = length pre + length name + length tail)
    by (rewrite !length_app; lia).
  rewrite L.
  rewrite (Nat.min_l (length pre)), (Nat.min_l (length pre + length name))
    by lia.
  rewrite Nat.max_r, Nat.min_l by lia.
  replace (length pre + length name - length pre) with (length name + 0)
    by lia.
  rewrite skipn_app, skipn_all, Nat.sub_diag. cbn [skipn app].
  rewrite firstn_app_2. cbn [firstn]. apply app_nil_r.
Qed.

Lemma substring_end (pre name : jsstring) :
  substring (pre ++ name) (length pre) (length (pre ++ name)) = name.
Proof.
  rewrite <- (app_nil_r name) at 1 2. rewrite length_app.
  rewrite (app_nil_r name) at 2. apply substring_middle.
Qed.

(** The scan of [split] over the characters of a name. *)
Lemma splitLoop_name (pre tail : jsstring) (p : nat) :
  forall todo done fuel,
  solid todo = true ->
  splitLoop (length todo + fuel) whitespaceRun
    (pre ++ (done ++ todo) ++ tail) p (length pre + length done)
  = splitLoop fuel whitespaceRun
      (pre ++ (done ++ todo) ++ tail) p
      (length pre + length (done ++ todo)).
Proof.
  induction todo as [|c todo IH]; intros done fuel H.
  - now rewrite app_nil_r.
  - simpl in H. apply andb_prop in H as [Hc Ht]. apply negb_true_iff in Hc.
    cbn [length Nat.add splitLoop].
    assert (L : (length (pre ++ (done ++ c :: todo) ++ tail)
                 <=? length pre + length done) = false).
    { apply Nat.leb_gt. rewrite !length_app. cbn [length]. lia. }
    rewrite L.
    assert (Sk : skipn (length pre + length done)
                   (pre ++ (done ++ c :: todo) ++ tail)
                 = c :: todo ++ tail).
    { rewrite <- app_assoc, app_assoc, <- length_app.
      rewrite skipn_app, skipn_all, Nat.sub_diag. reflexivity. }
    rewrite Sk, (matchAt_solid c _ _ Hc).
    specialize (IH (done ++ [c]) fuel Ht).
    replace ((done ++ [c]) ++ todo) with (done ++ c :: todo) in IH
      by now rewrite <- app_assoc.
    replace (length pre + length (done ++ [c]))
      with (S (length pre + length done)) in IH
      by (rewrite length_app; cbn [length]; lia).
    exact IH.
Qed.

Lemma join_cons (sep name : jsstring) (names : list jsstring) :
  join sep (name :: names)
  = name ++ match names with [] => [] | _ => sep ++ join sep names end.
Proof. destruct names; [now rewrite app_nil_r | reflexivity]. Qed.

Lemma splitLoop_names : forall names name pre fuel,
  forallb wfClassName (name :: names) = true ->
  length (join (str " ") (name :: names)) <= fuel ->
  splitLoop fuel whitespaceRun (pre ++ join (str " ") (name :: names))
    (length pre) (length pre)
  = name :: names.
Proof.
  induction names as [|name' names IH]; intros name pre fuel H Hf;
    rewrite join_cons in *; cbn [forallb] in H;
    apply andb_prop in H as [Hn Hs]; unfold wfClassName in Hn;
    apply andb_prop in Hn as [Hne Hsolid].
  - rewrite app_nil_r in *.
    replace fuel with (length name + (fuel - length name)) by lia.
    pose proof (splitLoop_name pre [] (length pre) name [] (fuel - length name)
                  Hsolid) as E.
    cbn [app length] in E. rewrite Nat.add_0_r, app_nil_r in E. rewrite E.
    assert (L : (length (pre ++ name) <=? length pre + length name) = true)
      by (apply Nat.leb_le; rewrite length_app; lia).
    destruct (fuel - length name); cbn [splitLoop]; rewrite ?L;
      now rewrite substring_end.
  - rewrite length_app in Hf.
    change (str " " ++ join (str " ") (name' :: names))
      with (" "%char :: join (str " ") (name' :: names)) in *.
    cbn [length] in Hf.
    set (rest := join (str " ") (name' :: names)) in *.
    replace fuel with (length name + S (fuel - length name - 1)) by lia.
    pose proof (splitLoop_name pre (" "%char :: rest) (length pre) name []
                  (S (fuel - length name - 1)) Hsolid) as E.
    cbn [app length] in E. rewrite Nat.add_0_r in E. rewrite E.
    cbn [splitLoop].
    assert (L : (length (pre ++ name ++ " "%char :: rest)
                 <=? length pre + length name) = false)
      by (apply Nat.leb_gt; rewrite !length_app; cbn [length]; lia).
    rewrite L.
    assert (Sk : skipn (length pre + length name)
                   (pre ++ name ++ " "%char :: rest)
                 = " "%char :: [] ++ rest).
    { rewrite app_assoc, <- length_app.
      rewrite skipn_app, skipn_all, Nat.sub_diag. reflexivity. }
    rewrite Sk.
    assert (St : stopsAt false [CSpace] rest).
    { unfold rest. rewrite join_cons. cbn [forallb] in Hs.
      apply andb_prop in Hs as [Hn' _]. unfold wfClassName in Hn'.
      apply andb_prop in Hn' as [Hne' Hsolid'].
      destruct name' as [|c n']; [discriminate|]. cbn [app stopsAt].
      simpl in Hsolid'. apply andb_prop in Hsolid' as [Hc _].
      apply negb_true_iff in Hc. now rewrite space_class. }
    rewrite (matchAt_run " "%char [] rest _ eq_refl St).
    cbn [endIndex length].
    assert (N : (length pre + length name + 1 =? length pre) = false)
      by (apply Nat.eqb_neq; lia).
    rewrite N, substring_middle. f_equal.
    replace (pre ++ name ++ " "%char :: rest)
      with ((pre ++ name ++ [" "%char]) ++ rest)
      by (rewrite <- !app_assoc; reflexivity).
    replace (length pre + length name + 1)
      with (length (pre ++ name ++ [" "%char]))
      by (rewrite !length_app; cbn [length]; lia).
    apply IH; [exact Hs | fold rest; lia].
Qed.

Lemma split_names (names : list jsstring) :
  names <> [] -> forallb wfClassName names = true ->
  split whitespaceRun (join (str " ") names) = names.
Proof.
  destruct names as [|name names]; [congruence|]. intros _ H.
  pose proof (splitLoop_names names name [] _ H (Nat.le_refl _)) as E.
  cbn [app length] in E. unfold split.
  destruct (join (str " ") (name :: names)) eqn:J; [|exact E].
  rewrite join_cons in J. cbn [forallb] in H. apply andb_prop in H as [H _].
  unfold wfClassName in H. apply andb_prop in H as [H _].
  destruct name; [discriminate H | discriminate J].
Qed.

End ClassNames.

(** X22.  The constructor of [HTMLElement] reads the class names back: of
    a class attribute that holds names without white space, one space
    between two of them, it stores exactly these names, in order. *)
Theorem classNames_read_back (tagName : option jsstring) (keyAttrs : JSObject)
    (rawAttrs : option jsstring) (names : list jsstring) :
  names <> [] -> forallb wfClassName names = true ->
  get keyAttrs (str "class") = Some (join (str " ") names) ->
  exists raw id,
    newHTMLElement tagName keyAttrs rawAttrs
    = ElementKind tagName raw keyAttrs id names.
Proof.
  intros Hne H G. unfold newHTMLElement. rewrite G.
  pose proof (split_names names Hne H) as E.
  destruct (join (str " ") names) as [|c v] eqn:J.
  - destruct names as [|name names]; [congruence|].
    rewrite join_cons in J. cbn [forallb] in H. apply andb_prop in H as [H _].
    unfold wfClassName in H. apply andb_prop in H as [H _].
    destruct name; [discriminate H | discriminate J].
  - rewrite E. eauto.
Qed.

Lemma classNames_read_back_witness :
  exists raw id,
    newHTMLElement (Some (str "div"))
      [(str "class", join (str " ") [str "btn"; str "btn-primary"; str "x"])]
      None
    = ElementKind (Some (str "div")) raw
        [(str "class", join (str " ") [str "btn"; str "btn-primary"; str "x"])]
        id [str "btn"; str "btn-primary"; str "x"].
Proof.
  apply (classNames_read_back (Some (str "div"))
           [(str "class",
             join (str " ") [str "btn"; str "btn-primary"; str "x"])]
           None [str "btn"; str "btn-primary"; str "x"]);
    [discriminate | reflexivity | reflexivity].
Defined.

(** X23.  A call of [parseJSX] that returns leaves [JSX_STRING.lastIndex]
    at 0; when [kMarkupPattern.lastIndex] was 0 before the call, both
    patterns are afterwards as they were when the module was loaded. *)
Theorem parseJSX_that_returns_resets (fuel : nat) (p p' : Patterns)
    (str_ result : jsstring) :
  parseJSX fuel p str_ = Some (Normal result, p') ->
  JSX_STRING_lastIndex p' = 0
  /\ (kMarkupPattern_lastIndex p = 0 -> p' = loaded).
Proof. apply parseJSX_normal_resets. Qed.

Lemma parseJSX_that_returns_resets_witness :
  exists result p',
    parseJSX 3 loaded (str "<br/>") = Some (Normal result, p')
    /\ JSX_STRING_lastIndex p' = 0
    /\ (kMarkupPattern_lastIndex loaded = 0 -> p' = loaded).
Proof.
  eexists. eexists. split; [vm_compute; reflexivity|].
  eapply (parseJSX_that_returns_resets 3 loaded _ (str "<br/>")).
  vm_compute. reflexivity.
Defined.

(** ** The name of a tag that [parse] reads *)

Section TagNames.

Lemma letter_facts (c : ascii) :
  classMatches false [upper; lower] c = true ->
  isWhiteSpace c = false /\ Ascii.eqb "/"%char c = false
  /\ Ascii.eqb " "%char c = false.
Proof.
  destruct c as [[] [] [] [] [] [] [] []]; vm_compute; intros H;
    first [discriminate H | repeat split; reflexivity].
Qed.

Lemma findFrom_bounds (p : jsstring) : forall s pos i,
  findFrom p s pos = Some i -> pos <= i /\ i <= pos + length s.
Proof.
  induction s as [|c s IH]; intros pos i; cbn [findFrom].
  - destruct (isPrefix p []); [|discriminate].
    intros H. injection H as <-. cbn [length]. lia.
  - destruct (isPrefix p (c :: s)).
    + intros H. injection H as <-. cbn [length]. lia.
    + intros H. apply IH in H. cbn [length]. lia.
Qed.

Lemma open_tag_name (letter : ascii) (x : jsstring) (sc : bool) :
  classMatches false [upper; lower] letter = true ->
  (sc = false -> endsWith (letter :: x) (str "/") = false) ->
  exists rest,
    tagName (handleJSXTag ("<"%char :: (letter :: x) ++ tagEnd sc))
    = letter :: rest
    /\ closed (handleJSXTag ("<"%char :: (letter :: x) ++ tagEnd sc)) = false.
Proof.
  intros Hl He. destruct (letter_facts letter Hl) as (Hw & Hs & Hsp).
  rewrite handleJSXTag_open;
    [|unfold startsWith; cbn [app str list_ascii_of_string isPrefix];
      now rewrite Hs|exact He].
  cbv zeta.
  assert (T : trim (letter :: x) = letter :: trimEnd x).
  { unfold trim. rewrite trimStart_head by assumption.
    now apply trimEnd_cons. }
  rewrite T. unfold indexOf.
  destruct (findFrom (str " ") (letter :: trimEnd x) 0) as [i|] eqn:F.
  - assert (Hi : 1 <= i <= length (letter :: trimEnd x)).
    { cbn [findFrom str list_ascii_of_string isPrefix] in F.
      rewrite Hsp in F. cbn [andb] in F.
      apply findFrom_bounds in F. cbn [length]. lia. }
    destruct (Z.eqb_spec (Z.of_nat i) (-1)) as [E|_]; [lia|].
    destruct i as [|i]; [lia|].
    exists (firstn i (trimEnd x)). cbn [tagName closed].
    split; [|reflexivity].
    unfold slice. change 0%Z with (Z.of_nat 0).
    rewrite !relIndex_nat by lia. cbn [skipn].
    rewrite Nat.sub_0_r. reflexivity.
  - exists (trimEnd x). split; reflexivity.
Qed.

End TagNames.

(** X24.  What [handleJSXTag] makes of a tag that [kMarkupPattern]
    matched: the tag is closed exactly when it starts with [</], and the
    name of a tag that is not closed starts with a letter, so
    [translate] always finds a first character to look at. *)
Theorem parsed_tag_name (start : nat) (data : jsstring) (m : Match) (e : nat) :
  exec kMarkupPattern start data = (Some m, e) ->
  closed (handleJSXTag (matched m)) = startsWith (matched m) (str "</")
  /\ (closed (handleJSXTag (matched m)) = false ->
      exists letter rest,
        tagName (handleJSXTag (matched m)) = letter :: rest
        /\ classMatches false [upper; lower] letter = true).
Proof.
  intros H. apply exec_found in H as (_ & M & _).
  apply kMarkupPattern_shape in M as (slash & letter & tail & -> & Hs & Hl).
  destruct (letter_facts letter Hl) as (Hw & Hsl & Hsp).
  destruct Hs as [->| ->].
  - cbn [str list_ascii_of_string app].
    assert (O : exists rest,
               tagName (handleJSXTag ("<"%char :: letter :: tail ++ [">"%char]))
               = letter :: rest
               /\ closed (handleJSXTag
                            ("<"%char :: letter :: tail ++ [">"%char]))
                  = false).
    { induction tail as [|c tail' _] using rev_ind.
      - apply (open_tag_name letter [] false Hl). intros _.
        unfold endsWith. cbn [rev app str list_ascii_of_string isPrefix].
        now rewrite Hsl.
      - destruct (Ascii.eqb_spec "/"%char c) as [<-|Hc].
        + rewrite <- app_assoc.
          apply (open_tag_name letter tail' true Hl). discriminate.
        + apply (open_tag_name letter (tail' ++ [c]) false Hl). intros _.
          change (letter :: tail' ++ [c]) with ((letter :: tail') ++ [c]).
          change (str "/") with ["/"%char]. rewrite endsWith_snoc.
          now destruct (Ascii.eqb_spec "/"%char c). }
    destruct O as (rest & Ht & Hc). rewrite Hc. split.
    + unfold startsWith. cbn [str list_ascii_of_string isPrefix].
      now rewrite Hsl.
    + intros _. eauto.
  - assert (C : closed (handleJSXTag
                          (str "<" ++ str "/" ++ letter :: tail ++ str ">"))
                = true).
    { unfold handleJSXTag.
      assert (T : trim (str "<" ++ str "/" ++ letter :: tail ++ str ">")
                  = str "<" ++ str "/" ++ letter :: tail ++ str ">").
      { cbn [str list_ascii_of_string app].
        change ("<"%char :: "/"%char :: letter :: tail ++ [">"%char])
          with ("<"%char :: ("/"%char :: letter :: tail) ++ [">"%char]).
        now apply trim_fixed. }
      rewrite T. reflexivity. }
    rewrite C. split; [reflexivity | discriminate].
Qed.

Lemma parsed_tag_name_witness :
  exists m,
    exec kMarkupPattern 0 (str "a <Box size={2} /> c") = (Some m, 18)
    /\ closed (handleJSXTag (matched m)) = startsWith (matched m) (str "</")
    /\ (closed (handleJSXTag (matched m)) = false ->
        exists letter rest,
          tagName (handleJSXTag (matched m)) = letter :: rest
          /\ classMatches false [upper; lower] letter = true).
Proof.
  eexists. split; [vm_compute; reflexivity|].
  apply (parsed_tag_name 0 (str "a <Box size={2} /> c") _ 18).
  vm_compute. reflexivity.
Defined.

(** ** A self-closing tag, from the text to the call *)

Section SelfClosing.

Lemma alnum_facts (c : ascii) :
  alnum c = true ->
  isWhiteSpace c = false
  /\ Ascii.eqb c ">"%char = false
  /\ Ascii.eqb c "/"%char = false
  /\ Ascii.eqb c "<"%char = false
  /\ Ascii.eqb c "$"%char = false
  /\ classMatches true [CSpace; CChar "/"%char; CChar ">"%char] c = true
  /\ classMatches false [upper; lower; digit] c = true.
Proof.
  destruct c as [[] [] [] [] [] [] [] []]; vm_compute; intros H;
    first [discriminate H | repeat split; reflexivity].
Qed.

Lemma letter_alnum (c : ascii) :
  classMatches false [upper; lower] c = true ->
  alnum c = true /\ classMatches false [lower; upper] c = true.
Proof.
  destruct c as [[] [] [] [] [] [] [] []]; vm_compute; intros H;
    first [discriminate H | split; reflexivity].
Qed.

Lemma wfElementName_inv (n : jsstring) :
  wfElementName n = true ->
  exists c n', n = c :: n' /\ classMatches false [upper; lower] c = true
               /\ forallb alnum n' = true /\ forallb alnum n = true.
Proof.
  destruct n as [|c n']; [discriminate|]. cbn [wfElementName].
  intros H. apply andb_prop in H as [Hc Hn]. exists c, n'.
  repeat split; auto. cbn [forallb].
  now rewrite (proj1 (letter_alnum c Hc)), Hn.
Qed.

Lemma alnum_run (P : ascii -> bool) (n : jsstring) :
  (forall c, alnum c = true -> P c = true) ->
  forallb alnum n = true -> forallb P n = true.
Proof.
  intros HP. induction n as [|c n IH]; [reflexivity|]. cbn [forallb].
  intros H. apply andb_prop in H as [Hc Hn]. now rewrite HP, IH.
Qed.

(** What follows a part of the name in [<n/>]: a letter, a digit or
    the slash. *)
Lemma name_tail_head (n' post : jsstring) (j : nat) :
  forallb alnum n' = true ->
  exists x r, skipn j n' ++ "/"%char :: post = x :: r
              /\ isWhiteSpace x = false /\ Ascii.eqb x ">"%char = false.
Proof.
  intros H. apply (forallb_skipn _ _ j) in H.
  destruct (skipn j n') as [|x r].
  - exists "/"%char, post. repeat split.
  - simpl in H. apply andb_prop in H as [Hx _].
    destruct (alnum_facts x Hx) as (Hw & Hg & _).
    exists x, (r ++ "/"%char :: post). repeat split; auto.
Qed.

Lemma attributes_need_space (rest : regex) pos (x : ascii) (r : jsstring)
    caps k :
  isWhiteSpace x = false -> Ascii.eqb x ">"%char = false ->
  matcher (Seq attributesPattern (Seq (Char ">"%char) rest)) pos (x :: r)
    caps k = None.
Proof.
  intros Hw Hg. rewrite matcher_seq. unfold attributesPattern, space.
  cbn [matcher seq orElse]. rewrite space_class, Hw. cbn [orElse].
  now rewrite Hg.
Qed.

Lemma tag_chars (c : ascii) (n' post : jsstring) :
  selfClosingTag (c :: n') ++ post
  = "<"%char :: c :: n' ++ "/"%char :: ">"%char :: post.
Proof.
  unfold selfClosingTag. cbn [str list_ascii_of_string app].
  now rewrite <- app_assoc.
Qed.

Lemma tag_length (c : ascii) (n' : jsstring) :
  length (selfClosingTag (c :: n')) = length n' + 4.
Proof.
  unfold selfClosingTag. cbn [str list_ascii_of_string app length].
  rewrite length_app. cbn [length]. lia.
Qed.

Lemma firstn_tag (c : ascii) (n' post : jsstring) :
  firstn (length n' + 4) ("<"%char :: c :: n' ++ "/"%char :: ">"%char :: post)
  = selfClosingTag (c :: n').
Proof.
  rewrite <- tag_chars, <- (tag_length c n').
  rewrite firstn_app, firstn_all, Nat.sub_diag. cbn [firstn].
  apply app_nil_r.
Qed.

Lemma JSX_STRING_self_closing (n post : jsstring) (pos : nat) :
  wfElementName n = true ->
  exists caps,
    matchAt JSX_STRING pos (selfClosingTag n ++ post)
    = Some (mkMatch pos (selfClosingTag n) caps
              (pos + length (selfClosingTag n))).
Proof.
  intros H. apply wfElementName_inv in H as (c & n' & -> & Hc & Hn & _).
  destruct (letter_alnum c Hc) as (_ & Hc').
  assert (Hrun : forallb (classMatches true
                            [CSpace; CChar "/"%char; CChar ">"%char]) n'
                 = true).
  { apply (alnum_run _ n'); [|exact Hn]. intros x Hx.
    now destruct (alnum_facts x Hx) as (_ & _ & _ & _ & _ & ? & _). }
  assert (Hstop : stopsAt true [CSpace; CChar "/"%char; CChar ">"%char]
                    ("/"%char :: ">"%char :: post)) by reflexivity.
  rewrite tag_chars, tag_length. unfold matchAt, JSX_STRING.
  rewrite matcher_alt.
  assert (A : matcher
                (seq [Char "<"%char; Group 1 tagNamePattern;
                      attributesPattern; Char ">"%char;
                      Star false (Class false [CSpace; CNotSpace]);
                      Char "<"%char; Char "/"%char; Backref 1;
                      Char ">"%char])
                pos ("<"%char :: c :: n' ++ "/"%char :: ">"%char :: post) []
                (fun e _ caps => Some (e, caps)) = None).
  { cbn [seq]. rewrite matcher_seq, matcher_char. cbn [Ascii.eqb Bool.eqb].
    rewrite matcher_seq, matcher_group. unfold tagNamePattern. cbn [seq].
    rewrite matcher_seq, matcher_class, Hc', matcher_star.
    change (groupsOf (Class true [CSpace; CChar "/"%char; CChar ">"%char]))
      with (@nil nat).
    rewrite (repeat_class_run true _ n' ("/"%char :: ">"%char :: post))
      by auto.
    apply backtrack_none. intros j Hj.
    destruct (name_tail_head n' (">"%char :: post) j Hn)
      as (x & r & E & Hw & Hg).
    rewrite E. now apply attributes_need_space. }
  rewrite A. cbn [orElse seq].
  rewrite matcher_seq, matcher_char. cbn [Ascii.eqb Bool.eqb].
  rewrite matcher_seq, matcher_group. unfold tagNamePattern. cbn [seq].
  rewrite matcher_seq, matcher_class, Hc', matcher_star.
  change (groupsOf (Class true [CSpace; CChar "/"%char; CChar ">"%char]))
    with (@nil nat).
  rewrite (repeat_class_run true _ n' ("/"%char :: ">"%char :: post))
    by auto.
  erewrite backtrack_end; cycle 1.
  { unfold attributesPattern, space. cbn [matcher seq orElse].
    rewrite space_class. cbn [isWhiteSpace]. reflexivity. }
  eexists. f_equal. f_equal.
  - replace (S (S (S (S pos) + length n')) - pos) with (length n' + 4) by lia.
    apply firstn_tag.
  - lia.
Qed.

Lemma tag_end (q : nat) (caps : captures) :
  matcher
    (seq [Star true
            (Group 1
               (seq [Plus true space;
                     Plus true
                       (Class true
                          [CChar "="%char; CChar "<"%char;
                           CChar ">"%char; CChar "/"%char;
                           CSpace]);
                     Opt true
                       (seq [Star true space; Char "="%char;
                             Star true space;
                             attributeValue])]));
          Star true space; Opt true (Char "/"%char)])
    q (str "/>") caps
    (fun p4 r4 c4 =>
       matcher (Char ">"%char) p4 r4 c4 (fun e _ caps => Some (e, caps)))
  = Some (S (S q), caps).
Proof.
  cbn -[Nat.ltb]. change (isWhiteSpace "/"%char) with false.
  cbn [orb orElse].
  assert (L : (q <? S q) = true) by (apply Nat.ltb_lt; lia).
  rewrite L. cbn [orElse]. now rewrite clearCaptures_nil.
Qed.

Lemma kMarkupPattern_self_closing (n : jsstring) :
  wfElementName n = true ->
  exists caps,
    matchAt kMarkupPattern 0 (selfClosingTag n)
    = Some (mkMatch 0 (selfClosingTag n) caps (length (selfClosingTag n))).
Proof.
  intros H. apply wfElementName_inv in H as (c & n' & -> & Hc & Hn & _).
  destruct (letter_alnum c Hc) as (Ha & _).
  destruct (alnum_facts c Ha) as (_ & _ & Hs & _).
  assert (Hrun : forallb (classMatches false [upper; lower; digit]) n' = true).
  { apply (alnum_run _ n'); [|exact Hn]. intros x Hx.
    now destruct (alnum_facts x Hx) as (_ & _ & _ & _ & _ & _ & ?). }
  assert (Hstop : stopsAt false [upper; lower; digit]
                    ("/"%char :: ">"%char :: [])) by reflexivity.
  pose proof (tag_chars c n' []) as TC. rewrite app_nil_r in TC.
  enough (E : exists caps,
             matchAt kMarkupPattern 0
               ("<"%char :: c :: n' ++ "/"%char :: ">"%char :: [])
             = Some (mkMatch 0 (selfClosingTag (c :: n')) caps
                       (length n' + 4))).
  { destruct E as [caps E]. exists caps. now rewrite tag_length, TC. }
  unfold matchAt.
  rewrite kMarkupPattern_split, matcher_char. cbn [Ascii.eqb Bool.eqb].
  cbn [matcher orElse]. rewrite Hs. cbn [orElse].
  rewrite Hc. cbn [seq].
  rewrite matcher_seq, matcher_star.
  change (groupsOf (Class false [upper; lower; digit])) with (@nil nat).
  rewrite (repeat_class_run false _ n' ("/"%char :: ">"%char :: [])) by auto.
  erewrite backtrack_end; cycle 1.
  { apply (tag_end (2 + length n') []). }
  eexists. f_equal. f_equal.
  - replace (S (S (2 + length n')) - 0) with (length n' + 4) by lia.
    apply firstn_tag.
  - lia.
Qed.

Lemma trimStart_solid (s : jsstring) : solid s = true -> trimStart s = s.
Proof.
  destruct s as [|c s]; [reflexivity|]. cbn [solid forallb trimStart].
  intros H. apply andb_prop in H as [H _]. apply negb_true_iff in H.
  now rewrite H.
Qed.

Lemma trim_solid (s : jsstring) : solid s = true -> trim s = s.
Proof.
  intros H. unfold trim, trimEnd. rewrite (trimStart_solid s H).
  rewrite trimStart_solid by (unfold solid; now rewrite forallb_rev).
  apply rev_involutive.
Qed.

Lemma name_solid (n : jsstring) : forallb alnum n = true -> solid n = true.
Proof.
  apply alnum_run. intros c Hc. destruct (alnum_facts c Hc) as (-> & _).
  reflexivity.
Qed.

Lemma handleJSXTag_self_closing (n : jsstring) :
  wfElementName n = true ->
  handleJSXTag (selfClosingTag n) = mkJSXInfo n [] true false.
Proof.
  intros H. apply wfElementName_inv in H as (c & n' & -> & Hc & Hn & Hall).
  destruct (letter_alnum c Hc) as (Ha & _).
  destruct (alnum_facts c Ha) as (_ & _ & Hs & _).
  pose proof (name_solid _ Hall) as Hsolid.
  change (selfClosingTag (c :: n'))
    with (str "<" ++ (c :: n') ++ tagEnd true).
  rewrite handleJSXTag_name_only.
  - now rewrite trim_solid.
  - now apply name_lacks_space.
  - unfold startsWith. cbn [app str list_ascii_of_string isPrefix].
    now rewrite Ascii.eqb_sym, Hs.
  - discriminate.
Qed.

Lemma parse_self_closing (n : jsstring) :
  wfElementName n = true ->
  parse 0 (selfClosingTag n)
  = Some (Normal
            ([mkNodeObj (ElementKind None [] [] None []) [1] None;
              mkNodeObj (ElementKind (Some n) [] [] None []) [] (Some 0)],
             0), 0).
Proof.
  intros H. destruct (kMarkupPattern_self_closing n H) as [caps M].
  pose proof (handleJSXTag_self_closing n H) as J.
  set (tag := selfClosingTag n) in *.
  assert (L : 2 <= length tag).
  { apply wfElementName_inv in H as (c & n' & -> & _).
    unfold tag. rewrite tag_length. lia. }
  clearbody tag. unfold parse, parseRun.
  destruct (length tag) as [|[|len]] eqn:EL; [lia | lia |].
  pose proof (exec_at_prefix kMarkupPattern [] tag) as E0.
  cbn [length app] in E0. rewrite search_unfold, M in E0.
  cbn [endIndex] in E0.
  pose proof (exec_at_prefix kMarkupPattern tag []) as E1.
  rewrite app_nil_r, EL in E1. cbn [search] in E1.
  change (matchAt kMarkupPattern (S (S len)) []) with (@None Match) in E1.
  assert (T : parseToken tag (mkMatch 0 tag caps (S (S len)))
                (withLastIndex (parseInit 0) (S (S len)))
              = Normal
                  (mkParseState
                     [mkNodeObj (ElementKind None [] [] None []) [1] None;
                      mkNodeObj (ElementKind (Some n) [] [] None []) []
                        (Some 0)]
                     (Some 0) [0] (Z.of_nat (S (S len))) (S (S len)))).
  { unfold parseToken. cbn [matched]. rewrite J. reflexivity. }
  cbn [parseLoop]. change (lastIndex (parseInit 0)) with 0.
  rewrite E0, T. cbn [lastIndex]. rewrite E1. reflexivity.
Qed.

Lemma search_skip (x : ascii) (r : regex) (pre s : jsstring) : forall pos,
  (forall pos' c' rest', Ascii.eqb c' x = false ->
                         matchAt r pos' (c' :: rest') = None) ->
  lacks x pre = true ->
  search r pos (pre ++ s) = search r (pos + length pre) s.
Proof.
  induction pre as [|c pre IH]; intros pos Hr H.
  - cbn [app length]. now rewrite Nat.add_0_r.
  - simpl in H. apply andb_prop in H as [Hc Hp]. apply negb_true_iff in Hc.
    cbn [app]. rewrite search_unfold, (Hr pos c _ Hc), IH by assumption.
    cbn [length]. f_equal. lia.
Qed.

Lemma isPrefix_app (p s : jsstring) : isPrefix p (p ++ s) = true.
Proof.
  induction p as [|c p IH]; [reflexivity|]. cbn [app isPrefix].
  now rewrite Ascii.eqb_refl, IH.
Qed.

Lemma findFrom_skip (x : ascii) (t pre s : jsstring) : forall pos,
  lacks x pre = true ->
  findFrom (x :: t) (pre ++ (x :: t) ++ s) pos = Some (pos + length pre).
Proof.
  induction pre as [|c pre IH]; intros pos H.
  - cbn [app length findFrom isPrefix].
    now rewrite Nat.add_0_r, Ascii.eqb_refl, isPrefix_app.
  - simpl in H. apply andb_prop in H as [Hc Hp]. apply negb_true_iff in Hc.
    cbn [app findFrom isPrefix]. rewrite Ascii.eqb_sym, Hc. cbn [andb].
    rewrite IH by assumption. cbn [length]. f_equal. lia.
Qed.

Lemma getSubstitution_plain (matched before after : jsstring) :
  forall template,
  lacks "$"%char template = true ->
  getSubstitution matched before after template = template.
Proof.
  induction template as [|c t IH]; [reflexivity|]. intros H.
  simpl in H. apply andb_prop in H as [Hc Ht]. apply negb_true_iff in Hc.
  specialize (IH Ht).
  destruct c as [[] [] [] [] [] [] [] []]; try discriminate Hc;
    cbn [getSubstitution]; now rewrite IH.
Qed.

Lemma replaceString_first (x : ascii) (t pre post template : jsstring) :
  lacks x pre = true -> lacks "$"%char template = true ->
  replaceString (pre ++ (x :: t) ++ post) (x :: t) template
  = pre ++ template ++ post.
Proof.
  intros Hp Ht. unfold replaceString.
  rewrite (findFrom_skip x t pre post 0 Hp). cbn [Nat.add].
  rewrite getSubstitution_plain by assumption.
  rewrite firstn_app, firstn_all, Nat.sub_diag. cbn [firstn].
  rewrite app_nil_r. f_equal. f_equal.
  rewrite app_assoc, <- length_app, skipn_app, skipn_all, Nat.sub_diag.
  reflexivity.
Qed.

Lemma createElement_lacks (x : ascii) (n : jsstring) :
  x = "<"%char \/ x = "$"%char ->
  lacks x n = true ->
  lacks x (createElement n (str "{}") []) = true.
Proof.
  intros [-> | ->] Hn; unfold createElement, lacks in *;
    rewrite !forallb_app; destruct (isLowerCase n);
    rewrite ?forallb_app, ?Hn; reflexivity.
Qed.

Lemma name_lacks (x : ascii) (n : jsstring) :
  alnum x = false -> forallb alnum n = true -> lacks x n = true.
Proof.
  intros Hx. apply alnum_run. intros c Hc. apply negb_true_iff.
  destruct (Ascii.eqb_spec c x) as [->|]; [congruence | reflexivity].
Qed.

Lemma parseJSXStep_self_closing (pre post n : jsstring) (caps : captures)
    (i e : nat) :
  lacks "<"%char pre = true -> wfElementName n = true ->
  parseJSXStep (pre ++ selfClosingTag n ++ post)
    (mkMatch i (selfClosingTag n) caps e) 0
  = Some (Normal (pre ++ createElement n (str "{}") [] ++ post), 0).
Proof.
  intros Hp H. unfold parseJSXStep. cbn [matched].
  rewrite (parse_self_closing n H). cbn [nth_error childNodes].
  cbn [length nodeAt nth_error childNodes traverse kind].
  rewrite translate_unfold. cbn [translateAll bind nonNull toString].
  change (stringify []) with (str "{}").
  apply wfElementName_inv in H as (c & n' & -> & Hc & Hn & Hall).
  change (selfClosingTag (c :: n'))
    with ("<"%char :: ((c :: n') ++ str "/>")).
  rewrite (replaceString_first "<"%char ((c :: n') ++ str "/>") pre post _ Hp);
    [reflexivity|].
  apply createElement_lacks; [now right|].
  now apply name_lacks.
Qed.

End SelfClosing.

(** X25.  A self-closing tag without attributes, in a text without any
    other [<], is replaced by the call: for a name made of a letter
    followed by letters and digits, [parseJSX] on a freshly loaded
    module turns [pre <n/> post] into
    [pre MiniReact.createElement(n,{},) post], the name between double
    quotes when it starts with a lower-case letter, and leaves both
    patterns as they were when the module was loaded. *)
Theorem parseJSX_self_closing_tag (pre post n : jsstring) (fuel : nat) :
  lacks "<"%char pre = true -> lacks "<"%char post = true ->
  wfElementName n = true ->
  parseJSX (S (S fuel)) loaded (pre ++ selfClosingTag n ++ post)
  = Some (Normal (pre ++ createElement n (str "{}") [] ++ post), loaded).
Proof.
  intros Hpre Hpost H.
  destruct (JSX_STRING_self_closing n post (length pre) H) as [caps M].
  pose proof (exec_at_prefix JSX_STRING [] (pre ++ selfClosingTag n ++ post))
    as E. cbn [length app] in E.
  rewrite (search_skip "<"%char JSX_STRING pre _ 0 JSX_STRING_first Hpre) in E.
  cbn [Nat.add] in E. rewrite search_unfold, M in E. cbn [endIndex] in E.
  cbn [parseJSX]. change (JSX_STRING_lastIndex loaded) with 0.
  change (kMarkupPattern_lastIndex loaded) with 0.
  rewrite E, (parseJSXStep_self_closing pre post n caps _ _ Hpre H).
  cbn [JSX_STRING_lastIndex kMarkupPattern_lastIndex].
  rewrite (exec_lacks "<"%char JSX_STRING _ _ JSX_STRING_first
             (fun _ => eq_refl)); [reflexivity|].
  apply wfElementName_inv in H as (c & n' & -> & Hc & Hn & Hall).
  unfold lacks in *. rewrite !forallb_app, Hpre, Hpost.
  fold (lacks "<"%char (createElement (c :: n') (str "{}") [])).
  rewrite createElement_lacks; [reflexivity | now left|].
  now apply name_lacks.
Qed.

Lemma parseJSX_self_closing_tag_witness :
  parseJSX 2 loaded (str "const a = " ++ selfClosingTag (str "Box1")
                       ++ str "; f(a)")
  = Some (Normal (str "const a = " ++ createElement (str "Box1") (str "{}") []
                    ++ str "; f(a)"), loaded).
Proof.
  apply (parseJSX_self_closing_tag (str "const a = ") (str "; f(a)")
           (str "Box1") 0); reflexivity.
Defined.

(** ** An element that holds a text, from the text to the call *)

Section TextElement.

Lemma matcher_opt r pos rest caps k :
  matcher (Opt true r) pos rest caps k
  = orElse
      (matcher r pos rest (clearCaptures (groupsOf r) caps)
         (fun pos' rest' caps' =>
            if pos <? pos' then k pos' rest' caps' else None))
      (fun _ => k pos rest caps).
Proof. reflexivity. Qed.

Lemma any_class (c : ascii) : classMatches false [CSpace; CNotSpace] c = true.
Proof. unfold classMatches. cbn. now destruct (isWhiteSpace c). Qed.

(** The lazy star of [JSX_STRING] runs over a text without [<] up to
    the place where what follows the star matches. *)
Lemma lazy_skip (k : Continuation) (rest : jsstring) (res : nat * captures) :
  (forall p c r cp, Ascii.eqb c "<"%char = false -> k p (c :: r) cp = None) ->
  forall text fuel pos caps,
  lacks "<"%char text = true -> length text <= fuel ->
  k (pos + length text) rest caps = Some res ->
  RepeatMatcher (matcher (Class false [CSpace; CNotSpace])) false [] fuel pos
    (text ++ rest) caps k = Some res.
Proof.
  intros Hk. induction text as [|x t IH]; intros fuel pos caps Hl Hf H.
  - cbn [length app] in *. rewrite Nat.add_0_r in H.
    destruct fuel; cbn [RepeatMatcher]; [exact H | now rewrite H].
  - simpl in Hl. apply andb_prop in Hl as [Hx Ht]. apply negb_true_iff in Hx.
    destruct fuel as [|fuel]; [cbn [length] in Hf; lia|].
    cbn [RepeatMatcher app]. rewrite (Hk pos x _ caps Hx). cbn [orElse].
    rewrite clearCaptures_nil, matcher_class, any_class.
    assert (L : (pos <? S pos) = true) by (apply Nat.ltb_lt; lia).
    rewrite L. apply IH; [exact Ht | cbn [length] in Hf; lia|].
    cbn [length] in H. now rewrite Nat.add_succ_r in H.
Qed.

Lemma element_chars (c : ascii) (n' text post : jsstring) :
  textElement (c :: n') text ++ post
  = "<"%char :: c :: n'
    ++ ">"%char :: text
    ++ "<"%char :: "/"%char :: c :: n' ++ ">"%char :: post.
Proof.
  unfold textElement, openTag, closeTag.
  cbn [str list_ascii_of_string app].
  rewrite <- !app_assoc. cbn [app]. rewrite <- !app_assoc. reflexivity.
Qed.

Lemma element_length (c : ascii) (n' text : jsstring) :
  length (textElement (c :: n') text)
  = length n' + 3 + length text + (length n' + 4).
Proof.
  unfold textElement, openTag, closeTag.
  cbn [str list_ascii_of_string app length].
  rewrite !length_app. cbn [length]. rewrite !length_app. cbn [length]. lia.
Qed.

Lemma firstn_name (c : ascii) (n' r : jsstring) :
  firstn (S (length n')) (c :: n' ++ r) = c :: n'.
Proof.
  cbn [firstn]. f_equal.
  rewrite firstn_app, firstn_all, Nat.sub_diag. cbn [firstn].
  apply app_nil_r.
Qed.

Lemma JSX_STRING_text_element (n text post : jsstring) (pos : nat) :
  wfElementName n = true -> lacks "<"%char text = true ->
  exists caps,
    matchAt JSX_STRING pos (textElement n text ++ post)
    = Some (mkMatch pos (textElement n text) caps
              (pos + length (textElement n text))).
Proof.
  intros H Ht. apply wfElementName_inv in H as (c & n' & -> & Hc & Hn & _).
  destruct (letter_alnum c Hc) as (_ & Hc').
  assert (Hrun : forallb (classMatches true
                            [CSpace; CChar "/"%char; CChar ">"%char]) n'
                 = true).
  { apply (alnum_run _ n'); [|exact Hn]. intros x Hx.
    now destruct (alnum_facts x Hx) as (_ & _ & _ & _ & _ & ? & _). }
  set (tail := "<"%char :: "/"%char :: c :: n' ++ ">"%char :: post).
  assert (Hstop : stopsAt true [CSpace; CChar "/"%char; CChar ">"%char]
                    (">"%char :: text ++ tail)) by reflexivity.
  assert (M : matcher JSX_STRING pos (textElement (c :: n') text ++ post) []
                (fun e _ caps => Some (e, caps))
              = Some (pos + length (textElement (c :: n') text),
                      [(1, c :: n')])).
  { rewrite element_chars, element_length. fold tail.
    unfold JSX_STRING. rewrite matcher_alt. cbn [seq].
    rewrite matcher_seq, matcher_char. cbn [Ascii.eqb Bool.eqb].
    rewrite matcher_seq, matcher_group. unfold tagNamePattern. cbn [seq].
    rewrite matcher_seq, matcher_class, Hc', matcher_star.
    change (groupsOf (Class true [CSpace; CChar "/"%char; CChar ">"%char]))
      with (@nil nat).
    rewrite (repeat_class_run true _ n' (">"%char :: text ++ tail)) by auto.
    rewrite (backtrack_end _ [] n' (S (S pos)) (">"%char :: text ++ tail)
               (pos + (length n' + 3 + length text + (length n' + 4)),
                [(1, c :: n')])); [reflexivity|].
    cbv beta.
    replace (S (S pos) + length n' - S pos) with (S (length n')) by lia.
    rewrite firstn_name, matcher_seq. unfold attributesPattern.
    rewrite matcher_opt. cbn [seq]. rewrite matcher_seq. unfold space.
    rewrite matcher_class.
    change (classMatches false [CSpace] ">"%char) with false.
    cbn [orElse]. rewrite matcher_seq, matcher_char.
    cbn [Ascii.eqb Bool.eqb]. rewrite matcher_seq, matcher_star.
    change (groupsOf (Class false [CSpace; CNotSpace])) with (@nil nat).
    apply lazy_skip.
    - intros p x r cp Hx. now rewrite matcher_seq, matcher_char, Hx.
    - exact Ht.
    - rewrite length_app. lia.
    - unfold tail. rewrite matcher_seq, matcher_char.
      cbn [Ascii.eqb Bool.eqb]. rewrite matcher_seq, matcher_char.
      cbn [Ascii.eqb Bool.eqb]. rewrite matcher_seq.
      cbn [matcher capture Nat.eqb].
      change (c :: n' ++ ">"%char :: post)
        with ((c :: n') ++ ">"%char :: post).
      rewrite isPrefix_app, skipn_app, skipn_all, Nat.sub_diag.
      cbn [skipn app Ascii.eqb Bool.eqb length]. f_equal. f_equal. lia. }
  unfold matchAt. rewrite M. eexists. f_equal. f_equal.
  rewrite Nat.add_comm, Nat.add_sub.
  rewrite firstn_app, firstn_all, Nat.sub_diag. cbn [firstn].
  apply app_nil_r.
Qed.

Lemma tag_end_open (q : nat) (caps : captures) (R : jsstring) :
  matcher
    (seq [Star true
            (Group 1
               (seq [Plus true space;
                     Plus true
                       (Class true
                          [CChar "="%char; CChar "<"%char;
                           CChar ">"%char; CChar "/"%char;
                           CSpace]);
                     Opt true
                       (seq [Star true space; Char "="%char;
                             Star true space;
                             attributeValue])]));
          Star true space; Opt true (Char "/"%char)])
    q (">"%char :: R) caps
    (fun p4 r4 c4 =>
       matcher (Char ">"%char) p4 r4 c4 (fun e _ caps => Some (e, caps)))
  = Some (S q, caps).
Proof.
  cbn [seq]. rewrite matcher_seq, matcher_star. cbn [length RepeatMatcher].
  rewrite matcher_group. cbn [seq]. rewrite matcher_seq. unfold Plus at 1.
  rewrite matcher_seq. unfold space at 1. rewrite matcher_class.
  change (classMatches false [CSpace] ">"%char) with false.
  cbn [orElse]. rewrite matcher_seq, matcher_star.
  cbn [length RepeatMatcher]. unfold space at 1. rewrite matcher_class.
  change (classMatches false [CSpace] ">"%char) with false.
  cbn [orElse]. rewrite matcher_opt, !matcher_char.
  cbn [Ascii.eqb Bool.eqb orElse]. reflexivity.
Qed.

Lemma kMarkupPattern_open (n R : jsstring) :
  wfElementName n = true ->
  exists caps,
    matchAt kMarkupPattern 0 (openTag n ++ R)
    = Some (mkMatch 0 (openTag n) caps (length (openTag n))).
Proof.
  intros H. apply wfElementName_inv in H as (c & n' & -> & Hc & Hn & _).
  destruct (letter_alnum c Hc) as (Ha & _).
  destruct (alnum_facts c Ha) as (_ & _ & Hs & _).
  assert (Hrun : forallb (classMatches false [upper; lower; digit]) n' = true).
  { apply (alnum_run _ n'); [|exact Hn]. intros x Hx.
    now destruct (alnum_facts x Hx) as (_ & _ & _ & _ & _ & _ & ?). }
  assert (Hstop : stopsAt false [upper; lower; digit] (">"%char :: R))
    by reflexivity.
  assert (EI : openTag (c :: n') ++ R = "<"%char :: c :: n' ++ ">"%char :: R).
  { unfold openTag. cbn [str list_ascii_of_string app].
    now rewrite <- app_assoc. }
  assert (EL : length (openTag (c :: n')) = length n' + 3).
  { unfold openTag. cbn [str list_ascii_of_string app length].
    rewrite length_app. cbn [length]. lia. }
  assert (M : matcher kMarkupPattern 0 (openTag (c :: n') ++ R) []
                (fun e _ caps => Some (e, caps))
              = Some (length (openTag (c :: n')), [])).
  { rewrite EI, EL, kMarkupPattern_split, matcher_char.
    cbn [Ascii.eqb Bool.eqb]. rewrite matcher_opt, matcher_char, Hs.
    cbn [orElse]. rewrite matcher_class, Hc. cbn [seq].
    rewrite matcher_seq, matcher_star.
    change (groupsOf (Class false [upper; lower; digit])) with (@nil nat).
    rewrite (repeat_class_run false _ n' (">"%char :: R)) by auto.
    rewrite (backtrack_end _ [] n' 2 (">"%char :: R)
               (S (2 + length n'), [])).
    - f_equal. f_equal. lia.
    - apply (tag_end_open (2 + length n') [] R). }
  unfold matchAt. rewrite M. eexists. f_equal. f_equal.
  rewrite Nat.sub_0_r, firstn_app, firstn_all, Nat.sub_diag. cbn [firstn].
  apply app_nil_r.
Qed.

Lemma kMarkupPattern_close (n R : jsstring) (q : nat) :
  wfElementName n = true ->
  exists caps,
    matchAt kMarkupPattern q (closeTag n ++ R)
    = Some (mkMatch q (closeTag n) caps (q + length (closeTag n))).
Proof.
  intros H. apply wfElementName_inv in H as (c & n' & -> & Hc & Hn & _).
  assert (Hrun : forallb (classMatches false [upper; lower; digit]) n' = true).
  { apply (alnum_run _ n'); [|exact Hn]. intros x Hx.
    now destruct (alnum_facts x Hx) as (_ & _ & _ & _ & _ & _ & ?). }
  assert (Hstop : stopsAt false [upper; lower; digit] (">"%char :: R))
    by reflexivity.
  assert (EI : closeTag (c :: n') ++ R
               = "<"%char :: "/"%char :: c :: n' ++ ">"%char :: R).
  { unfold closeTag. cbn [str list_ascii_of_string app].
    now rewrite <- app_assoc. }
  assert (EL : length (closeTag (c :: n')) = length n' + 4).
  { unfold closeTag. cbn [str list_ascii_of_string app length].
    rewrite length_app. cbn [length]. lia. }
  assert (M : matcher kMarkupPattern q (closeTag (c :: n') ++ R) []
                (fun e _ caps => Some (e, caps))
              = Some (q + length (closeTag (c :: n')), [])).
  { rewrite EI, EL, kMarkupPattern_split, matcher_char.
    cbn [Ascii.eqb Bool.eqb]. rewrite matcher_opt, matcher_char.
    cbn [Ascii.eqb Bool.eqb].
    assert (L : (S q <? S (S q)) = true) by (apply Nat.ltb_lt; lia).
    rewrite L, matcher_class, Hc. cbn [seq].
    rewrite matcher_seq, matcher_star.
    change (groupsOf (Class false [upper; lower; digit])) with (@nil nat).
    rewrite (repeat_class_run false _ n' (">"%char :: R)) by auto.
    rewrite (backtrack_end _ (clearCaptures (groupsOf (Char "/"%char)) [])
               n' (S (S (S q))) (">"%char :: R)
               (S (S (S (S q)) + length n'), [])).
    - cbn [orElse]. f_equal. f_equal. lia.
    - apply (tag_end_open (S (S (S q)) + length n') [] R). }
  unfold matchAt. rewrite M. eexists. f_equal. f_equal.
  rewrite Nat.add_comm, Nat.add_sub, firstn_app, firstn_all, Nat.sub_diag.
  cbn [firstn]. apply app_nil_r.
Qed.

Lemma name_end (n : jsstring) :
  forallb alnum n = true -> endsWith n (str "/") = false.
Proof.
  intros H. unfold endsWith. rewrite <- forallb_rev in H.
  destruct (rev n) as [|x r]; [reflexivity|].
  simpl in H. apply andb_prop in H as [Hx _].
  destruct (alnum_facts x Hx) as (_ & _ & Hs & _).
  cbn [rev str list_ascii_of_string app isPrefix].
  now rewrite Ascii.eqb_sym, Hs.
Qed.

Lemma handleJSXTag_openTag (n : jsstring) :
  wfElementName n = true ->
  handleJSXTag (openTag n) = mkJSXInfo n [] false false.
Proof.
  intros H. apply wfElementName_inv in H as (c & n' & -> & Hc & Hn & Hall).
  destruct (letter_alnum c Hc) as (Ha & _).
  destruct (alnum_facts c Ha) as (_ & _ & Hs & _).
  pose proof (name_solid _ Hall) as Hsolid.
  change (openTag (c :: n')) with (str "<" ++ (c :: n') ++ tagEnd false).
  rewrite handleJSXTag_name_only.
  - now rewrite trim_solid.
  - now apply name_lacks_space.
  - unfold startsWith. cbn [app str list_ascii_of_string isPrefix].
    now rewrite Ascii.eqb_sym, Hs.
  - intros _. now apply name_end.
Qed.

Lemma handleJSXTag_closeTag (n : jsstring) :
  wfElementName n = true ->
  handleJSXTag (closeTag n) = mkJSXInfo n [] false true.
Proof.
  intros H. apply wfElementName_inv in H as (c & n' & -> & Hc & Hn & Hall).
  unfold closeTag. rewrite handleJSXTag_end_tag.
  - now rewrite trim_solid by now apply name_solid.
  - now apply name_lacks.
Qed.

Lemma includes_closeTag (n : jsstring) :
  wfElementName n = true -> includes (closeTag n) n = true.
Proof.
  intros H. apply wfElementName_inv in H as (c & n' & -> & Hc & Hn & Hall).
  destruct (letter_alnum c Hc) as (Ha & _).
  destruct (alnum_facts c Ha) as (_ & _ & Hs & Hl & _).
  unfold includes, closeTag. cbn [str list_ascii_of_string app].
  cbn [findFrom isPrefix]. rewrite Hl, Hs. cbn [andb].
  now rewrite Ascii.eqb_refl, isPrefix_app.
Qed.

Lemma parse_text_element (n text : jsstring) :
  wfElementName n = true -> lacks "<"%char text = true -> text <> [] ->
  parse 0 (textElement n text)
  = Some (Normal
            ([mkNodeObj (ElementKind None [] [] None []) [1] None;
              mkNodeObj (ElementKind (Some n) [] [] None []) [2] (Some 0);
              mkNodeObj (TextKind text) [] (Some 1)],
             0), 0).
Proof.
  intros H Ht Hne.
  destruct (kMarkupPattern_open n (text ++ closeTag n) H) as [caps1 M1].
  destruct (kMarkupPattern_close n [] (length (openTag n) + length text) H)
    as [caps2 M2].
  rewrite app_nil_r in M2.
  pose proof (handleJSXTag_openTag n H) as J1.
  pose proof (handleJSXTag_closeTag n H) as J2.
  pose proof (includes_closeTag n H) as I2.
  assert (L1 : 3 <= length (openTag n)).
  { apply wfElementName_inv in H as (c & n' & -> & _).
    unfold openTag. cbn [str list_ascii_of_string app length].
    rewrite length_app. cbn [length]. lia. }
  assert (Lt : 1 <= length text) by (destruct text; [congruence | cbn; lia]).
  set (open := openTag n) in *. set (close := closeTag n) in *.
  assert (D : textElement n text = open ++ text ++ close) by reflexivity.
  assert (LD : length (textElement n text)
               = length open + length text + length close)
    by (rewrite D, !length_app; lia).
  clearbody open close. set (data := textElement n text) in *.
  clearbody data.
  (* the first tag *)
  pose proof (exec_at_prefix kMarkupPattern [] data) as E0.
  cbn [length app] in E0. rewrite D, search_unfold, M1 in E0.
  cbn [endIndex] in E0. rewrite <- D in E0.
  assert (T1 : parseToken data (mkMatch 0 open caps1 (length open))
                 (withLastIndex (parseInit 0) (length open))
               = Normal
                   (mkParseState
                      [mkNodeObj (ElementKind None [] [] None []) [1] None;
                       mkNodeObj (ElementKind (Some n) [] [] None []) []
                         (Some 0)]
                      (Some 1) [0; 1] (Z.of_nat (length open))
                      (length open))).
  { unfold parseToken. cbn [matched]. rewrite J1. reflexivity. }
  (* the text and the closing tag *)
  pose proof (exec_at_prefix kMarkupPattern open (text ++ close)) as E1.
  rewrite <- D in E1.
  rewrite (search_skip "<"%char kMarkupPattern text close _
             kMarkupPattern_first Ht), search_unfold, M2 in E1.
  cbn [endIndex] in E1.
  replace (length open + length text + length close) with (length data) in E1
    by lia.
  assert (T2 : parseToken data
                 (mkMatch (length open + length text) close caps2
                    (length data))
                 (withLastIndex
                    (mkParseState
                       [mkNodeObj (ElementKind None [] [] None []) [1] None;
                        mkNodeObj (ElementKind (Some n) [] [] None []) []
                          (Some 0)]
                       (Some 1) [0; 1] (Z.of_nat (length open))
                       (length open))
                    (length data))
               = Normal
                   (mkParseState
                      [mkNodeObj (ElementKind None [] [] None []) [1] None;
                       mkNodeObj (ElementKind (Some n) [] [] None []) [2]
                         (Some 0);
                       mkNodeObj (TextKind text) [] (Some 1)]
                      None [0] (Z.of_nat (length data)) (length data))).
  { unfold parseToken, parseTextBefore, withLastIndex.
    cbn [matched lastTextPos lastIndex currentParent store stack].
    assert (C : ((-1 <? Z.of_nat (length open))%Z
                 && (Z.of_nat (length open) + Z.of_nat (length close)
                     <? Z.of_nat (length data))%Z) = true).
    { apply andb_true_intro. split; apply Z.ltb_lt; lia. }
    rewrite C, Nat2Z.id.
    replace (length data - length close) with (length open + length text)
      by lia.
    rewrite D, substring_middle, <- D. cbn [alloc bind].
    rewrite J2. cbn [closed currentParent store].
    unfold appendChild at 1. cbn [update length app kind childNodes parentNode].
    unfold tagNameString. cbn [nth_error]. rewrite I2. reflexivity. }
  (* the end of the input *)
  pose proof (exec_at_prefix kMarkupPattern data []) as E2.
  rewrite app_nil_r in E2. cbn [search] in E2.
  change (matchAt kMarkupPattern (length data) []) with (@None Match) in E2.
  unfold parse, parseRun.
  destruct (length data) as [|[|len]] eqn:EL; [lia | lia |].
  cbn [parseLoop]. change (lastIndex (parseInit 0)) with 0.
  rewrite E0, T1. cbn [lastIndex]. rewrite E1, T2. cbn [lastIndex].
  rewrite E2. reflexivity.
Qed.

Lemma createElement_text_lacks (x : ascii) (n text : jsstring) :
  x = "<"%char \/ x = "$"%char ->
  lacks x n = true -> lacks x text = true ->
  lacks x (createElement n (str "{}") [quoted text]) = true.
Proof.
  intros [-> | ->] Hn Ht; unfold createElement, quoted, lacks in *;
    cbn [join]; rewrite !forallb_app; destruct (isLowerCase n);
    rewrite ?forallb_app, ?Hn, ?Ht; reflexivity.
Qed.

Lemma normal_text_lacks (x : ascii) (text : jsstring) :
  x = "<"%char \/ x = "$"%char ->
  lacks x text = true -> lacks x (trim (collapse false text)) = true.
Proof.
  intros Hx H. apply forallb_trim. apply collapse_lacks; [|exact H].
  now destruct Hx as [-> | ->].
Qed.

Lemma parseJSXStep_text_element (pre post n text : jsstring)
    (caps : captures) (i e : nat) :
  lacks "<"%char pre = true -> wfElementName n = true ->
  lacks "<"%char text = true -> lacks "{"%char text = true ->
  lacks "$"%char text = true -> nonEmpty (trim text) = true ->
  parseJSXStep (pre ++ textElement n text ++ post)
    (mkMatch i (textElement n text) caps e) 0
  = Some (Normal
            (pre
             ++ createElement n (str "{}")
                  [quoted (trim (collapse false text))]
             ++ post), 0).
Proof.
  intros Hp H Ht Hb Hd Hne. unfold parseJSXStep. cbn [matched].
  assert (Hnn : text <> []) by (intros ->; discriminate Hne).
  rewrite (parse_text_element n text H Ht Hnn). cbn [nth_error childNodes].
  cbn [length nodeAt nth_error childNodes traverse kind].
  rewrite translate_unfold. cbn [translateAll]. rewrite translate_unfold.
  cbn [translateAll bind]. rewrite Hne. cbn [bind nonNull toString].
  rewrite parseText_literal by assumption.
  change (stringify []) with (str "{}").
  apply wfElementName_inv in H as (c & n' & -> & Hc & Hn & Hall).
  change (textElement (c :: n') text)
    with ("<"%char
          :: (((c :: n') ++ str ">") ++ text ++ closeTag (c :: n'))).
  rewrite (replaceString_first "<"%char _ pre post _ Hp); [reflexivity|].
  apply createElement_text_lacks; [now right | now apply name_lacks|].
  apply normal_text_lacks; [now right | exact Hd].
Qed.

End TextElement.

(** X26.  An element that holds a text, in a text without any other
    [<], is replaced by the call.  For a name made of a letter followed
    by letters and digits and a text that is not white space only and
    holds no [<], no opening brace and no dollar sign, [parseJSX] on a
    freshly loaded module turns [pre <n>text</n> post] into
    [pre MiniReact.createElement(n,{},`t`) post], where [t] is the text
    with its white space runs collapsed and trimmed, and leaves both
    patterns as they were when the module was loaded. *)
Theorem parseJSX_text_element (pre post n text : jsstring) (fuel : nat) :
  lacks "<"%char pre = true -> lacks "<"%char post = true ->
  wfElementName n = true ->
  lacks "<"%char text = true -> lacks "{"%char text = true ->
  lacks "$"%char text = true -> nonEmpty (trim text) = true ->
  parseJSX (S (S fuel)) loaded (pre ++ textElement n text ++ post)
  = Some (Normal
            (pre
             ++ createElement n (str "{}")
                  [quoted (trim (collapse false text))]
             ++ post), loaded).
Proof.
  intros Hpre Hpost H Ht Hb Hd Hne.
  destruct (JSX_STRING_text_element n text post (length pre) H Ht)
    as [caps M].
  pose proof (exec_at_prefix JSX_STRING []
                (pre ++ textElement n text ++ post)) as E.
  cbn [length app] in E.
  rewrite (search_skip "<"%char JSX_STRING pre _ 0 JSX_STRING_first Hpre) in E.
  cbn [Nat.add] in E. rewrite search_unfold, M in E. cbn [endIndex] in E.
  cbn [parseJSX]. change (JSX_STRING_lastIndex loaded) with 0.
  change (kMarkupPattern_lastIndex loaded) with 0.
  rewrite E, (parseJSXStep_text_element pre post n text caps _ _
                Hpre H Ht Hb Hd Hne).
  cbn [JSX_STRING_lastIndex kMarkupPattern_lastIndex].
  rewrite (exec_lacks "<"%char JSX_STRING _ _ JSX_STRING_first
             (fun _ => eq_refl)); [reflexivity|].
  apply wfElementName_inv in H as (c & n' & -> & Hc & Hn & Hall).
  unfold lacks in *. rewrite !forallb_app, Hpre, Hpost.
  fold (lacks "<"%char
          (createElement (c :: n') (str "{}")
             [quoted (trim (collapse false text))])).
  rewrite createElement_text_lacks;
    [reflexivity | now left | now apply name_lacks|].
  apply normal_text_lacks; [now left | exact Ht].
Qed.

Lemma parseJSX_text_element_witness :
  parseJSX 2 loaded
    (str "return " ++ textElement (str "h1") (str " Hello,   world ")
       ++ str ";")
  = Some (Normal
            (str "return "
             ++ createElement (str "h1") (str "{}")
                  [quoted (trim (collapse false (str " Hello,   world ")))]
             ++ str ";"), loaded).
Proof.
  apply (parseJSX_text_element (str "return ") (str ";") (str "h1")
           (str " Hello,   world ") 0); reflexivity.
Defined.
